(** * nv-switcher: the search core

    A shallow embedding of the search engine of nv-switcher
    (normalize.ts, query-parser.ts, min-heap.ts, scorer.ts and
    built-in-provider.ts) and the properties established about it.

    JavaScript strings are sequences of UTF-16 code units, numbers are
    kept abstract behind [JSNumber], and what the host supplies (Unicode
    tables, the regular-expression engine, the clock) is taken through
    type classes.  Two instances of the numbers are given, both with
    exact arithmetic: the rational numbers, which the examples compute
    with, and the real numbers.  The doubles of the program round, so
    the statements about the order of scores are made for any numbers
    with the order properties that rounding keeps
    ([NumberSpec.monotone]). *)

From Stdlib Require Import String Ascii.
From Stdlib Require Import List ZArith NArith QArith Qround Reals Lra Lia Bool.
From Stdlib Require Import Permutation Sorted Qpower.
Import ListNotations.

Set Implicit Arguments.

Local Open Scope bool_scope.
Local Open Scope nat_scope.
Local Open Scope list_scope.

(** ** JavaScript strings *)

Definition codeunit := N.
Definition codepoint := N.
Definition jsstring := list codeunit.

(** A string literal of ASCII characters, one code unit each. *)
Definition js (s : string) : jsstring :=
  map N_of_ascii (list_ascii_of_string s).

Fixpoint jseqb (a b : jsstring) : bool :=
  match a, b with
  | [], [] => true
  | x :: a', y :: b' => N.eqb x y && jseqb a' b'
  | _, _ => false
  end.

(** [s.startsWith(p)] *)
Fixpoint startsWith (s p : jsstring) : bool :=
  match p with
  | [] => true
  | c :: p' =>
      match s with
      | [] => false
      | d :: s' => N.eqb d c && startsWith s' p'
      end
  end.

Fixpoint indexOf_from (s p : jsstring) (i : nat) : option nat :=
  if startsWith s p then Some i
  else match s with
       | [] => None
       | _ :: s' => indexOf_from s' p (S i)
       end.

(** [s.indexOf(p)]; [None] stands for -1. *)
Definition indexOf (s p : jsstring) : option nat := indexOf_from s p 0.

(** [s.includes(p)] *)
Definition includes (s p : jsstring) : bool :=
  match indexOf s p with Some _ => true | None => false end.

(** [l.join(sep)] *)
Fixpoint join (sep : jsstring) (l : list jsstring) : jsstring :=
  match l with
  | [] => []
  | [x] => x
  | x :: r => x ++ sep ++ join sep r
  end.

Definition space : jsstring := [32%N].

(** WhiteSpace and LineTerminator code units, as [trim] and [\s] see them. *)
Definition isWhiteSpace (c : codeunit) : bool :=
  ((9 <=? c) && (c <=? 13) || (c =? 32) || (c =? 160) || (c =? 5760)
   || (8192 <=? c) && (c <=? 8202) || (c =? 8232) || (c =? 8233)
   || (c =? 8239) || (c =? 8287) || (c =? 12288) || (c =? 65279))%N.

Fixpoint trimStart (s : jsstring) : jsstring :=
  match s with
  | c :: r => if isWhiteSpace c then trimStart r else s
  | [] => []
  end.

Definition trimEnd (s : jsstring) : jsstring := rev (trimStart (rev s)).

(** [s.trim()] *)
Definition trim (s : jsstring) : jsstring := trimEnd (trimStart s).

(** [s.split(/\s+/).filter(t => t.length > 0)]: the maximal runs of
    characters that are not white space. *)
Fixpoint splitWhitespace_go (s : jsstring) (cur : jsstring) : list jsstring :=
  match s with
  | [] => match cur with [] => [] | _ => [rev cur] end
  | c :: r =>
      if isWhiteSpace c
      then match cur with
           | [] => splitWhitespace_go r []
           | _ => rev cur :: splitWhitespace_go r []
           end
      else splitWhitespace_go r (c :: cur)
  end.

Definition splitWhitespace (s : jsstring) : list jsstring :=
  splitWhitespace_go s [].

(** UTF-16: surrogates, code points and back. *)
Definition isHighSurrogate (c : codeunit) : bool :=
  ((55296 <=? c) && (c <=? 56319))%N.
Definition isLowSurrogate (c : codeunit) : bool :=
  ((56320 <=? c) && (c <=? 57343))%N.

(** The code point a surrogate pair stands for. *)
Definition pairCodePoint (h l : codeunit) : codepoint :=
  (65536 + (h - 55296) * 1024 + (l - 56320))%N.

Fixpoint toCodePoints (s : jsstring) : list codepoint :=
  match s with
  | [] => []
  | h :: t =>
      match t with
      | l :: t' =>
          if isHighSurrogate h && isLowSurrogate l
          then pairCodePoint h l :: toCodePoints t'
          else h :: toCodePoints t
      | [] => [h]
      end
  end.

Definition fromCodePoint (c : codepoint) : jsstring :=
  if (c <? 65536)%N then [c]
  else [(55296 + (c - 65536) / 1024)%N; (56320 + (c - 65536) mod 1024)%N].

Definition fromCodePoints (l : list codepoint) : jsstring :=
  flat_map fromCodePoint l.

(** Length in bytes of the UTF-8 encoding of a string (a lone surrogate is
    encoded as U+FFFD, three bytes). *)
Definition utf8Length_cp (c : codepoint) : nat :=
  if (c <? 128)%N then 1
  else if (c <? 2048)%N then 2
  else if (c <? 65536)%N then 3
  else 4.

Definition utf8Length (s : jsstring) : nat :=
  list_sum (map utf8Length_cp (toCodePoints s)).

(** ** What the host provides *)

(** Unicode data.  [lowercaseMapping before c after] is the full lowercase
    mapping of the code point [c] in its context ([before] lists the
    preceding code points, nearest first), as the default case conversion
    of the Unicode standard uses it. *)
Class Unicode := {
  lowercaseMapping : list codepoint -> codepoint -> list codepoint -> list codepoint;
  toUpperCase : jsstring -> jsstring;
  normalizeNFD : jsstring -> jsstring;
  isLetterOrNumber : codepoint -> bool
}.

(** Numbers.  [ncompare a b] is the sign of [a - b]. *)
Class JSNumber := {
  num : Type;
  of_Z : Z -> num;
  nadd : num -> num -> num;
  nsub : num -> num -> num;
  nmul : num -> num -> num;
  ndiv : num -> num -> num;
  ncompare : num -> num -> comparison;
  Math_exp : num -> num;
  Math_LN2 : num
}.

(** A compiled regular expression: the search of RegExpBuiltinExec, from
    [lastIndex] on, for the start and the end of the first match. *)
Definition RegExp := jsstring -> nat -> option (nat * nat).

(** [new RegExp(source, flags)]; [None] when the constructor throws. *)
Class RegExpEngine := {
  RegExp_new : jsstring -> jsstring -> option RegExp
}.

(** [Date.now()], fixed for the duration of a query. *)
Class Clock := { Date_now : Z }.

Declare Scope num_scope.
Delimit Scope num_scope with num.
Notation "a + b" := (nadd a b) : num_scope.
Notation "a - b" := (nsub a b) : num_scope.
Notation "a * b" := (nmul a b) : num_scope.
Notation "a / b" := (ndiv a b) : num_scope.

Section Numbers.
Context {NUM : JSNumber}.

Definition nltb (a b : num) : bool :=
  match ncompare a b with Lt => true | _ => false end.
Definition nleb (a b : num) : bool :=
  match ncompare a b with Gt => false | _ => true end.
Definition of_nat (n : nat) : num := of_Z (Z.of_nat n).
Definition Math_max (a b : num) : num := if nltb a b then b else a.
Definition Math_min (a b : num) : num := if nltb b a then b else a.
Definition nneg (a : num) : num := (of_Z 0 - a)%num.

End Numbers.

(** ** types.ts *)

Inductive QueryMode := files | commands.

Inductive FieldPrefix := headings_prefix | symbols_prefix.

Record QueryFilters := {
  f_tag : option (list jsstring);
  f_path : option (list jsstring);
  f_in : option (list jsstring);
  f_field : option FieldPrefix
}.

Definition noFilters : QueryFilters :=
  {| f_tag := None; f_path := None; f_in := None; f_field := None |}.

Record RegexSpec := { rx_source : jsstring; rx_flags : jsstring }.

Record ParsedQuery := {
  raw : jsstring;
  mode : QueryMode;
  terms : list jsstring;
  phrases : list jsstring;
  excludes : list jsstring;
  orGroups : list (list jsstring);
  filters : QueryFilters;
  regex : option RegexSpec
}.

Record Doc := {
  id : jsstring;
  title : jsstring;
  path : list jsstring;
  tags : list jsstring;
  headings : list jsstring;
  symbols : list jsstring;
  body : jsstring;
  mtime : Z;
  size : Z
}.

Inductive SearchableField :=
  f_title | f_path_ | f_tags | f_headings | f_symbols | f_body.

Record MatchSpan := {
  span_field : SearchableField;
  span_start : nat;
  span_end : nat
}.

(** ** normalize.ts *)

Module Normalize.
Section WithUnicode.
Context {U : Unicode}.

Fixpoint lowerCodePoints (before cps : list codepoint) : jsstring :=
  match cps with
  | [] => []
  | c :: after =>
      fromCodePoints (lowercaseMapping before c after)
        ++ lowerCodePoints (c :: before) after
  end.

(** [str.toLowerCase()] *)
Definition toLowerCase (str : jsstring) : jsstring :=
  lowerCodePoints [] (toCodePoints str).

Definition isCombiningMark (c : codeunit) : bool :=
  ((768 <=? c) && (c <=? 879))%N.

(** [diacritics] is true when diacritics are kept. *)
Definition normalizeText (str : jsstring) (diacritics : bool) : jsstring :=
  let normalized := toLowerCase str in
  if negb diacritics
  then filter (fun c => negb (isCombiningMark c)) (normalizeNFD normalized)
  else normalized.

(** The matches of [/[\p{Letter}\p{Number}]+/gu]: maximal runs of letters
    and numbers, in order. *)
Fixpoint wordRuns (cps cur : list codepoint) : list jsstring :=
  match cps with
  | [] => match cur with [] => [] | _ => [fromCodePoints (rev cur)] end
  | c :: r =>
      if isLetterOrNumber c then wordRuns r (c :: cur)
      else match cur with
           | [] => wordRuns r []
           | _ => fromCodePoints (rev cur) :: wordRuns r []
           end
  end.

Definition tokenizeWords (input : jsstring) (diacritics : bool) : list jsstring :=
  let normalized := normalizeText input diacritics in
  wordRuns (toCodePoints normalized) [].

End WithUnicode.
End Normalize.

(** ** query-parser.ts *)

Module QueryParser.

Record CommandsSettings := {
  enableCommandsPrefix : bool;
  commandsPrefixChar : jsstring
}.

Record QueryParserSettings := { commandsSettings : CommandsSettings }.

Inductive ParseErrorType := regex_error | syntax_error.

(** The message of an error is the engine's own text and is left out. *)
Record ParseError := { err_type : ParseErrorType; err_position : option nat }.

Record ParseResult := { pr_query : ParsedQuery; pr_errors : list ParseError }.

Definition quote : codeunit := 34%N.
Definition slash : codeunit := 47%N.
Definition backslash : codeunit := 92%N.
Definition letter_i : codeunit := 105%N.

(** The phrases of step 1: the first capture group of every match of the
    global pattern quote, one or more non-quote characters, quote.
    [inside] holds the interior read since the last opening quote,
    reversed. *)
Fixpoint phraseMatches (s : jsstring) (inside : option jsstring) : list jsstring :=
  match s with
  | [] => []
  | c :: r =>
      match inside with
      | None => if N.eqb c quote then phraseMatches r (Some []) else phraseMatches r None
      | Some buf =>
          if N.eqb c quote
          then match buf with
               | [] => phraseMatches r (Some [])
               | _ => rev buf :: phraseMatches r None
               end
          else phraseMatches r (Some (c :: buf))
      end
  end.

(** The removal of step 1: every match of the global pattern quote, any
    non-quote characters, quote is replaced by the empty string.  [inside]
    holds an opening quote and what follows it, reversed, until the
    closing quote is seen. *)
Fixpoint removePhrases (s : jsstring) (inside : option jsstring) : jsstring :=
  match s with
  | [] => match inside with None => [] | Some buf => rev buf end
  | c :: r =>
      match inside with
      | None => if N.eqb c quote then removePhrases r (Some [c]) else c :: removePhrases r None
      | Some buf =>
          if N.eqb c quote then removePhrases r None
          else removePhrases r (Some (c :: buf))
      end
  end.

(** The lazy body [((?:\\\/|[^\/])+?)\/] of the regex pattern, after at
    least one item was read ([acc], reversed): close at the first slash,
    else read one more item, the escaped slash first and on failure the
    backslash alone.  Returns the pattern and the text after the closing
    slash. *)
Fixpoint regexBody (s : jsstring) (acc : jsstring) : option (jsstring * jsstring) :=
  match s with
  | [] => None
  | c :: r =>
      if N.eqb c slash then Some (rev acc, r)
      else match r with
           | d :: r' =>
               if N.eqb c backslash && N.eqb d slash
               then match regexBody r' (d :: c :: acc) with
                    | Some m => Some m
                    | None => Some (rev (c :: acc), r')
                    end
               else regexBody r (c :: acc)
           | [] => None
           end
  end.

(** The first item of the body, which the pattern requires, and the items
    after it. *)
Definition regexStart (r : jsstring) : option (jsstring * jsstring) :=
  match r with
  | d :: r' =>
      if N.eqb d slash then None
      else match r' with
           | e :: r'' =>
               if N.eqb d backslash && N.eqb e slash
               then match regexBody r'' [e; d] with
                    | Some m => Some m
                    | None => Some ([d], r'')
                    end
               else regexBody r' [d]
           | [] => None
           end
  | [] => None
  end.

(** The group [(i?)] after the closing slash: the flags and the text
    after them. *)
Definition regexFlagsAt (rest : jsstring) : jsstring * jsstring :=
  match rest with
  | f :: rest' => if N.eqb f letter_i then ([letter_i], rest') else ([], rest)
  | [] => ([], [])
  end.

(** A match of [/\/((?:\\\/|[^\/])+?)\/(i?)/] starting at the head of [s]:
    pattern, flags and the text after the match. *)
Definition regexAt (s : jsstring) : option (jsstring * jsstring * jsstring) :=
  match s with
  | c :: r =>
      if N.eqb c slash then
        match regexStart r with
        | Some (pattern, rest) =>
            Some (pattern, fst (regexFlagsAt rest), snd (regexFlagsAt rest))
        | None => None
        end
      else None
  | [] => None
  end.

(** [remaining.match(/\/((?:\\\/|[^\/])+?)\/(i?)/)]: the leftmost match,
    as (index, pattern, flags, text after the match). *)
Fixpoint regexMatch (s : jsstring) (i : nat) : option (nat * jsstring * jsstring * jsstring) :=
  match regexAt s with
  | Some (p, f, rest) => Some (i, p, f, rest)
  | None => match s with
            | [] => None
            | _ :: r => regexMatch r (S i)
            end
  end.

(** The state of the token loop of step 3. *)
Record LoopState := {
  ls_terms : list jsstring;
  ls_excludes : list jsstring;
  ls_orGroups : list (list jsstring);
  ls_currentOrGroup : list jsstring;
  ls_inOrGroup : bool;
  ls_fieldPrefix : option FieldPrefix;
  ls_filters : QueryFilters
}.

Definition initialLoopState : LoopState :=
  {| ls_terms := []; ls_excludes := []; ls_orGroups := [];
     ls_currentOrGroup := []; ls_inOrGroup := false;
     ls_fieldPrefix := None; ls_filters := noFilters |}.

(** [filters.x = filters.x || []; filters.x.push(v)] *)
Definition pushFilter (o : option (list jsstring)) (v : jsstring) : option (list jsstring) :=
  match o with
  | None => Some [v]
  | Some l => Some (l ++ [v])
  end.

Definition isNonEmpty (s : jsstring) : bool :=
  match s with [] => false | _ => true end.

Section WithHost.
Context {U : Unicode} {RX : RegExpEngine}.

(** [token.toUpperCase() === 'OR'] *)
Definition isOR (token : jsstring) : bool := jseqb (toUpperCase token) (js "OR").

Definition nextIsOR (rest : list jsstring) : bool :=
  match rest with
  | n :: _ => isOR n
  | [] => false
  end.

(** One iteration of the token loop, on [token] with the tokens after it. *)
Definition stepToken (st : LoopState) (token : jsstring) (rest : list jsstring) : LoopState :=
  let fs := ls_filters st in
  if isOR token then
    if negb (ls_inOrGroup st) && (0 <? length (ls_terms st)) then
      {| ls_terms := removelast (ls_terms st);
         ls_excludes := ls_excludes st;
         ls_orGroups := ls_orGroups st;
         ls_currentOrGroup := [last (ls_terms st) []];
         ls_inOrGroup := true;
         ls_fieldPrefix := ls_fieldPrefix st;
         ls_filters := fs |}
    else st
  else if startsWith token (js "-") && (1 <? length token) then
    {| ls_terms := ls_terms st;
       ls_excludes := ls_excludes st ++ [skipn 1 token];
       ls_orGroups := ls_orGroups st;
       ls_currentOrGroup := ls_currentOrGroup st;
       ls_inOrGroup := ls_inOrGroup st;
       ls_fieldPrefix := ls_fieldPrefix st;
       ls_filters := fs |}
  else if jseqb token (js "#") || jseqb token (js "@") then
    {| ls_terms := ls_terms st;
       ls_excludes := ls_excludes st;
       ls_orGroups := ls_orGroups st;
       ls_currentOrGroup := ls_currentOrGroup st;
       ls_inOrGroup := ls_inOrGroup st;
       ls_fieldPrefix :=
         Some (if jseqb token (js "#") then headings_prefix else symbols_prefix);
       ls_filters := fs |}
  else
    let withFilters (fs' : QueryFilters) :=
      {| ls_terms := ls_terms st;
         ls_excludes := ls_excludes st;
         ls_orGroups := ls_orGroups st;
         ls_currentOrGroup := ls_currentOrGroup st;
         ls_inOrGroup := ls_inOrGroup st;
         ls_fieldPrefix := ls_fieldPrefix st;
         ls_filters := fs' |} in
    if startsWith token (js "tag:") then
      if isNonEmpty (skipn 4 token)
      then withFilters {| f_tag := pushFilter (f_tag fs) (skipn 4 token);
                          f_path := f_path fs; f_in := f_in fs; f_field := f_field fs |}
      else st
    else if startsWith token (js "#") && (1 <? length token) then
      withFilters {| f_tag := pushFilter (f_tag fs) (skipn 1 token);
                     f_path := f_path fs; f_in := f_in fs; f_field := f_field fs |}
    else if startsWith token (js "path:") then
      if isNonEmpty (skipn 5 token)
      then withFilters {| f_tag := f_tag fs;
                          f_path := pushFilter (f_path fs) (skipn 5 token);
                          f_in := f_in fs; f_field := f_field fs |}
      else st
    else if startsWith token (js "in:") then
      if isNonEmpty (skipn 3 token)
      then withFilters {| f_tag := f_tag fs; f_path := f_path fs;
                          f_in := pushFilter (f_in fs) (skipn 3 token);
                          f_field := f_field fs |}
      else st
    else
      (* regular term *)
      let '(terms1, group1, in1) :=
        if ls_inOrGroup st
        then (ls_terms st, ls_currentOrGroup st ++ [token], true)
        else if nextIsOR rest
             then (ls_terms st, [token], true)
             else (ls_terms st ++ [token], ls_currentOrGroup st, false) in
      (* end of the group when the next token is not OR *)
      let '(terms2, groups2, group2, in2) :=
        if in1 && negb (nextIsOR rest)
        then if 2 <=? length group1
             then (terms1, ls_orGroups st ++ [group1], [], false)
             else match group1 with
                  | [t] => (terms1 ++ [t], ls_orGroups st, [], false)
                  | _ => (terms1, ls_orGroups st, [], false)
                  end
        else (terms1, ls_orGroups st, group1, in1) in
      {| ls_terms := terms2;
         ls_excludes := ls_excludes st;
         ls_orGroups := groups2;
         ls_currentOrGroup := group2;
         ls_inOrGroup := in2;
         ls_fieldPrefix := ls_fieldPrefix st;
         ls_filters := fs |}.

Fixpoint tokenLoop (st : LoopState) (tokens : list jsstring) : LoopState :=
  match tokens with
  | [] => st
  | token :: rest => tokenLoop (stepToken st token rest) rest
  end.

(** What is left after the loop: a group still open is closed. *)
Definition closeOrGroup (st : LoopState) : list jsstring * list (list jsstring) :=
  if ls_inOrGroup st && (2 <=? length (ls_currentOrGroup st))
  then (ls_terms st, ls_orGroups st ++ [ls_currentOrGroup st])
  else match ls_inOrGroup st, ls_currentOrGroup st with
       | true, [t] => (ls_terms st ++ [t], ls_orGroups st)
       | _, _ => (ls_terms st, ls_orGroups st)
       end.

Definition isCommandsQuery (input : jsstring) (settings : QueryParserSettings) : bool :=
  if negb (enableCommandsPrefix (commandsSettings settings)) then false
  else startsWith input (commandsPrefixChar (commandsSettings settings)).

Definition parseQueryWithErrors (input : jsstring) (settings : QueryParserSettings)
  : ParseResult :=
  let trimmed := trim input in
  if isCommandsQuery trimmed settings then
    let commandQuery :=
      trim (skipn (length (commandsPrefixChar (commandsSettings settings))) trimmed) in
    {| pr_query :=
         {| raw := input; mode := commands;
            terms := if isNonEmpty commandQuery then [commandQuery] else [];
            phrases := []; excludes := []; orGroups := [];
            filters := noFilters; regex := None |};
       pr_errors := [] |}
  else
    (* step 1: quoted phrases *)
    let phrases := phraseMatches trimmed None in
    let remaining := trim (removePhrases trimmed None) in
    (* step 2: the regex pattern *)
    let '(regexSpec, errors, remaining) :=
      match regexMatch remaining 0 with
      | Some (i, pattern, flags, rest) =>
          let fullMatch := [slash] ++ pattern ++ [slash] ++ flags in
          let removed := trim (firstn i remaining ++ rest) in
          match RegExp_new pattern flags with
          | Some _ =>
              (Some {| rx_source := pattern; rx_flags := flags |}, [], removed)
          | None =>
              (None,
               [{| err_type := regex_error;
                   err_position := indexOf remaining fullMatch |}],
               removed)
          end
      | None => (None, [], remaining)
      end in
    (* step 3: tokens *)
    let tokens := splitWhitespace remaining in
    let st := tokenLoop initialLoopState tokens in
    let '(terms, orGroups) := closeOrGroup st in
    let fs := ls_filters st in
    {| pr_query :=
         {| raw := input; mode := files;
            terms := terms; phrases := phrases;
            excludes := ls_excludes st; orGroups := orGroups;
            filters :=
              match ls_fieldPrefix st with
              | Some p => {| f_tag := f_tag fs; f_path := f_path fs;
                             f_in := f_in fs; f_field := Some p |}
              | None => fs
              end;
            regex := regexSpec |};
       pr_errors := errors |}.

Definition parseQuery (input : jsstring) (settings : QueryParserSettings) : ParsedQuery :=
  pr_query (parseQueryWithErrors input settings).

End WithHost.
End QueryParser.

(** ** min-heap.ts *)

Module MinHeap.
Section Heap.
Variable T : Type.

(** [compare a b] is the sign of the number the comparison function
    returns. *)
Variable compare : T -> T -> comparison.

Record t := { items : list T; maxSize : nat }.

Definition create (maxSize : nat) : t := {| items := []; maxSize := maxSize |}.

Definition size (h : t) : nat := length (items h).

Definition isEmpty (h : t) : bool :=
  match items h with [] => true | _ => false end.

Definition peek (h : t) : option T := nth_error (items h) 0.

(** [items[i] = x] for an index inside the array. *)
Fixpoint setItem (l : list T) (i : nat) (x : T) : list T :=
  match l, i with
  | [], _ => []
  | _ :: r, 0 => x :: r
  | y :: r, S i' => y :: setItem r i' x
  end.

Definition swap (l : list T) (i j : nat) : list T :=
  match nth_error l i, nth_error l j with
  | Some a, Some b => setItem (setItem l i b) j a
  | _, _ => l
  end.

(** [compare(a, b) < 0] *)
Definition isLess (l : list T) (i j : nat) : bool :=
  match nth_error l i, nth_error l j with
  | Some a, Some b => match compare a b with Lt => true | _ => false end
  | _, _ => false
  end.

(** The loop of [heapifyUp]; every round moves [index] to its parent, so
    [index] rounds are enough. *)
Fixpoint heapifyUp_loop (fuel : nat) (l : list T) (index : nat) : list T :=
  match fuel with
  | 0 => l
  | S fuel' =>
      if 0 <? index then
        let parentIndex := (index - 1) / 2 in
        if isLess l index parentIndex
        then heapifyUp_loop fuel' (swap l index parentIndex) parentIndex
        else l
      else l
  end.

Definition heapifyUp (l : list T) (index : nat) : list T :=
  heapifyUp_loop (S index) l index.

(** The loop of [heapifyDown]; every round moves [index] to a child, so
    the length of the array bounds the number of rounds. *)
Fixpoint heapifyDown_loop (fuel : nat) (l : list T) (index : nat) : list T :=
  match fuel with
  | 0 => l
  | S fuel' =>
      let leftChild := 2 * index + 1 in
      let rightChild := 2 * index + 2 in
      let minIndex1 :=
        if (leftChild <? length l) && isLess l leftChild index
        then leftChild else index in
      let minIndex :=
        if (rightChild <? length l) && isLess l rightChild minIndex1
        then rightChild else minIndex1 in
      if minIndex =? index then l
      else heapifyDown_loop fuel' (swap l index minIndex) minIndex
  end.

Definition heapifyDown (l : list T) (index : nat) : list T :=
  heapifyDown_loop (S (length l)) l index.

(** [push]: the heap after the call and the boolean it returns. *)
Definition push (h : t) (item : T) : t * bool :=
  if (0 <? maxSize h) && (maxSize h <=? length (items h)) then
    match items h with
    | top :: _ =>
        match compare item top with
        | Gt =>
            ({| items := heapifyDown (setItem (items h) 0 item) 0;
                maxSize := maxSize h |}, true)
        | _ => (h, false)
        end
    | [] => (h, false)
    end
  else
    ({| items := heapifyUp (items h ++ [item]) (length (items h));
        maxSize := maxSize h |}, true).

(** [pop]: the heap after the call and the minimum, if any. *)
Definition pop (h : t) : t * option T :=
  match items h with
  | [] => (h, None)
  | [x] => ({| items := []; maxSize := maxSize h |}, Some x)
  | min :: _ =>
      let lastItem := last (items h) min in
      let l := setItem (removelast (items h)) 0 lastItem in
      ({| items := heapifyDown l 0; maxSize := maxSize h |}, Some min)
  end.

Fixpoint extractAll_loop (fuel : nat) (h : t) : list T :=
  match fuel with
  | 0 => []
  | S fuel' =>
      match pop h with
      | (h', Some x) => x :: extractAll_loop fuel' h'
      | (_, None) => []
      end
  end.

(** [extractAll]: the items, smallest first; one [pop] per item. *)
Definition extractAll (h : t) : list T := extractAll_loop (length (items h)) h.

Definition toArray (h : t) : list T := items h.

End Heap.
End MinHeap.

(** ** scorer.ts *)

Module Scorer.
Section WithHost.
Context {U : Unicode} {NUM : JSNumber} {CLK : Clock}.

Record FieldWeights := {
  w_title : num;
  w_headings : num;
  w_path : num;
  w_tags : num;
  w_symbols : num;
  w_body : num;
  w_recency : num
}.

Record ScorerConfig := {
  weights : FieldWeights;
  diacritics : bool;
  recencyHalfLife : num
}.

Record ScoredDoc := {
  sd_doc : Doc;
  sd_score : num;
  sd_matchSpans : list MatchSpan
}.

(** [s[i]]; the default is never read, the indices are inside the string. *)
Definition charAt (s : jsstring) (i : nat) : codeunit := nth i s 0%N.

Definition cell (matrix : list (list nat)) (i j : nat) : nat :=
  nth j (nth i matrix []) 0.

(** Row [i] of the distance matrix, from the rows above it. *)
Definition fillRow (s1 s2 : jsstring) (matrix : list (list nat)) (i : nat) : list nat :=
  fold_left
    (fun (row : list nat) (j : nat) =>
       let cost := if N.eqb (charAt s1 (i - 1)) (charAt s2 (j - 1)) then 0 else 1 in
       let v :=
         Nat.min (cell matrix (i - 1) j + 1)
           (Nat.min (nth (j - 1) row 0 + 1) (cell matrix (i - 1) (j - 1) + cost)) in
       let v' :=
         if (1 <? i) && (1 <? j)
            && N.eqb (charAt s1 (i - 1)) (charAt s2 (j - 2))
            && N.eqb (charAt s1 (i - 2)) (charAt s2 (j - 1))
         then Nat.min v (cell matrix (i - 2) (j - 2) + cost)
         else v in
       row ++ [v'])
    (seq 1 (length s2)) [i].

Definition absDiff (a b : nat) : nat := (a - b) + (b - a).

Definition damerauLevenshtein (s1 s2 : jsstring) (maxDistance : nat) : nat :=
  let len1 := length s1 in
  let len2 := length s2 in
  if maxDistance <? absDiff len1 len2 then maxDistance + 1
  else
    let matrix :=
      fold_left (fun m i => m ++ [fillRow s1 s2 m i])
        (seq 1 len1) [seq 0 (len2 + 1)] in
    Nat.min (cell matrix len1 len2) (maxDistance + 1).

Definition scoreToken (query token : jsstring) : num :=
  if startsWith token query then of_Z 1
  else
    let distance := damerauLevenshtein query token 2 in
    if 2 <? distance then of_Z 0
    else
      let maxLength := Nat.max (length query) (length token) in
      Math_max (of_Z 0) (of_Z 1 - of_nat distance / of_nat maxLength)%num.

Inductive FieldValue :=
| Str (s : jsstring)
| Arr (l : list jsstring).

Definition fieldText (v : FieldValue) : jsstring :=
  match v with
  | Str s => s
  | Arr l => join space l
  end.

(** The best token for one term: the score and the span of the best match
    so far. *)
Definition bestToken (normalizedField normalizedTerm : jsstring)
    (fieldTokens : list jsstring) : num * option (nat * nat) :=
  fold_left
    (fun (best : num * option (nat * nat)) (token : jsstring) =>
       let tokenScore := scoreToken normalizedTerm token in
       if nltb (fst best) tokenScore then
         (tokenScore,
          match indexOf normalizedField token with
          | Some tokenIndex => Some (tokenIndex, tokenIndex + length token)
          | None => snd best
          end)
       else best)
    fieldTokens (of_Z 0, None).

(** [scoreField]: the score and the spans (start, end); the field of the
    spans is set by [scoreDoc]. *)
Definition scoreField (fieldValue : FieldValue) (terms : list jsstring)
    (config : ScorerConfig) : num * list (nat * nat) :=
  match terms with
  | [] => (of_Z 0, [])
  | _ =>
      let textValue := fieldText fieldValue in
      let normalizedField := Normalize.normalizeText textValue (diacritics config) in
      let fieldTokens := Normalize.tokenizeWords normalizedField (diacritics config) in
      match fieldTokens with
      | [] => (of_Z 0, [])
      | _ =>
          let perTerm :=
            map (fun term =>
                   bestToken normalizedField
                     (Normalize.normalizeText term (diacritics config)) fieldTokens)
                terms in
          let termScores := map fst perTerm in
          let spans :=
            flat_map (fun r => match snd r with Some sp => [sp] | None => [] end)
              perTerm in
          let avgScore :=
            (fold_left nadd termScores (of_Z 0) / of_nat (length termScores))%num in
          (avgScore, spans)
      end
  end.

(** The number of matches of the escaped phrase as a global pattern: the
    occurrences from left to right without overlap; the empty phrase
    matches at every index. *)
Fixpoint countMatches_go (s p : jsstring) (skip : nat) : nat :=
  match s with
  | [] => 0
  | _ :: r =>
      match skip with
      | S k => countMatches_go r p k
      | 0 =>
          if startsWith s p then S (countMatches_go r p (length p - 1))
          else countMatches_go r p 0
      end
  end.

Definition countMatches (s p : jsstring) : nat :=
  match p with
  | [] => S (length s)
  | _ => countMatches_go s p 0
  end.

Definition scorePhrases (doc : Doc) (phrases : list jsstring)
    (config : ScorerConfig) : num :=
  let titleText := Normalize.normalizeText (title doc) (diacritics config) in
  let bodyText := Normalize.normalizeText (body doc) (diacritics config) in
  fold_left
    (fun (bonusScore : num) (phrase : jsstring) =>
       let normalizedPhrase := Normalize.normalizeText phrase (diacritics config) in
       let titleMatches := countMatches titleText normalizedPhrase in
       let bodyMatches := countMatches bodyText normalizedPhrase in
       (bonusScore + of_nat (titleMatches + bodyMatches) * (of_Z 1 / of_Z 4))%num)
    phrases (of_Z 0).

Definition msPerDay : Z := 1000 * 60 * 60 * 24.

Definition computeRecencyBonus (mtime : Z) (halfLifeDays : num) : num :=
  let now := Date_now in
  let ageDays := ((of_Z now - of_Z mtime) / of_Z msPerDay)%num in
  let bonus :=
    ((of_Z 1 / of_Z 2) * Math_exp (nneg ageDays * Math_LN2 / halfLifeDays))%num in
  Math_min (Math_max bonus (of_Z 0)) (of_Z 1 / of_Z 2)%num.

Definition isExcluded (doc : Doc) (excludes : list jsstring)
    (config : ScorerConfig) : bool :=
  match excludes with
  | [] => false
  | _ =>
      let searchableText :=
        join space
          [title doc; join space (path doc); join space (tags doc);
           join space (headings doc); join space (symbols doc); body doc] in
      let normalizedText := Normalize.normalizeText searchableText (diacritics config) in
      existsb
        (fun exclude =>
           includes normalizedText
             (Normalize.normalizeText exclude (diacritics config)))
        excludes
  end.

Definition spansOf (field : SearchableField) (spans : list (nat * nat)) : list MatchSpan :=
  map (fun sp => {| span_field := field; span_start := fst sp; span_end := snd sp |})
    spans.

Definition scoreDoc (doc : Doc) (query : ParsedQuery) (config : ScorerConfig)
  : option ScoredDoc :=
  if isExcluded doc (excludes query) config then None
  else
    let r_title := scoreField (Str (title doc)) (terms query) config in
    let r_headings := scoreField (Arr (headings doc)) (terms query) config in
    let r_path := scoreField (Arr (path doc)) (terms query) config in
    let r_tags := scoreField (Arr (tags doc)) (terms query) config in
    let r_symbols := scoreField (Arr (symbols doc)) (terms query) config in
    let r_body := scoreField (Str (body doc)) (terms query) config in
    let w := weights config in
    let fieldScore :=
      (of_Z 0 + w_title w * fst r_title + w_headings w * fst r_headings
       + w_path w * fst r_path + w_tags w * fst r_tags
       + w_symbols w * fst r_symbols + w_body w * fst r_body)%num in
    let allMatchSpans :=
      spansOf f_title (snd r_title) ++ spansOf f_headings (snd r_headings)
      ++ spansOf f_path_ (snd r_path) ++ spansOf f_tags (snd r_tags)
      ++ spansOf f_symbols (snd r_symbols) ++ spansOf f_body (snd r_body) in
    let phraseBonus := scorePhrases doc (phrases query) config in
    let recencyBonus := computeRecencyBonus (mtime doc) (recencyHalfLife config) in
    Some {| sd_doc := doc;
            sd_score := (fieldScore + phraseBonus + w_recency w * recencyBonus)%num;
            sd_matchSpans := allMatchSpans |}.

Definition createScorer (config : ScorerConfig) : Doc -> ParsedQuery -> option ScoredDoc :=
  fun doc query => scoreDoc doc query config.

End WithHost.
End Scorer.

(** ** built-in-provider.ts *)

Module Provider.

(** A JavaScript [Map] with string keys: the entries in insertion order. *)
Section JSMap.
Variable V : Type.

Definition JSMap := list (jsstring * V).

Fixpoint map_get (m : JSMap) (k : jsstring) : option V :=
  match m with
  | [] => None
  | (k', v) :: r => if jseqb k' k then Some v else map_get r k
  end.

Definition map_has (m : JSMap) (k : jsstring) : bool :=
  match map_get m k with Some _ => true | None => false end.

(** [m.set(k, v)]: a present key keeps its place, a new key goes last. *)
Fixpoint map_set (m : JSMap) (k : jsstring) (v : V) : JSMap :=
  match m with
  | [] => [(k, v)]
  | (k', v') :: r =>
      if jseqb k' k then (k', v) :: r else (k', v') :: map_set r k v
  end.

Definition map_delete (m : JSMap) (k : jsstring) : JSMap :=
  filter (fun e => negb (jseqb (fst e) k)) m.

Definition map_keys (m : JSMap) : list jsstring := map fst m.

End JSMap.

(** A JavaScript [Set] of strings: the elements in insertion order. *)
Definition set_has (s : list jsstring) (x : jsstring) : bool :=
  existsb (jseqb x) s.
Definition set_add (s : list jsstring) (x : jsstring) : list jsstring :=
  if set_has s x then s else s ++ [x].
Definition set_delete (s : list jsstring) (x : jsstring) : list jsstring :=
  filter (fun y => negb (jseqb y x)) s.

Record PostingEntry := {
  pe_docId : jsstring;
  pe_field : SearchableField;
  pe_tf : nat;
  pe_positions : list nat
}.

Definition PostingList := list PostingEntry.

Record DocMetadata := {
  dm_doc : Doc;
  dm_fieldLengths : list (SearchableField * nat)
}.

Inductive Outcome :=
| Done
| MaximumDocumentLimitReached.

Section WithHost.
Context {U : Unicode} {NUM : JSNumber} {CLK : Clock} {RX : RegExpEngine}.

Record SearchResult := {
  sr_id : jsstring;
  sr_score : num;
  sr_matchSpans : list MatchSpan
}.

Record Options := {
  maxDocs : Z;
  maxBodyLength : Z;
  regexCandidateK : nat;
  scorerConfig : Scorer.ScorerConfig
}.

Record t := {
  options : Options;
  index : JSMap PostingList;
  docs : JSMap DocMetadata;
  df : JSMap nat;
  totalDocs : Z
}.

Definition create (o : Options) : t :=
  {| options := o; index := []; docs := []; df := []; totalDocs := 0 |}.

Definition clear (p : t) : t :=
  {| options := options p; index := []; docs := []; df := []; totalDocs := 0 |}.

(** One round of the loop of [remove] over the snapshot of the index. *)
Definition removeFromTerm (id : jsstring)
    (st : JSMap PostingList * JSMap nat) (e : jsstring * PostingList)
  : JSMap PostingList * JSMap nat :=
  let '(term, postingList) := e in
  let filteredList := filter (fun entry => negb (jseqb (pe_docId entry) id)) postingList in
  if negb (length filteredList =? length postingList) then
    match filteredList with
    | [] => (map_delete (fst st) term, map_delete (snd st) term)
    | _ => (map_set (fst st) term filteredList,
            map_set (snd st) term (length filteredList))
    end
  else st.

Definition remove (p : t) (id : jsstring) : t :=
  match map_get (docs p) id with
  | None => p
  | Some _ =>
      let docs' := map_delete (docs p) id in
      let '(index', df') := fold_left (removeFromTerm id) (index p) (index p, df p) in
      {| options := options p; index := index'; docs := docs'; df := df';
         totalDocs := totalDocs p - 1 |}
  end.

(** [doc.body.length > maxBodyLength ? doc.body.substring(0, maxBodyLength) : doc.body] *)
Definition truncateBody (maxBodyLength : Z) (b : jsstring) : jsstring :=
  if (maxBodyLength <? Z.of_nat (length b))%Z
  then firstn (Z.to_nat maxBodyLength) b
  else b.

Definition processDoc (o : Options) (doc : Doc) : Doc :=
  {| id := id doc; title := title doc; path := path doc; tags := tags doc;
     headings := headings doc; symbols := symbols doc;
     body := truncateBody (maxBodyLength o) (body doc);
     mtime := mtime doc; size := size doc |}.

(** The text of every searchable field, in the order [upsert] goes
    through them. *)
Definition fieldContents (processedDoc : Doc) : list (SearchableField * jsstring) :=
  [ (f_title, title processedDoc);
    (f_path_, join space (path processedDoc));
    (f_headings, join space (headings processedDoc));
    (f_tags, join space (tags processedDoc));
    (f_symbols, join space (symbols processedDoc));
    (f_body, body processedDoc) ].

(** The positions of every distinct token, in order of first occurrence. *)
Definition tokenPositions (diacritics : bool) (tokens : list jsstring) : JSMap (list nat) :=
  fst (fold_left
         (fun (st : JSMap (list nat) * nat) (token : jsstring) =>
            let normalized := Normalize.normalizeText token diacritics in
            let positions := fst st in
            let old := match map_get positions normalized with
                       | Some l => l
                       | None => []
                       end in
            (map_set positions normalized (old ++ [snd st]), S (snd st)))
         tokens ([], 0)).

(** One posting entry added to the index, the document frequency of its
    term incremented. *)
Definition addPosting (docId : jsstring) (field : SearchableField)
    (st : JSMap PostingList * JSMap nat) (e : jsstring * list nat)
  : JSMap PostingList * JSMap nat :=
  let '(term, termPositions) := e in
  let entry := {| pe_docId := docId; pe_field := field;
                  pe_tf := length termPositions; pe_positions := termPositions |} in
  let '(index1, df1, postingList) :=
    match map_get (fst st) term with
    | Some l => (fst st, snd st, l)
    | None => (map_set (fst st) term [], map_set (snd st) term 0, [])
    end in
  let index2 := map_set index1 term (postingList ++ [entry]) in
  let count := match map_get df1 term with Some n => n | None => 0 end in
  (index2, map_set df1 term (count + 1)).

Definition upsert (p : t) (doc : Doc) : t * Outcome :=
  let p := if map_has (docs p) (id doc) then remove p (id doc) else p in
  if (maxDocs (options p) <=? totalDocs p)%Z then (p, MaximumDocumentLimitReached)
  else
    let diacritics := Scorer.diacritics (scorerConfig (options p)) in
    let processedDoc := processDoc (options p) doc in
    let fields := fieldContents processedDoc in
    let fieldTokens :=
      map (fun fc => (fst fc, Normalize.tokenizeWords (snd fc) diacritics)) fields in
    let fieldLengths := map (fun ft => (fst ft, length (snd ft))) fieldTokens in
    let docs' :=
      map_set (docs p) (id doc)
        {| dm_doc := processedDoc; dm_fieldLengths := fieldLengths |} in
    let '(index', df') :=
      fold_left
        (fun st ft =>
           fold_left (addPosting (id doc) (fst ft)) (tokenPositions diacritics (snd ft)) st)
        fieldTokens (index p, df p) in
    ({| options := options p; index := index'; docs := docs'; df := df';
        totalDocs := totalDocs p + 1 |}, Done).

(** [indexAll]: the first [upsert] that throws ends the call. *)
Fixpoint upsertAll (p : t) (l : list Doc) : t * Outcome :=
  match l with
  | [] => (p, Done)
  | d :: r =>
      match upsert p d with
      | (p', Done) => upsertAll p' r
      | (p', e) => (p', e)
      end
  end.

Definition indexAll (p : t) (l : list Doc) : t * Outcome := upsertAll (clear p) l.

Definition isEmpty (q : ParsedQuery) : bool :=
  (length (terms q) =? 0) && (length (phrases q) =? 0)
  && (length (orGroups q) =? 0)
  && match regex q with Some _ => false | None => true end.

(** [results.sort((a, b) => b.score - a.score)]: stable, highest score
    first. *)
Fixpoint insertByScore (x : SearchResult) (l : list SearchResult) : list SearchResult :=
  match l with
  | [] => [x]
  | y :: r =>
      if nltb (sr_score x) (sr_score y) then y :: insertByScore x r
      else x :: y :: r
  end.

Definition sortByScoreDesc (l : list SearchResult) : list SearchResult :=
  fold_right insertByScore [] l.

Fixpoint renumber (n : nat) (l : list SearchResult) (index : nat) : list SearchResult :=
  match l with
  | [] => []
  | r :: rest =>
      {| sr_id := sr_id r; sr_score := of_nat (n - index);
         sr_matchSpans := sr_matchSpans r |} :: renumber n rest (S index)
  end.

Definition getRecentDocuments (p : t) (limit : nat) : list SearchResult :=
  let results :=
    map (fun e => {| sr_id := fst e; sr_score := of_Z (mtime (dm_doc (snd e)));
                     sr_matchSpans := [] |})
        (docs p) in
  let sorted := sortByScoreDesc results in
  firstn limit (renumber (length sorted) sorted 0).

Definition normalizeTerm (p : t) (term : jsstring) : jsstring :=
  Normalize.normalizeText term (Scorer.diacritics (scorerConfig (options p))).

(** The ids of the posting list of a term added to a set. *)
Definition addPostingIds (s : list jsstring) (l : PostingList) : list jsstring :=
  fold_left (fun s entry => set_add s (pe_docId entry)) l s.

(** The first set, cut down to what every later set has too. *)
Definition intersectAll (sets : list (list jsstring)) : list jsstring :=
  match sets with
  | [] => []
  | first :: others =>
      fold_left
        (fun candidates other =>
           fold_left
             (fun c docId => if negb (set_has other docId) then set_delete c docId else c)
             candidates candidates)
        others (fold_left set_add first [])
  end.

Definition hasEntries (o : option (list jsstring)) : bool :=
  match o with Some (_ :: _) => true | _ => false end.

(** The candidates the terms or the or-groups give, before the phrase and
    filter fallbacks. *)
Definition termCandidates (p : t) (q : ParsedQuery) : list jsstring :=
  if 0 <? length (orGroups q) then
    let groupCandidates :=
      flat_map
        (fun orGroup =>
           let groupSet :=
             fold_left
               (fun s term =>
                  match map_get (index p) (normalizeTerm p term) with
                  | Some postingList => addPostingIds s postingList
                  | None => s
                  end)
               orGroup [] in
           match groupSet with [] => [] | _ => [groupSet] end)
        (orGroups q) in
    intersectAll groupCandidates
  else
    let termSets :=
      flat_map
        (fun term =>
           match map_get (index p) (normalizeTerm p term) with
           | Some postingList => [addPostingIds [] postingList]
           | None => []
           end)
        (terms q) in
    intersectAll termSets.

Definition addAllDocs (p : t) (candidates : list jsstring) : list jsstring :=
  fold_left set_add (map_keys (docs p)) candidates.

Definition gatherCandidates (p : t) (q : ParsedQuery) : list jsstring :=
  let c0 := termCandidates p q in
  let c1 :=
    if (length c0 =? 0) && (0 <? length (phrases q)) then addAllDocs p c0 else c0 in
  if (length c1 =? 0)
     && (hasEntries (f_tag (filters q)) || hasEntries (f_path (filters q))
         || hasEntries (f_in (filters q)))
  then addAllDocs p c1 else c1.

(** [createSearchResultHeap]: lowest score on top. *)
Definition compareScore (a b : SearchResult) : comparison :=
  ncompare (sr_score a) (sr_score b).

Definition ResultHeap := MinHeap.t SearchResult.

(** A compiled pattern with the state [test] and [matchAll] go through. *)
Definition regexFlags (regexSpec : RegexSpec) : jsstring :=
  if includes (rx_flags regexSpec) (js "g") then rx_flags regexSpec
  else rx_flags regexSpec ++ js "g".

(** [regex.test(s)] for a global pattern: the result and the new
    [lastIndex]. *)
Definition regexTest (rx : RegExp) (s : jsstring) (lastIndex : nat) : bool * nat :=
  if length s <? lastIndex then (false, 0)
  else match rx s lastIndex with
       | Some (_, e) => (true, e)
       | None => (false, 0)
       end.

(** AdvanceStringIndex *)
Definition advanceStringIndex (s : jsstring) (i : nat) (unicode : bool) : nat :=
  if negb unicode then i + 1
  else if length s <=? i + 1 then i + 1
  else if isHighSurrogate (nth i s 0%N) && isLowSurrogate (nth (i + 1) s 0%N)
       then i + 2 else i + 1.

(** The non-empty matches [s.matchAll(regex)] gives, as (start, end).  The
    iteration starts at the [lastIndex] of the pattern it was made from; a
    match never ends before the index its search started at, so that
    [lastIndex] grows with every round. *)
Fixpoint matchAll_loop (fuel : nat) (rx : RegExp) (unicode : bool)
    (s : jsstring) (lastIndex : nat) : list (nat * nat) :=
  match fuel with
  | 0 => []
  | S fuel' =>
      if length s <? lastIndex then []
      else match rx s lastIndex with
           | None => []
           | Some (i, e) =>
               if e =? i
               then matchAll_loop fuel' rx unicode s (advanceStringIndex s e unicode)
               else (i, e) :: matchAll_loop fuel' rx unicode s e
           end
  end.

Definition matchAll (rx : RegExp) (unicode : bool) (s : jsstring) (lastIndex : nat)
  : list (nat * nat) :=
  matchAll_loop (length s + 2) rx unicode s lastIndex.

Definition findRegexMatches (doc : Doc) (rx : RegExp) (unicode : bool)
    (lastIndex : nat) : list MatchSpan :=
  Scorer.spansOf f_title (matchAll rx unicode (title doc) lastIndex)
  ++ Scorer.spansOf f_body (matchAll rx unicode (body doc) lastIndex).

(** The loop of [applyRegexFilter] over the top candidates; [lastIndex] is
    the state of the one compiled pattern. *)
Fixpoint regexFilter_loop (p : t) (rx : RegExp) (unicode : bool)
    (topK : list SearchResult) (lastIndex : nat) : list SearchResult :=
  match topK with
  | [] => []
  | result :: rest =>
      match map_get (docs p) (sr_id result) with
      | None => regexFilter_loop p rx unicode rest lastIndex
      | Some docMetadata =>
          let doc := dm_doc docMetadata in
          let '(inTitle, lastIndex1) := regexTest rx (title doc) lastIndex in
          let '(matched, lastIndex2) :=
            if inTitle then (true, lastIndex1)
            else regexTest rx (body doc) lastIndex1 in
          if matched then
            let regexMatches := findRegexMatches doc rx unicode lastIndex2 in
            {| sr_id := sr_id result; sr_score := sr_score result;
               sr_matchSpans := sr_matchSpans result ++ regexMatches |}
              :: regexFilter_loop p rx unicode rest lastIndex2
          else regexFilter_loop p rx unicode rest lastIndex2
      end
  end.

(** The array [filtered] of [applyRegexFilter]: the results kept, their
    spans extended in place; [None] when the pattern does not compile. *)
Definition regexFiltered (p : t) (results : list SearchResult)
    (regexSpec : RegexSpec) : option (list SearchResult) :=
  let flags := regexFlags regexSpec in
  match RegExp_new (rx_source regexSpec) flags with
  | Some rx =>
      let unicode := includes flags (js "u") || includes flags (js "v") in
      let topK := firstn (regexCandidateK (options p)) results in
      Some (regexFilter_loop p rx unicode topK 0)
  | None => None
  end.

Definition applyRegexFilter (p : t) (results : list SearchResult)
    (regexSpec : RegexSpec) (limit : nat) : list SearchResult :=
  match regexFiltered p results regexSpec with
  | Some filtered => firstn limit filtered
  | None => firstn limit results
  end.

(** The state of the scoring loop of [queryStream]. *)
Record StreamState := {
  ss_heap : ResultHeap;
  ss_yieldedIds : list jsstring;
  ss_processedCount : nat;
  ss_yielded : list SearchResult
}.

(** The results of an intermediate emission that were not yielded before,
    and the ids yielded so far. *)
Fixpoint emit (currentTop : list SearchResult) (yieldedIds : list jsstring)
  : list SearchResult * list jsstring :=
  match currentTop with
  | [] => ([], yieldedIds)
  | result :: rest =>
      if negb (set_has yieldedIds (sr_id result))
      then let '(out, ids) := emit rest (set_add yieldedIds (sr_id result)) in
           (result :: out, ids)
      else emit rest yieldedIds
  end.

(** One candidate scored. *)
Definition scoreCandidate (p : t) (q : ParsedQuery) (limit : nat)
    (st : StreamState) (docId : jsstring) : StreamState :=
  match map_get (docs p) docId with
  | None => st
  | Some docMetadata =>
      let heap1 :=
        match Scorer.createScorer (scorerConfig (options p)) (dm_doc docMetadata) q with
        | Some scored =>
            if nltb (of_Z 0) (Scorer.sd_score scored)
            then fst (MinHeap.push compareScore (ss_heap st)
                        {| sr_id := docId; sr_score := Scorer.sd_score scored;
                           sr_matchSpans := Scorer.sd_matchSpans scored |})
            else ss_heap st
        | None => ss_heap st
        end in
      let processedCount := S (ss_processedCount st) in
      if (processedCount mod 100 =? 0) && (0 <? MinHeap.size heap1) then
        let currentTop :=
          firstn (Nat.min 5 (limit / 2)) (sortByScoreDesc (MinHeap.toArray heap1)) in
        let '(out, ids) := emit currentTop (ss_yieldedIds st) in
        {| ss_heap := heap1; ss_yieldedIds := ids;
           ss_processedCount := processedCount;
           ss_yielded := ss_yielded st ++ out |}
      else
        {| ss_heap := heap1; ss_yieldedIds := ss_yieldedIds st;
           ss_processedCount := processedCount;
           ss_yielded := ss_yielded st |}
  end.

Definition scoringLoop (p : t) (q : ParsedQuery) (limit : nat) : StreamState :=
  fold_left (scoreCandidate p q limit) (gatherCandidates p q)
    {| ss_heap := MinHeap.create SearchResult limit; ss_yieldedIds := [];
       ss_processedCount := 0; ss_yielded := [] |}.

(** The top results once every candidate is scored, highest score first. *)
Definition finalResults (st : StreamState) : list SearchResult :=
  rev (MinHeap.extractAll compareScore (ss_heap st)).

Definition notYielded (st : StreamState) (l : list SearchResult) : list SearchResult :=
  filter (fun result => negb (set_has (ss_yieldedIds st) (sr_id result))) l.

(** [opts?.limit ?? 50] *)
Definition limitOf (opts : option nat) : nat :=
  match opts with Some l => l | None => 50 end.

(** [queryStream]: the results in the order they are yielded, each as it
    is when it is yielded. *)
Definition queryStream (p : t) (q : ParsedQuery) (opts : option nat)
  : list SearchResult :=
  let limit := limitOf opts in
  if isEmpty q then getRecentDocuments p limit
  else
    let st := scoringLoop p q limit in
    let filteredResults :=
      match regex q with
      | Some regexSpec => applyRegexFilter p (finalResults st) regexSpec limit
      | None => finalResults st
      end in
    ss_yielded st ++ notYielded st filteredResults.

(** A result yielded by an intermediate emission is the object the heap
    holds: when [applyRegexFilter] keeps it later, the spans it appends
    show in what the caller already received. *)
Definition refresh (mutated : list SearchResult) (result : SearchResult) : SearchResult :=
  match find (fun m => jseqb (sr_id m) (sr_id result)) mutated with
  | Some m => m
  | None => result
  end.

(** [query]: the stream is read until [limit] results are there; the loop
    looks at the count after each result, so that it takes one result at
    least. *)
Definition query (p : t) (q : ParsedQuery) (opts : option nat) : list SearchResult :=
  let limit := limitOf opts in
  if isEmpty q then getRecentDocuments p limit
  else
    let wanted := Nat.max 1 limit in
    let st := scoringLoop p q limit in
    if wanted <=? length (ss_yielded st) then firstn wanted (ss_yielded st)
    else
      match regex q with
      | Some regexSpec =>
          let final := finalResults st in
          let mutated :=
            match regexFiltered p final regexSpec with
            | Some filtered => filtered
            | None => []
            end in
          firstn wanted
            (map (refresh mutated) (ss_yielded st)
             ++ notYielded st (applyRegexFilter p final regexSpec limit))
      | None =>
          firstn wanted (ss_yielded st ++ notYielded st (finalResults st))
      end.

End WithHost.
End Provider.

(** ** Hosts *)

(** *** Unicode data for Basic Latin, Latin-1 Supplement and U+0130

    The examples below stay inside this range; code points outside of it
    are left as they are and count as neither letters nor numbers. *)

Module Latin1.

Definition inRange (lo hi c : N) : bool := ((lo <=? c) && (c <=? hi))%N.

(** U+0130, LATIN CAPITAL LETTER I WITH DOT ABOVE, is the one code point
    with an unconditional lowercase mapping of two code points (U+0069
    U+0307, SpecialCasing.txt). *)
Definition lowercaseMapping (before : list codepoint) (c : codepoint)
    (after : list codepoint) : list codepoint :=
  if inRange 65 90 c then [(c + 32)%N]
  else if inRange 192 222 c && negb (c =? 215)%N then [(c + 32)%N]
  else if (c =? 304)%N then [105%N; 775%N]
  else [c].

Definition upperUnit (c : codeunit) : jsstring :=
  if inRange 97 122 c then [(c - 32)%N]
  else if inRange 224 254 c && negb (c =? 247)%N then [(c - 32)%N]
  else if (c =? 223)%N then [83%N; 83%N]
  else if (c =? 255)%N then [376%N]
  else if (c =? 181)%N then [924%N]
  else [c].

Definition toUpperCase (s : jsstring) : jsstring := flat_map upperUnit s.

(** The base letter and the combining mark of the letters of the row
    U+00C0..U+00DF, by offset in the row; the row U+00E0..U+00FF is the
    same, in lower case, but for its last letter. *)
Definition decompositionTable : list (option (N * N)) :=
  [ Some (65, 768); Some (65, 769); Some (65, 770); Some (65, 771);
    Some (65, 776); Some (65, 778); None; Some (67, 807);
    Some (69, 768); Some (69, 769); Some (69, 770); Some (69, 776);
    Some (73, 768); Some (73, 769); Some (73, 770); Some (73, 776);
    None; Some (78, 771); Some (79, 768); Some (79, 769);
    Some (79, 770); Some (79, 771); Some (79, 776); None;
    None; Some (85, 768); Some (85, 769); Some (85, 770);
    Some (85, 776); Some (89, 769); None; None ]%N.

Definition decompose (c : codeunit) : jsstring :=
  if (c =? 255)%N then [121%N; 776%N]
  else if inRange 192 223 c then
    match nth (N.to_nat (c - 192)) decompositionTable None with
    | Some (base, mark) => [base; mark]
    | None => [c]
    end
  else if inRange 224 254 c then
    match nth (N.to_nat (c - 224)) decompositionTable None with
    | Some (base, mark) => [(base + 32)%N; mark]
    | None => [c]
    end
  else [c].

Definition normalizeNFD (s : jsstring) : jsstring := flat_map decompose s.

Definition isLetterOrNumber (c : codepoint) : bool :=
  inRange 48 57 c || inRange 65 90 c || inRange 97 122 c
  || (c =? 170)%N || (c =? 178)%N || (c =? 179)%N || (c =? 181)%N
  || (c =? 185)%N || (c =? 186)%N || inRange 188 190 c
  || inRange 192 214 c || inRange 216 246 c || inRange 248 255 c
  || (c =? 304)%N.

End Latin1.

#[export] Instance Latin1_Unicode : Unicode := {|
  lowercaseMapping := Latin1.lowercaseMapping;
  toUpperCase := Latin1.toUpperCase;
  normalizeNFD := Latin1.normalizeNFD;
  isLetterOrNumber := Latin1.isLetterOrNumber
|}.

(** *** Exact rational numbers

    Arithmetic is exact and results are kept in lowest terms.  The
    exponential is 2 to the power x / ln 2, exact at the integer powers and
    linear between two of them. *)

Module QNum.

Definition LN2 : Q := 6243314768165359 # 9007199254740992.

Definition pow2 (n : Z) : Q :=
  match n with
  | Z0 => 1
  | Zpos p => inject_Z (2 ^ Zpos p)
  | Zneg p => 1 / inject_Z (2 ^ Zpos p)
  end.

Definition exp (x : Q) : Q :=
  let t := Qred (x / LN2) in
  let n := Qfloor t in
  Qred (pow2 n * (1 + (t - inject_Z n))).

End QNum.

#[export] Instance Q_JSNumber : JSNumber := {|
  num := Q;
  of_Z := inject_Z;
  nadd := fun a b => Qred (a + b);
  nsub := fun a b => Qred (a - b);
  nmul := fun a b => Qred (a * b);
  ndiv := fun a b => Qred (a / b);
  ncompare := Qcompare;
  Math_exp := QNum.exp;
  Math_LN2 := QNum.LN2
|}.

(** *** Real numbers, with the exponential function itself

    Arithmetic is exact here, where the program rounds: absorption and
    underflow are not in it.  It serves for bounds that rounding keeps and
    for documents at the cap of the recency bonus, whose scores are
    equal in the program as well. *)

Definition Rcompare (a b : R) : comparison :=
  match total_order_T a b with
  | inleft (left _) => Lt
  | inleft (right _) => Eq
  | inright _ => Gt
  end.

Definition R_JSNumber : JSNumber := {|
  num := R;
  of_Z := IZR;
  nadd := Rplus;
  nsub := Rminus;
  nmul := Rmult;
  ndiv := Rdiv;
  ncompare := Rcompare;
  Math_exp := exp;
  Math_LN2 := ln 2
|}.

(** *** An engine for patterns without operators

    A source of letters, digits and spaces only is searched for as it is
    written ([i] folds the case of Basic Latin letters, [y] anchors the
    search at [lastIndex]); any other source is outside of this engine and
    is refused, as are flags the constructor does not know. *)

Module LiteralEngine.

Definition isPlain (c : codeunit) : bool :=
  Latin1.inRange 48 57 c || Latin1.inRange 65 90 c || Latin1.inRange 97 122 c
  || (c =? 32)%N.

Definition isFlag (c : codeunit) : bool :=
  existsb (N.eqb c) (js "dgimsuvy").

Fixpoint validFlags (flags : jsstring) : bool :=
  match flags with
  | [] => true
  | c :: r => isFlag c && negb (existsb (N.eqb c) r) && validFlags r
  end.

Definition fold (ignoreCase : bool) (c : codeunit) : codeunit :=
  if ignoreCase && Latin1.inRange 97 122 c then (c - 32)%N else c.

Definition search (source : jsstring) (ignoreCase sticky : bool) : RegExp :=
  fun s lastIndex =>
    let pattern := map (fold ignoreCase) source in
    let text := skipn lastIndex (map (fold ignoreCase) s) in
    if sticky
    then if startsWith text pattern
         then Some (lastIndex, lastIndex + length source) else None
    else match indexOf_from text pattern lastIndex with
         | Some i => Some (i, i + length source)
         | None => None
         end.

Definition RegExp_new (source flags : jsstring) : option RegExp :=
  if validFlags flags && forallb isPlain source
  then Some (search source (includes flags (js "i")) (includes flags (js "y")))
  else None.

End LiteralEngine.

#[export] Instance Literal_RegExpEngine : RegExpEngine := {|
  RegExp_new := LiteralEngine.RegExp_new
|}.

(** *** A clock: 2022-01-04T00:00:00Z *)

#[export] Instance Fixed_Clock : Clock := {| Date_now := 1641254400000 |}.

(** ** Notions the statements use *)

Module Spec.
Import Provider.

(** No two entries of a map have the same key. *)
Definition uniqueKeys (V : Type) (m : JSMap V) : Prop := NoDup (map fst m).

Section WithHost.
Context {U : Unicode} {NUM : JSNumber} {CLK : Clock} {RX : RegExpEngine}.

(** The operations that change a provider. *)
Inductive Op :=
| OpUpsert (d : Doc)
| OpRemove (i : jsstring)
| OpClear
| OpIndexAll (l : list Doc).

Definition apply (p : t) (o : Op) : t :=
  match o with
  | OpUpsert d => fst (upsert p d)
  | OpRemove i => remove p i
  | OpClear => clear p
  | OpIndexAll l => fst (indexAll p l)
  end.

(** The provider after a sequence of operations, whether they throw or
    not. *)
Definition run (p : t) (ops : list Op) : t := fold_left apply ops p.

(** The counter is the number of documents, every document is stored
    once, and the number stays within the configured maximum. *)
Definition countInvariant (p : t) : Prop :=
  totalDocs p = Z.of_nat (length (docs p))
  /\ uniqueKeys (docs p)
  /\ (totalDocs p <= maxDocs (options p))%Z.

(** The provider [upsert] works on once a document with the same id is
    gone. *)
Definition withoutOld (p : t) (d : Doc) : t :=
  if map_has (docs p) (id d) then remove p (id d) else p.

(** What holds of the scoring loop when [k] candidates went through it:
    the heap has the capacity [limit] and, when that is above zero, stays
    within it; no more than [k] candidates were counted; and before the
    hundredth candidate nothing was yielded. *)
Definition streamInvariant (limit k : nat) (st : StreamState) : Prop :=
  MinHeap.maxSize (ss_heap st) = limit
  /\ (0 < limit -> MinHeap.size (ss_heap st) <= limit)
  /\ ss_processedCount st <= k
  /\ (k < 100 -> ss_yielded st = [] /\ ss_yieldedIds st = []).

Definition ids (l : list SearchResult) : list jsstring := map sr_id l.

Definition scores (l : list SearchResult) : list num := map sr_score l.

(** Highest score first. *)
Fixpoint sortedDesc (l : list num) : bool :=
  match l with
  | [] => true
  | a :: r =>
      match r with
      | [] => true
      | b :: _ => nleb b a && sortedDesc r
      end
  end.

Definition sameIdSet (a b : list jsstring) : bool :=
  forallb (set_has b) a && forallb (set_has a) b.

End WithHost.

(** Two queries that differ in their filters at most. *)
Definition sameButFilters (q1 q2 : ParsedQuery) : Prop :=
  raw q1 = raw q2 /\ mode q1 = mode q2 /\ terms q1 = terms q2
  /\ phrases q1 = phrases q2 /\ excludes q1 = excludes q2
  /\ orGroups q1 = orGroups q2 /\ regex q1 = regex q2.

(** Two documents that differ in their modification time at most. *)
Definition sameButMtime (d1 d2 : Doc) : Prop :=
  id d1 = id d2 /\ title d1 = title d2 /\ path d1 = path d2
  /\ tags d1 = tags d2 /\ headings d1 = headings d2
  /\ symbols d1 = symbols d2 /\ body d1 = body d2 /\ size d1 = size d2.

(** Every element is a UTF-16 code unit. *)
Definition isString (s : jsstring) : Prop := Forall (fun c => (c < 65536)%N) s.

(** The flags the parser reads after the closing slash. *)
Definition flagsRead (rest : jsstring) : jsstring :=
  match rest with
  | c :: _ => if N.eqb c QueryParser.letter_i then [QueryParser.letter_i] else []
  | [] => []
  end.

(** The exponent of the decay of the recency bonus, over the real numbers,
    as a function of the modification time. *)
Definition decayExponent {CLK : Clock} (m : Z) (h : R) : R :=
  ((0 - (IZR Date_now - IZR m) / IZR Scorer.msPerDay) * ln 2 / h)%R.

End Spec.

(** ** Notions the statements about the heap use *)

Module HeapSpec.
Section WithOrder.
Variable T : Type.
Variable compare : T -> T -> comparison.

(** [compare(a, b) <= 0] *)
Definition le (a b : T) : Prop := compare a b <> Gt.

(** The comparison function is consistent: exchanging the arguments
    changes the sign, and [le] is transitive. *)
Definition consistent : Prop :=
  (forall a b, compare b a = CompOpp (compare a b))
  /\ (forall a b c, le a b -> le b c -> le a c).

(** [c] is a child of [p] in the array. *)
Definition child (p c : nat) : Prop := c = 2 * p + 1 \/ c = 2 * p + 2.

(** No item is below its parent. *)
Definition heapOrdered (l : list T) : Prop :=
  forall p c x y,
    child p c -> nth_error l p = Some x -> nth_error l c = Some y -> le x y.

(** The same as a test: every index but the first is compared with its
    parent. *)
Definition heapOrderedb (l : list T) : bool :=
  forallb
    (fun c =>
       match nth_error l ((c - 1) / 2), nth_error l c with
       | Some x, Some y => match compare x y with Gt => false | _ => true end
       | _, _ => true
       end)
    (seq 1 (length l - 1)).

(** The order holds but, maybe, between the item at [i] and its parent;
    the parent of [i] is not above the children of [i]. *)
Definition upInvariant (l : list T) (i : nat) : Prop :=
  (forall p c x y,
      child p c -> c <> i ->
      nth_error l p = Some x -> nth_error l c = Some y -> le x y)
  /\ (forall g c x y,
         child g i -> child i c ->
         nth_error l g = Some x -> nth_error l c = Some y -> le x y).

(** The order holds but, maybe, between the item at [i] and its
    children; the parent of [i] is not above the children of [i]. *)
Definition downInvariant (l : list T) (i : nat) : Prop :=
  (forall p c x y,
      child p c -> p <> i ->
      nth_error l p = Some x -> nth_error l c = Some y -> le x y)
  /\ (forall g c x y,
         child g i -> child i c ->
         nth_error l g = Some x -> nth_error l c = Some y -> le x y).

(** The heap after one [push] for every item of a list. *)
Definition pushAll (h : MinHeap.t T) (xs : list T) : MinHeap.t T :=
  fold_left (fun h x => fst (MinHeap.push compare h x)) xs h.

End WithOrder.

(** A heap of numbers with room for three, and full. *)
Definition threeNumbers : MinHeap.t nat :=
  {| MinHeap.items := [1; 3; 2]; MinHeap.maxSize := 3 |}.

End HeapSpec.

(** ** Notions the statements about the results use *)

Module ResultSpec.
Import Provider.
Section WithHost.
Context {U : Unicode} {NUM : JSNumber} {CLK : Clock} {RX : RegExpEngine}.

(** A result the scoring loop can have made: its id is a candidate of the
    query and the id of a stored document, the scorer gave that document
    the score of the result, the score is above zero, and the spans are
    those of the scorer, with what the regex filter appended. *)
Definition accepted (p : t) (q : ParsedQuery) (r : SearchResult) : Prop :=
  In (sr_id r) (gatherCandidates p q)
  /\ exists docMetadata scored,
       map_get (docs p) (sr_id r) = Some docMetadata
       /\ Scorer.scoreDoc (dm_doc docMetadata) q (scorerConfig (options p))
          = Some scored
       /\ sr_score r = Scorer.sd_score scored
       /\ nltb (of_Z 0) (sr_score r) = true
       /\ exists regexMatches,
            sr_matchSpans r = Scorer.sd_matchSpans scored ++ regexMatches.

(** The result the scoring loop pushes for a candidate, if any. *)
Definition pushedFor (p : t) (q : ParsedQuery) (docId : jsstring)
  : list SearchResult :=
  match map_get (docs p) docId with
  | None => []
  | Some docMetadata =>
      match Scorer.createScorer (scorerConfig (options p)) (dm_doc docMetadata) q with
      | Some scored =>
          if nltb (of_Z 0) (Scorer.sd_score scored)
          then [{| sr_id := docId; sr_score := Scorer.sd_score scored;
                   sr_matchSpans := Scorer.sd_matchSpans scored |}]
          else []
      | None => []
      end
  end.

(** The results pushed into the heap, in the order of the candidates. *)
Definition pushed (p : t) (q : ParsedQuery) : list SearchResult :=
  flat_map (pushedFor p q) (gatherCandidates p q).

(** The query without its regex. *)
Definition withoutRegex (q : ParsedQuery) : ParsedQuery :=
  {| raw := raw q; mode := mode q; terms := terms q; phrases := phrases q;
     excludes := excludes q; orGroups := orGroups q; filters := filters q;
     regex := None |}.

(** The index has a posting list for the term, once normalised. *)
Definition indexed (p : t) (term : jsstring) : Prop :=
  map_get (index p) (normalizeTerm p term) <> None.

(** The posting list of the term has an entry of the document. *)
Definition posted (p : t) (term docId : jsstring) : Prop :=
  exists postingList entry,
    map_get (index p) (normalizeTerm p term) = Some postingList
    /\ In entry postingList /\ pe_docId entry = docId.

(** Some term of the or-group has an entry of the document. *)
Definition postedInGroup (p : t) (orGroup : list jsstring) (docId : jsstring)
  : Prop :=
  exists term, In term orGroup /\ posted p term docId.

(** [a] comes before [b] when sorted by score, highest first. *)
Definition scoreGe (a b : SearchResult) : Prop :=
  HeapSpec.le compareScore b a.

End WithHost.

(** The entries of the document store sorted by modification time, the
    latest first, entries of the same time in the order of the store. *)
Fixpoint insertByMtime (x : jsstring * DocMetadata)
    (l : list (jsstring * DocMetadata)) : list (jsstring * DocMetadata) :=
  match l with
  | [] => [x]
  | y :: r =>
      if (mtime (dm_doc (snd x)) <? mtime (dm_doc (snd y)))%Z
      then y :: insertByMtime x r
      else x :: y :: r
  end.

Definition sortByMtimeDesc (l : list (jsstring * DocMetadata))
  : list (jsstring * DocMetadata) :=
  fold_right insertByMtime [] l.

(** [a] was modified when [b] was, or later. *)
Definition notOlder (a b : jsstring * DocMetadata) : Prop :=
  (mtime (dm_doc (snd b)) <= mtime (dm_doc (snd a)))%Z.

End ResultSpec.

(** ** Notions the statements about the index use *)

Module IndexSpec.
Import Provider.

(** The posting list of a term, empty when the index has none. *)
Definition postingsOf (index : JSMap PostingList) (term : jsstring) : PostingList :=
  match map_get index term with
  | Some postingList => postingList
  | None => []
  end.

(** The index and the document frequencies fit: every term is there once,
    no posting list is empty, and the frequency of a term is kept for the
    terms of the index and is the length of the posting list. *)
Definition tablesOk (index : JSMap PostingList) (df : JSMap nat) : Prop :=
  Spec.uniqueKeys index
  /\ (forall term postingList,
        map_get index term = Some postingList ->
        postingList <> [] /\ map_get df term = Some (length postingList))
  /\ (forall term, map_get index term = None -> map_get df term = None).

(** The entry is not of the document. *)
Definition notOf (docId : jsstring) (entry : PostingEntry) : bool :=
  negb (jseqb (pe_docId entry) docId).

(** [grows docId ix ix']: every posting list of [ix'] is the one of [ix]
    with entries of the document appended. *)
Definition grows (docId : jsstring) (ix ix' : JSMap PostingList) : Prop :=
  forall term, exists es,
    postingsOf ix' term = postingsOf ix term ++ es
    /\ Forall (fun e => pe_docId e = docId) es.

(** What a term looks up after [remove] went through a part of the
    snapshot of the index. *)
Definition removedList (docId : jsstring) (postingList : PostingList)
    (old : option PostingList) : option PostingList :=
  let filteredList := filter (notOf docId) postingList in
  if negb (length filteredList =? length postingList) then
    match filteredList with [] => None | _ => Some filteredList end
  else old.

Definition removedCount (docId : jsstring) (postingList : PostingList)
    (old : option nat) : option nat :=
  let filteredList := filter (notOf docId) postingList in
  if negb (length filteredList =? length postingList) then
    match filteredList with [] => None | _ => Some (length filteredList) end
  else old.

Section WithHost.
Context {U : Unicode} {NUM : JSNumber} {CLK : Clock} {RX : RegExpEngine}.

(** The tables fit, every document is stored once, and every entry of a
    posting list is of a stored document. *)
Definition wellFormed (p : t) : Prop :=
  tablesOk (index p) (df p)
  /\ Spec.uniqueKeys (docs p)
  /\ (forall term postingList entry,
        map_get (index p) term = Some postingList -> In entry postingList ->
        map_has (docs p) (pe_docId entry) = true).

(** Two providers that answer every lookup alike. *)
Definition sameContent (p1 p2 : t) : Prop :=
  options p1 = options p2
  /\ docs p1 = docs p2
  /\ totalDocs p1 = totalDocs p2
  /\ (forall term, map_get (index p1) term = map_get (index p2) term)
  /\ (forall term, map_get (df p1) term = map_get (df p2) term).

(** The tokens of the fields, as [upsert] computes them. *)
Definition fieldTokensOf (p : t) (d : Doc) : list (SearchableField * list jsstring) :=
  map (fun fc => (fst fc,
                  Normalize.tokenizeWords (snd fc)
                    (Scorer.diacritics (scorerConfig (options p)))))
      (fieldContents (processDoc (options p) d)).

(** The tokens of the fields of a document as [upsert] indexes them. *)
Definition indexedTokens (p : t) (doc : Doc) : list (SearchableField * jsstring) :=
  flat_map
    (fun fc =>
       map (fun token => (fst fc, token))
         (Normalize.tokenizeWords (snd fc)
            (Scorer.diacritics (scorerConfig (options p)))))
    (fieldContents (processDoc (options p) doc)).

End WithHost.
End IndexSpec.

(** ** Notions the statements about the parser use *)

Module ParserSpec.
Import QueryParser.

(** A token: not empty and without white space. *)
Definition isToken (s : jsstring) : Prop :=
  s <> [] /\ Forall (fun c => isWhiteSpace c = false) s.

Definition tokensIn (o : option (list jsstring)) : Prop :=
  match o with
  | Some l => Forall isToken l
  | None => True
  end.

(** Every value of the tag, path and in filters is a token. *)
Definition filtersOk (fs : QueryFilters) : Prop :=
  tokensIn (f_tag fs) /\ tokensIn (f_path fs) /\ tokensIn (f_in fs).

(** An or-group: two members or more, each a token. *)
Definition isOrGroup (g : list jsstring) : Prop :=
  2 <= length g /\ Forall isToken g.

(** What the token loop keeps. *)
Definition loopInvariant (st : LoopState) : Prop :=
  Forall isToken (ls_terms st)
  /\ Forall isToken (ls_excludes st)
  /\ Forall isOrGroup (ls_orGroups st)
  /\ Forall isToken (ls_currentOrGroup st)
  /\ filtersOk (ls_filters st).

(** A phrase: not empty and without a quote. *)
Definition isPhrase (s : jsstring) : Prop := s <> [] /\ ~ In quote s.

(** The items of a pattern between slashes, as the extraction pattern
    reads them: an escaped slash, or one character that is no slash.  A
    backslash that no item follows is none, since the closing slash would
    be read as escaped by it. *)
Fixpoint patternItems (t : jsstring) : bool :=
  match t with
  | [] => true
  | c :: r =>
      if N.eqb c slash then false
      else if N.eqb c backslash
           then match r with
                | d :: r' => if N.eqb d slash then patternItems r' else patternItems r
                | [] => false
                end
           else patternItems r
  end.

(** What is left of the text [pre ++ / pattern / ++ rest] once the
    pattern is taken out: what stands before the opening slash, and what
    stands after the closing slash less the flags read there. *)
Definition residualText (pre rest : jsstring) : jsstring :=
  trim (pre ++ skipn (length (Spec.flagsRead rest)) rest).

Section WithHost.
Context {U : Unicode} {RX : RegExpEngine}.

(** The terms, or-groups, excludes and filters of [q] are those the token
    loop reads from [text]. *)
Definition readFrom (q : ParsedQuery) (text : jsstring) : Prop :=
  let st := tokenLoop initialLoopState (splitWhitespace text) in
  terms q = fst (closeOrGroup st)
  /\ orGroups q = snd (closeOrGroup st)
  /\ excludes q = ls_excludes st
  /\ filters q
     = match ls_fieldPrefix st with
       | Some p => {| f_tag := f_tag (ls_filters st);
                      f_path := f_path (ls_filters st);
                      f_in := f_in (ls_filters st);
                      f_field := Some p |}
       | None => ls_filters st
       end.

End WithHost.

End ParserSpec.

(** ** Notions the statements about the tokenizer use *)

Module TokenSpec.
Section WithUnicode.
Context {U : Unicode}.

(** A word: the code units of one or more code points that are letters
    or numbers. *)
Definition isWord (token : jsstring) : Prop :=
  exists cps : list codepoint,
    cps <> [] /\ Forall (fun c => isLetterOrNumber c = true) cps
    /\ token = fromCodePoints cps.

End WithUnicode.
End TokenSpec.

(** ** What the statements about scores take of the numbers *)

Module NumberSpec.
Section WithNumbers.
Context {NUM : JSNumber}.

(** [a] is [b] at most. *)
Definition nle (a b : num) : Prop := ncompare a b <> Gt.

(** [a] is below [b]. *)
Definition nlt (a b : num) : Prop := ncompare a b = Lt.

(** The order of the numbers and what the operations keep of it.  A
    number of the program is an IEEE 754 double, and an operation gives
    the exact result rounded to the nearest double: a small addend may
    leave a sum as it was, and the exponential of a number far below zero
    is zero.  So nothing here says that a result is above another one,
    or that it is exact, apart from zero as a term, as a factor and as a
    numerator; what is said is that the comparison is a total order and
    that a result does not go down when the exact result does not, as
    rounding to nearest has it for the numbers that are neither infinite
    nor NaN.  [Math_exp] is the exponential of the host, which the
    language leaves to it: it is taken not to decrease. *)
Record monotone : Prop := {
  ncompare_opp : forall a b : num, ncompare b a = CompOpp (ncompare a b);
  nle_trans : forall a b c : num, nle a b -> nle b c -> nle a c;
  of_Z_mono : forall x y : Z, (x <= y)%Z -> nle (of_Z x) (of_Z y);
  of_Z_positive : forall x : Z, (0 < x)%Z -> nlt (of_Z 0) (of_Z x);
  nadd_mono : forall a b c : num, nle b c -> nle (a + b)%num (a + c)%num;
  nsub_anti : forall a b c : num, nle b c -> nle (a - c)%num (a - b)%num;
  nmul_mono_l :
    forall a b c : num, nle (of_Z 0) a -> nle b c -> nle (a * b)%num (a * c)%num;
  nmul_mono_r :
    forall a b c : num, nle (of_Z 0) c -> nle a b -> nle (a * c)%num (b * c)%num;
  ndiv_mono :
    forall a b c : num, nlt (of_Z 0) c -> nle a b -> nle (a / c)%num (b / c)%num;
  Math_exp_mono : forall a b : num, nle a b -> nle (Math_exp a) (Math_exp b);
  Math_LN2_nonneg : nle (of_Z 0) Math_LN2;
  nadd_zero : forall a : num, nle a (a + of_Z 0)%num;
  nmul_zero : forall a : num, nle (of_Z 0) a -> nle (of_Z 0) (a * of_Z 0)%num;
  ndiv_zero : forall c : num, nlt (of_Z 0) c -> nle (of_Z 0) (of_Z 0 / c)%num
}.

End WithNumbers.
End NumberSpec.

(** ** Inputs of the examples *)

Module Examples.
Import Provider.

Definition defaultSettings : QueryParser.QueryParserSettings :=
  {| QueryParser.commandsSettings :=
       {| QueryParser.enableCommandsPrefix := true;
          QueryParser.commandsPrefixChar := js ">" |} |}.

(** [DEFAULT_SCORER_CONFIG] *)
Definition defaultScorerConfig : Scorer.ScorerConfig :=
  {| Scorer.weights :=
       {| Scorer.w_title := 4%Q; Scorer.w_headings := 2%Q;
          Scorer.w_path := (3 # 2)%Q; Scorer.w_tags := (3 # 2)%Q;
          Scorer.w_symbols := (3 # 2)%Q; Scorer.w_body := 1%Q;
          Scorer.w_recency := (1 # 2)%Q |};
     Scorer.diacritics := true;
     Scorer.recencyHalfLife := 30%Q |}.

(** The default weights of the fields, the recency weight set to 0. *)
Definition noRecencyConfig : Scorer.ScorerConfig :=
  {| Scorer.weights :=
       {| Scorer.w_title := 4%Q; Scorer.w_headings := 2%Q;
          Scorer.w_path := (3 # 2)%Q; Scorer.w_tags := (3 # 2)%Q;
          Scorer.w_symbols := (3 # 2)%Q; Scorer.w_body := 1%Q;
          Scorer.w_recency := 0%Q |};
     Scorer.diacritics := true;
     Scorer.recencyHalfLife := 30%Q |}.

Definition optionsWith (config : Scorer.ScorerConfig) : Options :=
  {| maxDocs := 50000; maxBodyLength := 2 * 1024 * 1024;
     regexCandidateK := 300; scorerConfig := config |}.

Definition mkDoc (i t : jsstring) (h : list jsstring) (b : jsstring) (m : Z) : Doc :=
  {| id := i; title := t; path := []; tags := []; headings := h;
     symbols := []; body := b; mtime := m; size := 100 |}.

Definition mkQuery (ts : list jsstring) (ex : list jsstring)
    (fs : QueryFilters) (rx : option RegexSpec) : ParsedQuery :=
  {| raw := []; mode := files; terms := ts; phrases := []; excludes := ex;
     orGroups := []; filters := fs; regex := rx |}.

(** The three documents of the end-to-end scenarios. *)
Definition D1 : Doc :=
  {| id := js "note1.md"; title := js "Project Planning";
     path := [js "projects"; js "work"]; tags := [js "todo"; js "urgent"];
     headings := [js "Overview"; js "Timeline"];
     symbols := [js "[[link1]]"; js "#tag1"];
     body := js "this is a detailed project planning document with tasks and deadlines.";
     mtime := 1640995200000; size := 1024 |}.

Definition D2 : Doc :=
  {| id := js "note2.md"; title := js "Meeting Notes";
     path := [js "meetings"]; tags := [js "meeting"; js "work"];
     headings := [js "Agenda"; js "Action Items"];
     symbols := [js "[[contact]]"; js "!important"];
     body := js "team meeting notes with action items and follow-ups.";
     mtime := 1641081600000; size := 512 |}.

Definition D3 : Doc :=
  {| id := js "note3.md"; title := js "Research Ideas";
     path := [js "research"]; tags := [js "research"; js "ideas"];
     headings := [js "Background"; js "Hypothesis"];
     symbols := [js "[[paper1]]"; js "{{query}}"];
     body := js "research ideas and hypotheses for the upcoming project.";
     mtime := 1641168000000; size := 2048 |}.

Definition threeNotes : t :=
  fst (indexAll (create (optionsWith defaultScorerConfig)) [D1; D2; D3]).

(** A query of excludes only: [-deadlines]. *)
Definition excludesOnly : ParsedQuery :=
  mkQuery [] [js "deadlines"] noFilters None.

(** One hundred documents with [note] in the title, then two that have it
    in more fields: [n0.md] .. [n99.md] score 4, [n100.md] scores 5 and
    [n101.md] scores 7. *)
Fixpoint decimal_go (fuel n : nat) (acc : jsstring) : jsstring :=
  match fuel with
  | 0 => acc
  | S fuel' =>
      let acc' := N.of_nat (48 + n mod 10) :: acc in
      if n / 10 =? 0 then acc' else decimal_go fuel' (n / 10) acc'
  end.

Definition decimal (n : nat) : jsstring := decimal_go (S n) n [].

Definition noteId (n : nat) : jsstring := js "n" ++ decimal n ++ js ".md".

Definition plainNote (n : nat) : Doc :=
  mkDoc (noteId n) (js "note") [] [] 1641168000000.

Definition hundredAndTwo : list Doc :=
  map plainNote (seq 0 100)
  ++ [ mkDoc (noteId 100) (js "note") [] (js "note") 1641168000000;
       mkDoc (noteId 101) (js "note") [js "note"] (js "note") 1641168000000 ].

Definition manyNotes : t :=
  fst (indexAll (create (optionsWith noRecencyConfig)) hundredAndTwo).

Definition noteQuery : ParsedQuery := mkQuery [js "note"] [] noFilters None.

(** Two documents with [notes] and [up] in the title; the pattern [/up/]. *)
Definition backupNotes : Doc :=
  mkDoc (js "a.md") (js "backup notes") [] (js "notes") 1641168000000.

Definition upNotes : Doc :=
  mkDoc (js "b.md") (js "up notes") [] [] 1641168000000.

Definition twoNotes : t :=
  fst (indexAll (create (optionsWith noRecencyConfig)) [backupNotes; upNotes]).

Definition upQuery : ParsedQuery :=
  mkQuery [js "notes"] [] noFilters
    (Some {| rx_source := js "up"; rx_flags := [] |}).

(** A body of three letters of two bytes each and a cap of two. *)
Definition accentedDoc : Doc :=
  mkDoc (js "e.md") (js "accents") [] [233; 233; 233]%N 1641168000000.

Definition smallBodiesOptions : Options :=
  {| maxDocs := 50000; maxBodyLength := 2; regexCandidateK := 300;
     scorerConfig := defaultScorerConfig |}.

Definition smallBodies : t := create smallBodiesOptions.

(** A provider that holds one document at most. *)
Definition oneSlotOptions : Options :=
  {| maxDocs := 1; maxBodyLength := 2 * 1024 * 1024;
     regexCandidateK := 300; scorerConfig := defaultScorerConfig |}.

(** The query [project tag:work] and the query [project]. *)
Definition projectTaggedWork : ParsedQuery :=
  mkQuery [js "project"] []
    {| f_tag := Some [js "work"]; f_path := None; f_in := None; f_field := None |}
    None.

Definition projectQuery : ParsedQuery := mkQuery [js "project"] [] noFilters None.

(** Over the real numbers: the default configuration, and a document
    dated one day and two days after the clock. *)
Definition realScorerConfig : Scorer.ScorerConfig (NUM := R_JSNumber) :=
  @Scorer.Build_ScorerConfig R_JSNumber
    (@Scorer.Build_FieldWeights R_JSNumber
       4%R 2%R (3 / 2)%R (3 / 2)%R (3 / 2)%R 1%R (1 / 2)%R)
    true 30%R.

Definition datedAhead (days : Z) : Doc :=
  mkDoc (js "f.md") (js "note") [] [] (1641254400000 + days * 86400000).

End Examples.

(** * Properties *)

Unset Implicit Arguments.

(** ** Strings and maps *)

Lemma jseqb_refl (a : jsstring) : jseqb a a = true.
Proof.
  induction a as [|x a IH]; simpl; [reflexivity|].
  rewrite N.eqb_refl; exact IH.
Qed.

Lemma jseqb_eq (a b : jsstring) : jseqb a b = true <-> a = b.
Proof.
  split.
  - revert b; induction a as [|x a IH]; intros [|y b] H; simpl in H;
      try discriminate; [reflexivity|].
    apply andb_true_iff in H as [Hxy Hab].
    apply N.eqb_eq in Hxy; subst y.
    f_equal; apply IH; exact Hab.
  - intros ->; apply jseqb_refl.
Qed.

Lemma jseqb_neq (a b : jsstring) : jseqb a b = false <-> a <> b.
Proof.
  split.
  - intros H E; apply jseqb_eq in E; congruence.
  - intros H; destruct (jseqb a b) eqn:E; [|reflexivity].
    apply jseqb_eq in E; contradiction.
Qed.

Section MapFacts.
Variable V : Type.
Implicit Types (m : Provider.JSMap V) (k : jsstring).

Lemma map_has_In m k :
  Provider.map_has m k = true <-> In k (map fst m).
Proof.
  unfold Provider.map_has.
  induction m as [|[k' v] m IH]; simpl.
  - split; [discriminate|tauto].
  - destruct (jseqb k' k) eqn:E.
    + apply jseqb_eq in E; subst; split; auto.
    + apply jseqb_neq in E; rewrite IH; split; [auto|].
      intros [H|H]; [contradiction|exact H].
Qed.

Lemma map_has_false m k :
  Provider.map_has m k = false <-> ~ In k (map fst m).
Proof.
  rewrite <- map_has_In.
  destruct (Provider.map_has m k); split; intros; try congruence; auto.
Qed.

Lemma map_get_has m k v :
  Provider.map_get m k = Some v -> Provider.map_has m k = true.
Proof. unfold Provider.map_has; intros ->; reflexivity. Qed.

Lemma map_delete_not_in m k : ~ In k (map fst (Provider.map_delete m k)).
Proof.
  unfold Provider.map_delete; intros H.
  apply in_map_iff in H as [[k' v] [E H]]; simpl in E; subst k'.
  apply filter_In in H as [_ H]; simpl in H.
  rewrite jseqb_refl in H; discriminate.
Qed.

Lemma map_delete_keys_incl m k x :
  In x (map fst (Provider.map_delete m k)) -> In x (map fst m).
Proof.
  unfold Provider.map_delete; intros H.
  apply in_map_iff in H as [e [E H]]; apply filter_In in H as [H _].
  apply in_map_iff; exists e; auto.
Qed.

Lemma map_delete_unique m k :
  Spec.uniqueKeys m -> Spec.uniqueKeys (Provider.map_delete m k).
Proof.
  unfold Spec.uniqueKeys; induction m as [|[k' v] m IH]; simpl; intros H.
  - constructor.
  - inversion H as [|? ? Hn Hm]; subst.
    destruct (jseqb k' k); simpl; [apply IH; exact Hm|].
    constructor; [|apply IH; exact Hm].
    intros Hin; apply Hn; eapply map_delete_keys_incl; exact Hin.
Qed.

Lemma map_delete_absent m k :
  ~ In k (map fst m) -> Provider.map_delete m k = m.
Proof.
  unfold Provider.map_delete; induction m as [|[k' v] m IH]; simpl; intros H;
    [reflexivity|].
  destruct (jseqb k' k) eqn:E.
  - apply jseqb_eq in E; subst; exfalso; auto.
  - simpl; f_equal; apply IH; auto.
Qed.

Lemma map_delete_length m k :
  Spec.uniqueKeys m -> In k (map fst m) ->
  S (length (Provider.map_delete m k)) = length m.
Proof.
  unfold Spec.uniqueKeys; induction m as [|[k' v] m IH]; simpl; intros Hu Hin;
    [contradiction|].
  inversion Hu as [|? ? Hn Hm]; subst.
  destruct (jseqb k' k) eqn:E.
  - apply jseqb_eq in E; subst k'.
    fold (Provider.map_delete m k).
    simpl; rewrite map_delete_absent by exact Hn; reflexivity.
  - apply jseqb_neq in E.
    destruct Hin as [Hin|Hin]; [contradiction|].
    simpl; f_equal; apply IH; assumption.
Qed.

Lemma map_set_absent m k v :
  ~ In k (map fst m) -> Provider.map_set m k v = m ++ [(k, v)].
Proof.
  induction m as [|[k' v'] m IH]; simpl; intros H; [reflexivity|].
  destruct (jseqb k' k) eqn:E.
  - apply jseqb_eq in E; subst; exfalso; auto.
  - f_equal; apply IH; auto.
Qed.

Lemma map_get_set_same m k v :
  Provider.map_get (Provider.map_set m k v) k = Some v.
Proof.
  induction m as [|[k' v'] m IH]; simpl.
  - rewrite jseqb_refl; reflexivity.
  - destruct (jseqb k' k) eqn:E; simpl; rewrite E; [reflexivity|exact IH].
Qed.

End MapFacts.

(** ** The document cap *)

Section Capacity.
Context {U : Unicode} {NUM : JSNumber} {CLK : Clock} {RX : RegExpEngine}.
Import Provider Spec.

Lemma remove_facts (p : t) (i : jsstring) :
  options (remove p i) = options p
  /\ docs (remove p i) = map_delete (docs p) i
  /\ totalDocs (remove p i)
     = (if map_has (docs p) i then totalDocs p - 1 else totalDocs p)%Z.
Proof.
  unfold remove, map_has.
  destruct (map_get (docs p) i) eqn:E.
  - destruct (fold_left (removeFromTerm i) (index p) (index p, df p)) as [i' d'].
    simpl; auto.
  - repeat split.
    symmetry; apply map_delete_absent.
    apply map_has_false; unfold map_has; rewrite E; reflexivity.
Qed.

Lemma remove_invariant (p : t) (i : jsstring) :
  countInvariant p -> countInvariant (remove p i).
Proof.
  intros (Hc & Hu & Hm).
  destruct (remove_facts p i) as (Ho & Hd & Ht).
  unfold countInvariant; rewrite Ho, Hd, Ht.
  split; [|split].
  - destruct (map_has (docs p) i) eqn:E.
    + apply map_has_In in E.
      pose proof (map_delete_length _ _ _ Hu E) as Hl. lia.
    + apply map_has_false in E.
      rewrite map_delete_absent by exact E. exact Hc.
  - apply map_delete_unique; exact Hu.
  - destruct (map_has (docs p) i); lia.
Qed.

Lemma upsert_cases (p : t) (d : Doc) :
  let p1 := withoutOld p d in
  ((maxDocs (options p1) <= totalDocs p1)%Z
   /\ upsert p d = (p1, MaximumDocumentLimitReached))
  \/ ((totalDocs p1 < maxDocs (options p1))%Z
      /\ snd (upsert p d) = Done
      /\ options (fst (upsert p d)) = options p1
      /\ totalDocs (fst (upsert p d)) = (totalDocs p1 + 1)%Z
      /\ exists meta,
           docs (fst (upsert p d)) = map_set (docs p1) (id d) meta
           /\ dm_doc meta = processDoc (options p1) d).
Proof.
  intros p1; unfold upsert; fold (withoutOld p d); fold p1.
  destruct (Z.leb_spec (maxDocs (options p1)) (totalDocs p1)) as [H|H].
  - left; auto.
  - right.
    match goal with
    | |- context [fold_left ?f ?l ?a] => destruct (fold_left f l a) as [i' d']
    end.
    simpl; repeat split; try assumption.
    eexists; split; reflexivity.
Qed.

Lemma withoutOld_absent (p : t) (d : Doc) :
  ~ In (id d) (map fst (docs (withoutOld p d))).
Proof.
  unfold withoutOld.
  destruct (map_has (docs p) (id d)) eqn:E.
  - destruct (remove_facts p (id d)) as (_ & Hd & _); rewrite Hd.
    apply map_delete_not_in.
  - apply map_has_false; exact E.
Qed.

Lemma withoutOld_invariant (p : t) (d : Doc) :
  countInvariant p -> countInvariant (withoutOld p d).
Proof.
  unfold withoutOld; destruct (map_has (docs p) (id d)); auto.
  apply remove_invariant.
Qed.

Lemma withoutOld_options (p : t) (d : Doc) :
  options (withoutOld p d) = options p.
Proof.
  unfold withoutOld; destruct (map_has (docs p) (id d)); auto.
  apply remove_facts.
Qed.

Lemma upsert_invariant (p : t) (d : Doc) :
  countInvariant p -> countInvariant (fst (upsert p d)).
Proof.
  intros Hi.
  pose proof (withoutOld_invariant p d Hi) as (Hc & Hu & Hm).
  pose proof (withoutOld_absent p d) as Hn.
  destruct (upsert_cases p d) as [[_ E]|(Hlt & _ & Ho & Ht & meta & Hd & _)].
  - rewrite E; simpl; repeat split; assumption.
  - unfold countInvariant; rewrite Ho, Ht, Hd.
    rewrite map_set_absent by exact Hn.
    split; [|split].
    + rewrite length_app; simpl; lia.
    + unfold uniqueKeys in *; rewrite map_app; simpl.
      apply NoDup_app; [exact Hu|repeat constructor; intros []|].
      intros x Hx [Hx'|[]]; subst; contradiction.
    + lia.
Qed.

Lemma upsert_options (p : t) (d : Doc) :
  options (fst (upsert p d)) = options p.
Proof.
  destruct (upsert_cases p d) as [[_ E]|(_ & _ & Ho & _)].
  - rewrite E; apply withoutOld_options.
  - rewrite Ho; apply withoutOld_options.
Qed.

Lemma clear_invariant (p : t) :
  (0 <= maxDocs (options p))%Z -> countInvariant (clear p).
Proof.
  intros H; unfold countInvariant, clear, uniqueKeys; simpl.
  repeat split; [constructor|exact H].
Qed.

Lemma upsertAll_invariant (l : list Doc) (p : t) :
  countInvariant p ->
  countInvariant (fst (upsertAll p l))
  /\ options (fst (upsertAll p l)) = options p.
Proof.
  revert p; induction l as [|d l IH]; intros p Hi; simpl; [auto|].
  pose proof (upsert_invariant p d Hi) as Hi'.
  pose proof (upsert_options p d) as Ho.
  destruct (upsert p d) as [p' o] eqn:E; simpl in *.
  destruct o; simpl; [|auto].
  destruct (IH p' Hi') as [H1 H2]; split; [exact H1|congruence].
Qed.

Lemma apply_invariant (p : t) (o : Op) :
  (0 <= maxDocs (options p))%Z -> countInvariant p ->
  countInvariant (apply p o) /\ options (apply p o) = options p.
Proof.
  intros H0 Hi; destruct o as [d|i| |l]; simpl.
  - split; [apply upsert_invariant; exact Hi|apply upsert_options].
  - split; [apply remove_invariant; exact Hi|apply remove_facts].
  - split; [apply clear_invariant; exact H0|reflexivity].
  - unfold indexAll.
    destruct (upsertAll_invariant l (clear p)) as [H1 H2];
      [apply clear_invariant; exact H0|].
    split; [exact H1|exact H2].
Qed.

Lemma run_invariant (ops : list Op) (p : t) :
  (0 <= maxDocs (options p))%Z -> countInvariant p ->
  countInvariant (run p ops) /\ options (run p ops) = options p.
Proof.
  revert p; induction ops as [|o ops IH]; intros p H0 Hi; simpl; [auto|].
  destruct (apply_invariant p o H0 Hi) as [Hi' Ho].
  destruct (IH (apply p o)) as [H1 H2]; [rewrite Ho; exact H0|exact Hi'|].
  unfold run in *; simpl; split; [exact H1|congruence].
Qed.

Lemma create_invariant (o : Options) :
  (0 <= maxDocs o)%Z -> countInvariant (create o).
Proof.
  intros H; unfold countInvariant, create, uniqueKeys; simpl.
  repeat split; [constructor|exact H].
Qed.

(** C5.  An [upsert] that would take the number of documents over
    [maxDocs] fails with the capacity error and leaves the provider as it
    was; after any sequence of operations on a provider created with a
    maximum of zero or more, the counter is the number of documents and is
    [maxDocs] at most, and a failed [upsert] has changed nothing; and at
    the cap an [upsert] of an id that is already there succeeds. *)
Theorem upsert_respects_maxDocs :
  (forall (p : t) (d : Doc),
      map_has (docs p) (id d) = false ->
      (maxDocs (options p) <= totalDocs p)%Z ->
      upsert p d = (p, MaximumDocumentLimitReached))
  /\ (forall (o : Options) (ops : list Op),
         (0 <= maxDocs o)%Z ->
         let p := run (create o) ops in
         totalDocs p = Z.of_nat (length (docs p))
         /\ (totalDocs p <= maxDocs o)%Z
         /\ forall d : Doc,
              snd (upsert p d) = MaximumDocumentLimitReached ->
              fst (upsert p d) = p)
  /\ (forall (o : Options) (ops : list Op) (d : Doc),
         (0 <= maxDocs o)%Z ->
         let p := run (create o) ops in
         map_has (docs p) (id d) = true ->
         totalDocs p = maxDocs o ->
         snd (upsert p d) = Done
         /\ map_has (docs (fst (upsert p d))) (id d) = true
         /\ totalDocs (fst (upsert p d)) = maxDocs o).
Proof.
  split; [|split].
  - intros p d Hn Hfull.
    destruct (upsert_cases p d) as [[_ E]|(Hlt & _)];
      unfold withoutOld in *; rewrite Hn in *; [exact E|lia].
  - intros o ops H0 p.
    destruct (run_invariant ops (create o) H0 (create_invariant o H0))
      as [(Hc & Hu & Hm) Ho].
    fold p in Hc, Hu, Hm, Ho; simpl in Ho.
    split; [exact Hc|split; [rewrite <- Ho; exact Hm|]].
    intros d Hthrow.
    destruct (upsert_cases p d) as [[Hfull E]|(_ & Hdone & _)];
      [|congruence].
    rewrite E; simpl.
    unfold withoutOld in *.
    destruct (map_has (docs p) (id d)) eqn:Hhas; [|reflexivity].
    destruct (remove_facts p (id d)) as (Ho' & _ & Ht).
    rewrite Ho', Ht, Hhas in Hfull. lia.
  - intros o ops d H0 p Hhas Hfull.
    destruct (run_invariant ops (create o) H0 (create_invariant o H0))
      as [_ Ho].
    fold p in Ho; simpl in Ho.
    destruct (remove_facts p (id d)) as (Ho' & _ & Ht).
    rewrite Hhas in Ht.
    destruct (upsert_cases p d) as [[Hle _]|(_ & Hdone & _ & Ht' & meta & Hd & _)];
      unfold withoutOld in *; rewrite Hhas in *.
    + rewrite Ho', Ht, Ho in Hle. lia.
    + split; [exact Hdone|split].
      * rewrite Hd. unfold map_has. rewrite map_get_set_same. reflexivity.
      * rewrite Ht', Ht. lia.
Qed.

End Capacity.

Lemma upsert_respects_maxDocs_witness :
  let p := Spec.run (Provider.create Examples.oneSlotOptions)
             [Spec.OpUpsert Examples.D1] in
  Provider.upsert p Examples.D2 = (p, Provider.MaximumDocumentLimitReached)
  /\ Provider.totalDocs p = 1%Z
  /\ (snd (Provider.upsert p Examples.D1) = Provider.Done
      /\ Provider.map_has (Provider.docs (fst (Provider.upsert p Examples.D1)))
           (id Examples.D1) = true
      /\ Provider.totalDocs (fst (Provider.upsert p Examples.D1)) = 1%Z).
Proof.
  destruct upsert_respects_maxDocs as (H1 & H2 & H3).
  split; [|split].
  - apply H1; [reflexivity|vm_compute; discriminate].
  - destruct (H2 Examples.oneSlotOptions [Spec.OpUpsert Examples.D1])
      as (Hc & _); [vm_compute; discriminate|].
    rewrite Hc; reflexivity.
  - apply (H3 Examples.oneSlotOptions [Spec.OpUpsert Examples.D1] Examples.D1);
      [vm_compute; discriminate|reflexivity|reflexivity].
Defined.

(** ** Truncated bodies *)

Section Truncation.
Context {U : Unicode} {NUM : JSNumber} {CLK : Clock} {RX : RegExpEngine}.
Import Provider Spec.

Lemma truncateBody_firstn (m : Z) (b : jsstring) :
  truncateBody m b = firstn (Z.to_nat m) b.
Proof.
  unfold truncateBody.
  destruct (Z.ltb_spec m (Z.of_nat (length b))) as [H|H]; [reflexivity|].
  symmetry; apply firstn_all2. lia.
Qed.

Lemma truncateBody_idempotent (m : Z) (b : jsstring) :
  truncateBody m (truncateBody m b) = truncateBody m b.
Proof.
  rewrite !truncateBody_firstn, firstn_firstn. f_equal. lia.
Qed.

Lemma truncateBody_length (m : Z) (b : jsstring) :
  (Z.of_nat (length (truncateBody m b)) <= Z.max 0 m)%Z.
Proof.
  rewrite truncateBody_firstn, length_firstn. lia.
Qed.

Lemma processDoc_idempotent (o : Options) (d : Doc) :
  processDoc o (processDoc o d) = processDoc o d.
Proof.
  unfold processDoc; simpl. rewrite truncateBody_idempotent. reflexivity.
Qed.

(** C6, as the code has it.  [upsert] keeps the first [maxBodyLength]
    UTF-16 code units of the body: the stored body is that prefix, its
    length in code units is within the cap, and the provider an [upsert]
    leaves is the one the [upsert] of the truncated document leaves, so
    that nothing later sees more than the prefix. *)
Theorem upsert_truncates_body_by_length (p : t) (d : Doc) :
  upsert p d = upsert p (processDoc (options p) d)
  /\ forall meta : DocMetadata,
       snd (upsert p d) = Done ->
       map_get (docs (fst (upsert p d))) (id d) = Some meta ->
       body (dm_doc meta)
         = firstn (Z.to_nat (maxBodyLength (options p))) (body d)
       /\ (Z.of_nat (length (body (dm_doc meta)))
           <= Z.max 0 (maxBodyLength (options p)))%Z.
Proof.
  split.
  - unfold upsert. simpl id.
    set (p1 := if map_has (docs p) (id d) then remove p (id d) else p).
    assert (Ho : options p1 = options p).
    { unfold p1; destruct (map_has (docs p) (id d)); [|reflexivity].
      apply remove_facts. }
    rewrite <- Ho, processDoc_idempotent. reflexivity.
  - intros meta Hdone Hget.
    destruct (upsert_cases p d) as [[_ E]|(_ & _ & _ & _ & meta' & Hd & Hm)].
    + rewrite E in Hdone; discriminate.
    + rewrite Hd, map_get_set_same in Hget.
      injection Hget as <-.
      rewrite Hm, withoutOld_options; simpl.
      split; [apply truncateBody_firstn|apply truncateBody_length].
Qed.

End Truncation.

Section TruncationExamples.
Import Provider Spec.

Lemma upsert_truncates_body_by_length_witness :
  exists meta : DocMetadata,
    map_get (docs (fst (upsert Examples.smallBodies Examples.accentedDoc)))
      (id Examples.accentedDoc) = Some meta
    /\ body (dm_doc meta) = [233; 233]%N
    /\ (Z.of_nat (length (body (dm_doc meta))) <= 2)%Z.
Proof.
  destruct (upsert_truncates_body_by_length Examples.smallBodies Examples.accentedDoc)
    as [_ H].
  eexists; split; [reflexivity|].
  apply H; reflexivity.
Defined.

(** The claim C6 fails where a character takes more than one byte: of a
    body of three times U+00E9 (six bytes in UTF-8) and a cap of 2, two
    code units are stored, which are four bytes. *)
Lemma stored_body_exceeds_byte_cap :
  maxBodyLength (options Examples.smallBodies) = 2%Z
  /\ utf8Length (body Examples.accentedDoc) = 6
  /\ snd (upsert Examples.smallBodies Examples.accentedDoc) = Done
  /\ exists meta : DocMetadata,
       map_get (docs (fst (upsert Examples.smallBodies Examples.accentedDoc)))
         (id Examples.accentedDoc) = Some meta
       /\ utf8Length (body (dm_doc meta)) = 4
       /\ ~ (Z.of_nat (utf8Length (body (dm_doc meta)))
             <= maxBodyLength (options Examples.smallBodies))%Z.
Proof.
  split; [reflexivity|].
  split; [vm_compute; reflexivity|].
  split; [vm_compute; reflexivity|].
  eexists. split; [vm_compute; reflexivity|].
  split; [vm_compute; reflexivity|].
  vm_compute. intros H; apply H; reflexivity.
Qed.

End TruncationExamples.

(** ** Queries without a positive part *)

Section EmptyQuery.
Context {U : Unicode} {NUM : JSNumber} {CLK : Clock} {RX : RegExpEngine}.
Import Provider Spec.

Lemma insertByScore_length (x : SearchResult) (l : list SearchResult) :
  length (insertByScore x l) = S (length l).
Proof.
  induction l as [|y l IH]; simpl; [reflexivity|].
  destruct (nltb (sr_score x) (sr_score y)); simpl; [rewrite IH|]; reflexivity.
Qed.

Lemma sortByScoreDesc_length (l : list SearchResult) :
  length (sortByScoreDesc l) = length l.
Proof.
  induction l as [|x l IH]; simpl; [reflexivity|].
  rewrite insertByScore_length, IH; reflexivity.
Qed.

Lemma renumber_length (n : nat) (l : list SearchResult) (i : nat) :
  length (renumber n l i) = length l.
Proof.
  revert i; induction l as [|x l IH]; intros i; simpl; [reflexivity|].
  rewrite IH; reflexivity.
Qed.

Lemma getRecentDocuments_length (p : t) (limit : nat) :
  length (getRecentDocuments p limit) = Nat.min limit (length (docs p)).
Proof.
  unfold getRecentDocuments.
  rewrite length_firstn, renumber_length, sortByScoreDesc_length, length_map.
  reflexivity.
Qed.

(** C3, as the code has it.  A query without terms, phrases, or-groups
    and regex is the empty query, whatever its excludes and filters are:
    [query] answers it with the most recently modified documents, as many
    as the limit allows. *)
Theorem excludes_only_lists_recent_documents
    (p : t) (q : ParsedQuery) (opts : option nat) :
  terms q = [] -> phrases q = [] -> orGroups q = [] -> regex q = None ->
  query p q opts = getRecentDocuments p (limitOf opts)
  /\ length (query p q opts) = Nat.min (limitOf opts) (length (docs p)).
Proof.
  intros Ht Hp Ho Hr.
  assert (E : query p q opts = getRecentDocuments p (limitOf opts)).
  { unfold query, isEmpty. rewrite Ht, Hp, Ho, Hr. reflexivity. }
  split; [exact E|].
  rewrite E; apply getRecentDocuments_length.
Qed.

End EmptyQuery.

Section EmptyQueryExamples.
Import Provider Spec.

Lemma excludes_only_lists_recent_documents_witness :
  query Examples.threeNotes Examples.excludesOnly (Some 10)
    = getRecentDocuments Examples.threeNotes 10
  /\ length (query Examples.threeNotes Examples.excludesOnly (Some 10)) = 3.
Proof.
  apply (excludes_only_lists_recent_documents
           Examples.threeNotes Examples.excludesOnly (Some 10));
    reflexivity.
Defined.

(** The claim C3 fails on the three notes of the scenarios: the query
    [-deadlines] returns all three of them, the note with [deadlines] in
    its body among them. *)
Lemma excludes_only_query_is_not_empty :
  excludes Examples.excludesOnly = [js "deadlines"]
  /\ terms Examples.excludesOnly = [] /\ phrases Examples.excludesOnly = []
  /\ orGroups Examples.excludesOnly = [] /\ regex Examples.excludesOnly = None
  /\ filters Examples.excludesOnly = noFilters
  /\ ids (query Examples.threeNotes Examples.excludesOnly (Some 10))
     = [js "note3.md"; js "note2.md"; js "note1.md"]
  /\ length (query Examples.threeNotes Examples.excludesOnly (Some 10)) <> 0.
Proof.
  repeat split; try (vm_compute; reflexivity).
  vm_compute; discriminate.
Qed.


End EmptyQueryExamples.

(** ** Filters *)

Section Filters.
Context {U : Unicode} {NUM : JSNumber} {CLK : Clock} {RX : RegExpEngine}.
Import Provider Spec.

Lemma fold_left_ext (A B : Type) (f g : A -> B -> A) (l : list B) (a : A) :
  (forall x y, f x y = g x y) -> fold_left f l a = fold_left g l a.
Proof.
  intros H; revert a; induction l as [|y l IH]; intros a; simpl;
    [reflexivity|].
  rewrite H; apply IH.
Qed.

(** C10.  Filters take no part in a query whose terms or or-groups give
    candidates: two queries that differ in their filters only get the same
    results. *)
Theorem filters_do_not_change_results
    (p : t) (q1 q2 : ParsedQuery) (opts : option nat) :
  sameButFilters q1 q2 ->
  termCandidates p q1 <> [] ->
  query p q1 opts = query p q2 opts.
Proof.
  intros (Hraw & Hmode & Ht & Hp & He & Ho & Hr) Hc.
  destruct q1 as [raw1 mode1 terms1 phrases1 excludes1 groups1 filters1 regex1].
  destruct q2 as [raw2 mode2 terms2 phrases2 excludes2 groups2 filters2 regex2].
  simpl in *; subst.
  assert (Hg : forall f,
             gatherCandidates p
               (Build_ParsedQuery raw2 mode2 terms2 phrases2 excludes2 groups2 f regex2)
             = termCandidates p
                 (Build_ParsedQuery raw2 mode2 terms2 phrases2 excludes2 groups2
                    filters1 regex2)).
  { intros f. unfold gatherCandidates.
    change (termCandidates p
              (Build_ParsedQuery raw2 mode2 terms2 phrases2 excludes2 groups2 f regex2))
      with (termCandidates p
              (Build_ParsedQuery raw2 mode2 terms2 phrases2 excludes2 groups2
                 filters1 regex2)).
    destruct (termCandidates p
                (Build_ParsedQuery raw2 mode2 terms2 phrases2 excludes2 groups2
                   filters1 regex2)) as [|c cs]; [contradiction|].
    reflexivity. }
  assert (Hs : forall limit,
             scoringLoop p
               (Build_ParsedQuery raw2 mode2 terms2 phrases2 excludes2 groups2
                  filters1 regex2) limit
             = scoringLoop p
                 (Build_ParsedQuery raw2 mode2 terms2 phrases2 excludes2 groups2
                    filters2 regex2) limit).
  { intros limit. unfold scoringLoop. rewrite !Hg.
    apply fold_left_ext. intros st docId. reflexivity. }
  unfold query. simpl. rewrite !Hs. reflexivity.
Qed.

End Filters.

Section FiltersExamples.
Import Provider Spec.

Lemma filters_do_not_change_results_witness :
  query Examples.threeNotes Examples.projectTaggedWork (Some 10)
  = query Examples.threeNotes Examples.projectQuery (Some 10).
Proof.
  apply filters_do_not_change_results.
  - repeat split.
  - vm_compute; discriminate.
Defined.

(** The query [project tag:work] on the three notes of the scenarios
    returns [note1.md] and [note3.md]; neither carries the tag [work]. *)
Example project_tagged_work_ignores_tag :
  ids (query Examples.threeNotes Examples.projectTaggedWork (Some 10))
  = [js "note1.md"; js "note3.md"]
  /\ tags Examples.D1 = [js "todo"; js "urgent"]
  /\ tags Examples.D3 = [js "research"; js "ideas"].
Proof. repeat split; vm_compute; reflexivity. Qed.

End FiltersExamples.

(** ** Lowercasing and length *)

Section LowercaseLength.
Context {U : Unicode}.
Import Spec.

Lemma toCodePoints_pair (h l : codeunit) (t : jsstring) :
  toCodePoints (h :: l :: t)
  = if isHighSurrogate h && isLowSurrogate l
    then pairCodePoint h l :: toCodePoints t
    else h :: toCodePoints (l :: t).
Proof. reflexivity. Qed.

Lemma fromCodePoints_cons (c : codepoint) (l : list codepoint) :
  fromCodePoints (c :: l) = fromCodePoint c ++ fromCodePoints l.
Proof. reflexivity. Qed.

Lemma fromCodePoint_unit (c : codeunit) :
  (c < 65536)%N -> fromCodePoint c = [c].
Proof.
  intros H; unfold fromCodePoint.
  destruct (N.ltb_spec c 65536); [reflexivity|lia].
Qed.

Lemma fromCodePoint_pair_length (h l : codeunit) :
  length (fromCodePoint (pairCodePoint h l)) = 2.
Proof.
  unfold fromCodePoint.
  destruct (N.ltb_spec (pairCodePoint h l) 65536) as [H|H]; [|reflexivity].
  unfold pairCodePoint in H. lia.
Qed.

(** A string has as many code units as its code points take. *)
Lemma toCodePoints_length (n : nat) (s : jsstring) :
  length s <= n -> isString s ->
  length (fromCodePoints (toCodePoints s)) = length s.
Proof.
  revert s; induction n as [|n IH]; intros s Hn Hs.
  - destruct s; [reflexivity|simpl in Hn; lia].
  - destruct s as [|h [|l t]]; [reflexivity| |].
    + inversion Hs; subst.
      change (toCodePoints [h]) with [h].
      rewrite fromCodePoints_cons, fromCodePoint_unit by assumption.
      reflexivity.
    + rewrite toCodePoints_pair.
      inversion Hs as [|? ? Hh Hs']; subst.
      cbn [length] in Hn.
      destruct (isHighSurrogate h && isLowSurrogate l).
      * inversion Hs' as [|? ? Hl Hs'']; subst.
        rewrite fromCodePoints_cons, length_app, fromCodePoint_pair_length.
        rewrite IH; [reflexivity|lia|exact Hs''].
      * rewrite fromCodePoints_cons, length_app,
          (fromCodePoint_unit h Hh).
        rewrite IH; [reflexivity|cbn [length]; lia|exact Hs'].
Qed.

Lemma lowerCodePoints_length (cps before : list codepoint) :
  (forall c, In c cps -> forall b a,
        length (fromCodePoints (lowercaseMapping b c a))
        = length (fromCodePoint c)) ->
  length (Normalize.lowerCodePoints before cps) = length (fromCodePoints cps).
Proof.
  revert before; induction cps as [|c cps IH]; intros before H;
    [reflexivity|].
  cbn [Normalize.lowerCodePoints].
  rewrite fromCodePoints_cons, !length_app, H by (left; reflexivity).
  rewrite IH; [reflexivity|].
  intros c' Hin; apply H; right; exact Hin.
Qed.

(** C8, as the code has it.  With diacritics kept, [normalizeText] lowers
    the case and nothing else; the result has the length of the input when
    the lowercase mapping of each of its code points takes as many code
    units as the code point does. *)
Theorem normalizeText_preserves_length_of_plain_case (s : jsstring) :
  isString s ->
  (forall c, In c (toCodePoints s) -> forall before after,
        length (fromCodePoints (lowercaseMapping before c after))
        = length (fromCodePoint c)) ->
  length (Normalize.normalizeText s true) = length s.
Proof.
  intros Hs H.
  unfold Normalize.normalizeText, Normalize.toLowerCase; cbn [negb].
  rewrite lowerCodePoints_length by exact H.
  apply (toCodePoints_length (length s)); [lia|exact Hs].
Qed.

End LowercaseLength.

Lemma normalizeText_preserves_length_of_plain_case_witness :
  length (Normalize.normalizeText (js "Caf" ++ [201%N]) true) = 4.
Proof.
  apply (normalizeText_preserves_length_of_plain_case (js "Caf" ++ [201%N])).
  - repeat constructor.
  - intros c Hin before after; simpl in Hin.
    repeat (destruct Hin as [<-|Hin]; [reflexivity|]).
    contradiction.
Defined.

(** The claim C8 fails on U+0130, the capital I with a dot above: its
    lowercase is the letter i and the combining dot U+0307, two code
    units. *)
Lemma lowercase_of_dotted_capital_I_is_longer :
  Normalize.normalizeText [304%N] true = [105%N; 775%N]
  /\ length (Normalize.normalizeText [304%N] true) <> length [304%N].
Proof.
  split; [reflexivity|discriminate].
Qed.

(** ** The stream and the list *)

Section StreamAndQuery.
Context {U : Unicode} {NUM : JSNumber} {CLK : Clock} {RX : RegExpEngine}.
Import Provider Spec.

Lemma refresh_id (mutated : list SearchResult) (r : SearchResult) :
  sr_id (refresh mutated r) = sr_id r.
Proof.
  unfold refresh.
  destruct (find (fun m => jseqb (sr_id m) (sr_id r)) mutated) as [m|] eqn:E;
    [|reflexivity].
  apply find_some in E as [_ E]. apply jseqb_eq in E. exact E.
Qed.

Lemma ids_refresh (mutated l : list SearchResult) :
  ids (map (refresh mutated) l) = ids l.
Proof.
  unfold ids. rewrite map_map. apply map_ext. apply refresh_id.
Qed.

Lemma ids_firstn (n : nat) (l : list SearchResult) :
  ids (firstn n l) = firstn n (ids l).
Proof. unfold ids. symmetry. apply firstn_map. Qed.

(** The ids [query] returns are the first ids the stream yields: as many
    as the limit says, and one when the limit is 0. *)
Lemma query_ids_prefix_of_stream (p : t) (q : ParsedQuery) (opts : option nat) :
  ids (query p q opts)
  = firstn (Nat.max 1 (limitOf opts)) (ids (queryStream p q opts)).
Proof.
  unfold query, queryStream.
  destruct (isEmpty q).
  - symmetry. apply firstn_all2.
    unfold ids. rewrite length_map, getRecentDocuments_length. lia.
  - set (st := scoringLoop p q (limitOf opts)).
    set (wanted := Nat.max 1 (limitOf opts)).
    destruct (Nat.leb_spec wanted (length (ss_yielded st))) as [H|H].
    + rewrite ids_firstn. unfold ids at 2. rewrite map_app.
      rewrite firstn_app, length_map.
      replace (wanted - length (ss_yielded st)) with 0 by lia.
      rewrite firstn_O, app_nil_r. reflexivity.
    + destruct (regex q) as [regexSpec|].
      * rewrite ids_firstn. f_equal.
        unfold ids. rewrite !map_app. f_equal.
        apply ids_refresh.
      * apply ids_firstn.
Qed.

(** *** The size of the heap *)

Lemma setItem_length (T : Type) (l : list T) (i : nat) (x : T) :
  length (MinHeap.setItem l i x) = length l.
Proof.
  revert i; induction l as [|y l IH]; intros i; [reflexivity|].
  destruct i; simpl; [reflexivity|]. rewrite IH; reflexivity.
Qed.

Lemma swap_length (T : Type) (l : list T) (i j : nat) :
  length (MinHeap.swap l i j) = length l.
Proof.
  unfold MinHeap.swap.
  destruct (nth_error l i); [|reflexivity].
  destruct (nth_error l j); [|reflexivity].
  rewrite !setItem_length; reflexivity.
Qed.

Lemma heapifyUp_loop_length (T : Type) (cmp : T -> T -> comparison)
    (fuel : nat) (l : list T) (i : nat) :
  length (MinHeap.heapifyUp_loop cmp fuel l i) = length l.
Proof.
  revert l i; induction fuel as [|fuel IH]; intros l i; [reflexivity|].
  cbn [MinHeap.heapifyUp_loop].
  destruct (0 <? i); [|reflexivity].
  match goal with
  | |- context [if ?c then _ else l] => destruct c; [|reflexivity]
  end.
  rewrite IH, swap_length; reflexivity.
Qed.

Lemma heapifyDown_loop_length (T : Type) (cmp : T -> T -> comparison)
    (fuel : nat) (l : list T) (i : nat) :
  length (MinHeap.heapifyDown_loop cmp fuel l i) = length l.
Proof.
  revert l i; induction fuel as [|fuel IH]; intros l i; [reflexivity|].
  cbn [MinHeap.heapifyDown_loop].
  match goal with
  | |- context [if ?c then l else _] => destruct c; [reflexivity|]
  end.
  rewrite IH, swap_length; reflexivity.
Qed.

(** A bounded heap stays within its bound. *)
Lemma push_size (T : Type) (cmp : T -> T -> comparison)
    (h : MinHeap.t T) (x : T) :
  MinHeap.maxSize (fst (MinHeap.push cmp h x)) = MinHeap.maxSize h
  /\ (0 < MinHeap.maxSize h ->
      MinHeap.size h <= MinHeap.maxSize h ->
      MinHeap.size (fst (MinHeap.push cmp h x)) <= MinHeap.maxSize h).
Proof.
  unfold MinHeap.push, MinHeap.size.
  destruct (Nat.ltb_spec 0 (MinHeap.maxSize h)) as [Hpos|Hpos];
    destruct (Nat.leb_spec (MinHeap.maxSize h) (length (MinHeap.items h)))
      as [Hfull|Hfull]; cbn [andb].
  - destruct (MinHeap.items h) as [|top rest] eqn:E.
    + cbn [fst]. split; [reflexivity|intros _ _]. rewrite E. simpl. lia.
    + destruct (cmp x top); cbn [fst MinHeap.maxSize MinHeap.items];
        (split; [reflexivity|intros _ Hle]); rewrite ?E; try exact Hle.
      unfold MinHeap.heapifyDown.
      rewrite heapifyDown_loop_length, setItem_length. exact Hle.
  - cbn [fst MinHeap.maxSize MinHeap.items].
    split; [reflexivity|intros _ _].
    unfold MinHeap.heapifyUp.
    rewrite heapifyUp_loop_length, length_app; simpl. lia.
  - cbn [fst MinHeap.maxSize MinHeap.items]. split; [reflexivity|lia].
  - cbn [fst MinHeap.maxSize MinHeap.items]. split; [reflexivity|lia].
Qed.

Lemma pop_size (T : Type) (cmp : T -> T -> comparison) (h : MinHeap.t T) :
  match MinHeap.pop cmp h with
  | (h', Some _) => S (MinHeap.size h') = MinHeap.size h
  | (_, None) => MinHeap.size h = 0
  end.
Proof.
  unfold MinHeap.pop, MinHeap.size.
  destruct (MinHeap.items h) as [|a [|b l]] eqn:E; [reflexivity|reflexivity|].
  cbn [MinHeap.items].
  unfold MinHeap.heapifyDown.
  rewrite heapifyDown_loop_length, setItem_length.
  rewrite removelast_firstn_len, length_firstn. simpl. lia.
Qed.

Lemma extractAll_loop_length (T : Type) (cmp : T -> T -> comparison)
    (fuel : nat) (h : MinHeap.t T) :
  MinHeap.size h = fuel ->
  length (MinHeap.extractAll_loop cmp fuel h) = fuel.
Proof.
  revert h; induction fuel as [|fuel IH]; intros h Hs; [reflexivity|].
  cbn [MinHeap.extractAll_loop].
  pose proof (pop_size _ cmp h) as Hp.
  destruct (MinHeap.pop cmp h) as [h' [x|]].
  - simpl. rewrite IH; [reflexivity|lia].
  - lia.
Qed.

Lemma extractAll_length (T : Type) (cmp : T -> T -> comparison) (h : MinHeap.t T) :
  length (MinHeap.extractAll cmp h) = MinHeap.size h.
Proof.
  unfold MinHeap.extractAll. apply extractAll_loop_length. reflexivity.
Qed.

(** *** Fewer than one hundred candidates *)

(** What holds after [k] candidates went through the scoring loop. *)
Lemma scoreCandidate_invariant (p : t) (q : ParsedQuery) (limit k : nat)
    (st : StreamState) (docId : jsstring) :
  streamInvariant limit k st ->
  streamInvariant limit (S k) (scoreCandidate p q limit st docId).
Proof.
  intros (Hmax & Hsize & Hcount & Hquiet).
  unfold scoreCandidate.
  destruct (map_get (docs p) docId) as [docMetadata|].
  2:{ split; [exact Hmax|split; [exact Hsize|split; [lia|]]].
      intros Hk; apply Hquiet; lia. }
  match goal with
  | |- context [0 <? MinHeap.size ?h] => set (heap1 := h)
  end.
  assert (Hheap : MinHeap.maxSize heap1 = limit
                  /\ (0 < limit -> MinHeap.size heap1 <= limit)).
  { unfold heap1.
    destruct (Scorer.createScorer (scorerConfig (options p)) (dm_doc docMetadata) q)
      as [scored|]; [|auto].
    destruct (nltb (of_Z 0) (Scorer.sd_score scored)); [|auto].
    match goal with
    | |- context [MinHeap.push ?c ?h ?x] =>
        destruct (push_size _ c h x) as [H1 H2]
    end.
    rewrite H1, Hmax in *. split; [reflexivity|].
    intros Hl. apply H2; [exact Hl|auto]. }
  destruct Hheap as [Hmax1 Hsize1].
  destruct ((S (ss_processedCount st) mod 100 =? 0) && (0 <? MinHeap.size heap1))
    eqn:Hemit.
  - assert (Hk : ~ S k < 100).
    { intros Hk. apply andb_true_iff in Hemit as [Hmod _].
      apply Nat.eqb_eq in Hmod.
      rewrite Nat.mod_small in Hmod by lia. discriminate. }
    destruct (emit _ _) as [out ids0].
    split; [exact Hmax1|split; [exact Hsize1|split; [cbn; lia|]]].
    intros Hk'; contradiction.
  - split; [exact Hmax1|split; [exact Hsize1|split; [cbn; lia|]]].
    intros Hk; apply Hquiet; lia.
Qed.

Lemma scoringLoop_invariant (p : t) (q : ParsedQuery) (limit : nat) :
  streamInvariant limit (length (gatherCandidates p q)) (scoringLoop p q limit).
Proof.
  unfold scoringLoop.
  assert (H : forall (l : list jsstring) (k : nat) (st : StreamState),
             streamInvariant limit k st ->
             streamInvariant limit (k + length l)
               (fold_left (scoreCandidate p q limit) l st)).
  { induction l as [|docId l IH]; intros k st Hst; simpl.
    - rewrite Nat.add_0_r. exact Hst.
    - rewrite Nat.add_succ_r.
      apply (IH (S k)). apply scoreCandidate_invariant. exact Hst. }
  apply (H _ 0).
  split; [reflexivity|split; [cbn; lia|split; [cbn; lia|]]].
  intros _; split; reflexivity.
Qed.

(** Below one hundred candidates nothing is emitted on the way, and the
    list [query] returns is the sequence [queryStream] yields. *)
Lemma query_is_stream_below_hundred
    (p : t) (q : ParsedQuery) (limit : nat) :
  0 < limit ->
  length (gatherCandidates p q) < 100 ->
  query p q (Some limit) = queryStream p q (Some limit).
Proof.
  intros Hlimit Hfew.
  unfold query, queryStream. cbn [limitOf].
  destruct (isEmpty q); [reflexivity|].
  destruct (scoringLoop_invariant p q limit) as (Hmax & Hsize & _ & Hquiet).
  destruct (Hquiet Hfew) as [Hy Hids].
  set (st := scoringLoop p q limit) in *.
  rewrite Hy. cbn [length app map].
  replace (Nat.max 1 limit) with limit by lia.
  destruct (Nat.leb_spec limit 0) as [H0|_]; [lia|].
  destruct (regex q) as [regexSpec|].
  - apply firstn_all2.
    etransitivity; [apply filter_length_le|].
    unfold applyRegexFilter.
    destruct (regexFiltered p (finalResults st) regexSpec);
      apply firstn_le_length.
  - apply firstn_all2.
    etransitivity; [apply filter_length_le|].
    unfold finalResults. rewrite length_rev, extractAll_length.
    apply Hsize. exact Hlimit.
Qed.

End StreamAndQuery.

(** ** Intermediate emissions, on one hundred and two notes *)

Section StreamExamples.
Import Provider Spec Examples.

(** C1, the defect.  With limit 2, the hundredth candidate triggers an
    emission of the best result so far, [n0.md] with score 4; the two
    candidates that follow score higher, and [query] returns [n0.md] ahead
    of [n101.md], score 7: not by descending score.  The two best notes
    are [n101.md] and [n100.md]. *)
Theorem query_result_not_sorted_by_score :
  ids (query manyNotes noteQuery (Some 2)) = [js "n0.md"; js "n101.md"]
  /\ scores (query manyNotes noteQuery (Some 2)) = [4%Q; 7%Q]
  /\ sortedDesc (scores (query manyNotes noteQuery (Some 2))) = false
  /\ ids (finalResults (scoringLoop manyNotes noteQuery 2))
     = [js "n101.md"; js "n100.md"].
Proof. repeat split; vm_compute; reflexivity. Qed.

(** C2, the defect.  On the same input the stream yields three ids,
    [n0.md] from the emission and then the two best; [query] stops at the
    limit and returns the first two, so that [n100.md] is in the stream
    and not in the result of [query]. *)
Theorem stream_yields_ids_query_does_not_return :
  ids (queryStream manyNotes noteQuery (Some 2))
  = [js "n0.md"; js "n101.md"; js "n100.md"]
  /\ ids (query manyNotes noteQuery (Some 2)) = [js "n0.md"; js "n101.md"]
  /\ sameIdSet (ids (queryStream manyNotes noteQuery (Some 2)))
       (ids (query manyNotes noteQuery (Some 2))) = false.
Proof. repeat split; vm_compute; reflexivity. Qed.

(** C4, the defect.  The pattern [/up/] is compiled once with the global
    flag, and [test] leaves [lastIndex] behind: after the match in
    [backup notes] the title [up notes] is searched from index 6 on and
    the document is dropped, although its title matches; once the first
    document is removed from the index, the same query keeps it. *)
Theorem regex_filter_drops_matching_title :
  ids (query twoNotes (mkQuery [js "notes"] [] noFilters None) (Some 10))
  = [js "a.md"; js "b.md"]
  /\ (exists rx : RegExp,
         RegExp_new (js "up") (js "g") = Some rx
         /\ rx (title upNotes) 0 = Some (0, 2))
  /\ ids (query twoNotes upQuery (Some 10)) = [js "a.md"]
  /\ ids (query (remove twoNotes (js "a.md")) upQuery (Some 10)) = [js "b.md"].
Proof.
  repeat split; try (vm_compute; reflexivity).
  eexists; split; [reflexivity|vm_compute; reflexivity].
Qed.

End StreamExamples.

(** ** The flags of a regex pattern *)

Section RegexFlags.
Context {U : Unicode} {RX : RegExpEngine}.
Import QueryParser Spec ParserSpec.

Lemma regexBody_slash (rest acc : jsstring) :
  regexBody (slash :: rest) acc = Some (rev acc, rest).
Proof. reflexivity. Qed.

Lemma regexBody_step (c d : codeunit) (r acc : jsstring) :
  regexBody (c :: d :: r) acc
  = if N.eqb c slash then Some (rev acc, d :: r)
    else if N.eqb c backslash && N.eqb d slash
         then match regexBody r (d :: c :: acc) with
              | Some m => Some m
              | None => Some (rev (c :: acc), r)
              end
         else regexBody (d :: r) (c :: acc).
Proof. reflexivity. Qed.

(** *** What a match of the extraction pattern is made of *)

(** The body read is what stands before the closing slash. *)
Lemma regexBody_sound (n : nat) (s acc p rest : jsstring) :
  length s <= n ->
  regexBody s acc = Some (p, rest) ->
  exists t, p = rev acc ++ t /\ s = t ++ slash :: rest.
Proof.
  revert s acc; induction n as [|n IH]; intros s acc Hn H.
  - destruct s; [discriminate|simpl in Hn; lia].
  - destruct s as [|c r]; [discriminate|].
    destruct r as [|d r'].
    + cbn in H. destruct (N.eqb_spec c slash) as [->|_]; [|discriminate].
      injection H as <- <-. exists []. rewrite app_nil_r. split; reflexivity.
    + rewrite regexBody_step in H.
      destruct (N.eqb_spec c slash) as [->|_].
      { injection H as <- <-. exists []. rewrite app_nil_r.
        split; reflexivity. }
      destruct (N.eqb c backslash && N.eqb d slash) eqn:Hpair.
      * apply andb_true_iff in Hpair as [_ Hd].
        apply N.eqb_eq in Hd; subst d.
        destruct (regexBody r' (slash :: c :: acc)) as [[p' rest']|] eqn:Hb.
        -- injection H as <- <-.
           apply IH in Hb; [|simpl in Hn; lia].
           destruct Hb as (t & -> & ->).
           exists (c :: slash :: t). cbn [rev app].
           rewrite <- !app_assoc. split; reflexivity.
        -- injection H as <- <-. exists [c]. split; reflexivity.
      * apply IH in H; [|simpl in Hn |- *; lia].
        destruct H as (t & -> & E).
        exists (c :: t). cbn [rev app]. rewrite <- app_assoc, E.
        split; reflexivity.
Qed.

Lemma regexStart_sound (r p rest : jsstring) :
  regexStart r = Some (p, rest) ->
  p <> [] /\ r = p ++ slash :: rest.
Proof.
  unfold regexStart. intros H.
  destruct r as [|d r']; [discriminate|].
  destruct (N.eqb d slash); [discriminate|].
  destruct r' as [|e r'']; [discriminate|].
  destruct (N.eqb d backslash && N.eqb e slash) eqn:Hpair.
  - apply andb_true_iff in Hpair as [_ He].
    apply N.eqb_eq in He; subst e.
    destruct (regexBody r'' [slash; d]) as [[p' rest']|] eqn:Hb.
    + injection H as <- <-.
      apply (regexBody_sound (length r'')) in Hb; [|lia].
      destruct Hb as (t & -> & ->). split; [discriminate|reflexivity].
    + injection H as <- <-. split; [discriminate|reflexivity].
  - apply (regexBody_sound (length (e :: r''))) in H; [|lia].
    destruct H as (t & -> & ->). split; [discriminate|reflexivity].
Qed.

Lemma regexFlagsAt_flagsRead (rest : jsstring) :
  fst (regexFlagsAt rest) = flagsRead rest.
Proof.
  destruct rest as [|f rest]; [reflexivity|].
  unfold regexFlagsAt, flagsRead. destruct (N.eqb f letter_i); reflexivity.
Qed.

(** After the flags read comes the rest of the text, whatever it is. *)
Lemma regexFlagsAt_after (rest : jsstring) :
  snd (regexFlagsAt rest) = skipn (length (flagsRead rest)) rest.
Proof.
  destruct rest as [|f rest]; [reflexivity|].
  unfold regexFlagsAt, flagsRead. destruct (N.eqb f letter_i); reflexivity.
Qed.

Lemma regexAt_sound (s p f after : jsstring) :
  regexAt s = Some (p, f, after) ->
  exists rest,
    s = slash :: p ++ slash :: rest /\ p <> []
    /\ f = flagsRead rest /\ after = skipn (length (flagsRead rest)) rest.
Proof.
  unfold regexAt. intros H.
  destruct s as [|c r]; [discriminate|].
  destruct (N.eqb_spec c slash) as [->|_]; [|discriminate].
  destruct (regexStart r) as [[pattern rest]|] eqn:Hs; [|discriminate].
  injection H as <- <- <-.
  apply regexStart_sound in Hs as [Hne ->].
  exists rest. rewrite regexFlagsAt_flagsRead, regexFlagsAt_after.
  repeat split; assumption.
Qed.

Lemma regexAt_not_slash (c : codeunit) (s : jsstring) :
  N.eqb c slash = false -> regexAt (c :: s) = None.
Proof. intros H; unfold regexAt; rewrite H; reflexivity. Qed.

Lemma regexMatch_unfold (s : jsstring) (i : nat) :
  regexMatch s i
  = match regexAt s with
    | Some (p, f, rest) => Some (i, p, f, rest)
    | None => match s with
              | [] => None
              | _ :: r => regexMatch r (S i)
              end
    end.
Proof. destruct s; reflexivity. Qed.

(** A match found in a text: where it stands and what it is made of. *)
Lemma regexMatch_sound (s : jsstring) (i0 i : nat) (p f after : jsstring) :
  regexMatch s i0 = Some (i, p, f, after) ->
  exists pre rest,
    s = pre ++ slash :: p ++ slash :: rest /\ i = i0 + length pre
    /\ p <> [] /\ f = flagsRead rest
    /\ after = skipn (length (flagsRead rest)) rest.
Proof.
  revert i0; induction s as [|c s IH]; intros i0 H;
    rewrite regexMatch_unfold in H.
  - discriminate.
  - destruct (regexAt (c :: s)) as [[[p' f'] after']|] eqn:Hat.
    + injection H as <- <- <- <-.
      destruct (regexAt_sound _ _ _ _ Hat) as (rest & E & Hne & Hf & Ha).
      exists [], rest. cbn [app length]. rewrite Nat.add_0_r.
      repeat split; assumption.
    + apply IH in H as (pre & rest & -> & -> & Hne & Hf & Ha).
      exists (c :: pre), rest. cbn [app length].
      repeat split; try assumption. lia.
Qed.

(** *** Patterns the extraction finds *)

Lemma regexBody_items (n : nat) (t acc rest : jsstring) :
  length t <= n ->
  patternItems t = true ->
  regexBody (t ++ slash :: rest) acc = Some (rev acc ++ t, rest).
Proof.
  revert t acc; induction n as [|n IH]; intros t acc Hn Hp.
  - destruct t; [|simpl in Hn; lia].
    cbn [app]. rewrite regexBody_slash, app_nil_r. reflexivity.
  - destruct t as [|c r].
    { cbn [app]. rewrite regexBody_slash, app_nil_r. reflexivity. }
    cbn [patternItems] in Hp.
    destruct (N.eqb c slash) eqn:Hc; [discriminate|].
    destruct r as [|d r'].
    + destruct (N.eqb c backslash) eqn:Hb; [discriminate|].
      cbn [app]. rewrite regexBody_step, Hc, Hb. cbn [andb].
      rewrite regexBody_slash. reflexivity.
    + cbn [app]. rewrite regexBody_step, Hc.
      destruct (N.eqb c backslash) eqn:Hb; cbn [andb].
      * destruct (N.eqb d slash) eqn:Hd.
        -- rewrite (IH r' (d :: c :: acc)) by (simpl in Hn; try lia; exact Hp).
           cbn [rev]. rewrite <- !app_assoc. reflexivity.
        -- change (d :: r' ++ slash :: rest) with ((d :: r') ++ slash :: rest).
           rewrite (IH (d :: r') (c :: acc)) by (simpl in Hn |- *; try lia; exact Hp).
           cbn [rev]. rewrite <- !app_assoc. reflexivity.
      * change (d :: r' ++ slash :: rest) with ((d :: r') ++ slash :: rest).
        rewrite (IH (d :: r') (c :: acc)) by (simpl in Hn |- *; try lia; exact Hp).
        cbn [rev]. rewrite <- !app_assoc. reflexivity.
Qed.

Lemma regexStart_items (pat rest : jsstring) :
  pat <> [] -> patternItems pat = true ->
  regexStart (pat ++ slash :: rest) = Some (pat, rest).
Proof.
  intros Hne Hp.
  destruct pat as [|c r]; [contradiction|].
  cbn [patternItems] in Hp. cbn [app]. unfold regexStart.
  destruct (N.eqb c slash) eqn:Hc; [discriminate|].
  destruct r as [|d r'].
  - destruct (N.eqb c backslash) eqn:Hb; [discriminate|].
    cbn [app andb]. rewrite regexBody_slash. reflexivity.
  - cbn [app].
    destruct (N.eqb c backslash) eqn:Hb; cbn [andb].
    + destruct (N.eqb d slash) eqn:Hd.
      * rewrite (regexBody_items (length r') r') by (try lia; exact Hp).
        reflexivity.
      * change (d :: r' ++ slash :: rest) with ((d :: r') ++ slash :: rest).
        rewrite (regexBody_items (length (d :: r')) (d :: r'))
          by (try lia; exact Hp).
        reflexivity.
    + change (d :: r' ++ slash :: rest) with ((d :: r') ++ slash :: rest).
      rewrite (regexBody_items (length (d :: r')) (d :: r'))
        by (try lia; exact Hp).
      reflexivity.
Qed.

Lemma regexAt_items (pat rest : jsstring) :
  pat <> [] -> patternItems pat = true ->
  regexAt (slash :: pat ++ slash :: rest)
  = Some (pat, flagsRead rest, skipn (length (flagsRead rest)) rest).
Proof.
  intros Hne Hp.
  unfold regexAt. rewrite N.eqb_refl.
  rewrite regexStart_items by assumption.
  rewrite regexFlagsAt_flagsRead, regexFlagsAt_after. reflexivity.
Qed.

Lemma regexMatch_skip (pre s : jsstring) (i : nat) (p f after : jsstring) :
  ~ In slash pre ->
  regexAt (slash :: s) = Some (p, f, after) ->
  regexMatch (pre ++ slash :: s) i = Some (i + length pre, p, f, after).
Proof.
  intros Hpre Hat; revert i; induction pre as [|c pre IH]; intros i.
  - cbn [app length]. rewrite regexMatch_unfold, Hat, Nat.add_0_r. reflexivity.
  - assert (Hc : N.eqb c slash = false).
    { destruct (N.eqb_spec c slash) as [E|E]; [|reflexivity].
      exfalso; apply Hpre; left; auto. }
    cbn [app length].
    rewrite regexMatch_unfold, (regexAt_not_slash c _ Hc).
    rewrite IH by (intros H; apply Hpre; right; exact H).
    rewrite Nat.add_succ_r. reflexivity.
Qed.

(** *** The parse around the pattern *)

(** The parse in files mode when the extraction pattern matches. *)
Lemma parse_with_match
    (input : jsstring) (settings : QueryParserSettings)
    (i : nat) (p f after : jsstring) :
  let text := trim (removePhrases (trim input) None) in
  let r := parseQueryWithErrors input settings in
  isCommandsQuery (trim input) settings = false ->
  regexMatch text 0 = Some (i, p, f, after) ->
  readFrom (pr_query r) (trim (firstn i text ++ after))
  /\ match RegExp_new p f with
     | Some _ =>
         regex (pr_query r) = Some {| rx_source := p; rx_flags := f |}
         /\ pr_errors r = []
     | None =>
         regex (pr_query r) = None
         /\ exists position,
              pr_errors r
              = [{| err_type := regex_error; err_position := position |}]
     end.
Proof.
  intros text r Hcmd Hm. subst r text.
  unfold parseQueryWithErrors, readFrom. rewrite Hcmd, Hm.
  destruct (RegExp_new p f) as [rx|];
    cbv zeta;
    match goal with
    | |- context [closeOrGroup ?st] => destruct (closeOrGroup st) as [ts gs]
    end;
    cbn [pr_query pr_errors terms orGroups excludes filters regex fst snd].
  - repeat split; reflexivity.
  - split; [repeat split; reflexivity|].
    split; [reflexivity|eexists; reflexivity].
Qed.

(** The parse in files mode when it does not. *)
Lemma parse_without_match
    (input : jsstring) (settings : QueryParserSettings) :
  isCommandsQuery (trim input) settings = false ->
  regexMatch (trim (removePhrases (trim input) None)) 0 = None ->
  regex (parseQuery input settings) = None.
Proof.
  intros Hcmd Hm. unfold parseQuery, parseQueryWithErrors.
  rewrite Hcmd, Hm. cbv zeta.
  match goal with
  | |- context [closeOrGroup ?st] => destruct (closeOrGroup st) as [ts gs]
  end.
  reflexivity.
Qed.

Lemma firstn_length_app (A : Type) (l m : list A) :
  firstn (length l) (l ++ m) = l.
Proof.
  rewrite firstn_app, Nat.sub_diag, firstn_all. cbn [firstn].
  apply app_nil_r.
Qed.

(** A regex retained was written between two slashes of the text left
    once the phrases are gone, and its flags are those read after the
    closing slash. *)
Lemma retained_regex_shape
    (input : jsstring) (settings : QueryParserSettings) (spec : RegexSpec) :
  let text := trim (removePhrases (trim input) None) in
  let r := parseQueryWithErrors input settings in
  isCommandsQuery (trim input) settings = false ->
  regex (pr_query r) = Some spec ->
  exists pre rest,
    text = pre ++ slash :: rx_source spec ++ slash :: rest
    /\ rx_source spec <> []
    /\ rx_flags spec = flagsRead rest
    /\ RegExp_new (rx_source spec) (flagsRead rest) <> None
    /\ pr_errors r = []
    /\ readFrom (pr_query r) (residualText pre rest).
Proof.
  intros text r Hcmd Hspec.
  destruct (regexMatch text 0) as [[[[i p] f] after]|] eqn:Hm.
  - destruct (parse_with_match input settings i p f after Hcmd Hm)
      as [Hread Hrx].
    fold r text in Hread, Hrx.
    destruct (regexMatch_sound _ _ _ _ _ _ Hm)
      as (pre & rest & Htext & Hi & Hne & Hf & Ha).
    destruct (RegExp_new p f) as [rx|] eqn:Hnew.
    + destruct Hrx as [Hreg Herr].
      rewrite Hreg in Hspec. injection Hspec as <-. cbn [rx_source rx_flags].
      exists pre, rest.
      split; [exact Htext|]. split; [exact Hne|]. split; [exact Hf|].
      split; [rewrite <- Hf, Hnew; discriminate|]. split; [exact Herr|].
      unfold residualText.
      rewrite Htext, Hi, Ha in Hread. cbn [Nat.add] in Hread.
      rewrite firstn_length_app in Hread. exact Hread.
    + destruct Hrx as [Hreg _]. rewrite Hreg in Hspec. discriminate.
  - pose proof (parse_without_match input settings Hcmd Hm) as Hnone.
    unfold parseQuery in Hnone. fold r in Hnone.
    rewrite Hnone in Hspec. discriminate.
Qed.

(** The pattern the first slash of the text opens is the one taken
    out. *)
Lemma opened_pattern_is_read
    (input : jsstring) (settings : QueryParserSettings)
    (pre pat rest : jsstring) :
  let text := trim (removePhrases (trim input) None) in
  let r := parseQueryWithErrors input settings in
  isCommandsQuery (trim input) settings = false ->
  text = pre ++ slash :: pat ++ slash :: rest ->
  ~ In slash pre -> pat <> [] -> patternItems pat = true ->
  readFrom (pr_query r) (residualText pre rest)
  /\ match RegExp_new pat (flagsRead rest) with
     | Some _ =>
         regex (pr_query r)
         = Some {| rx_source := pat; rx_flags := flagsRead rest |}
         /\ pr_errors r = []
     | None =>
         regex (pr_query r) = None
         /\ exists position,
              pr_errors r
              = [{| err_type := regex_error; err_position := position |}]
     end.
Proof.
  intros text r Hcmd Htext Hpre Hne Hp.
  pose proof (regexMatch_skip pre _ 0 _ _ _ Hpre
                (regexAt_items pat rest Hne Hp)) as Hm.
  rewrite <- Htext in Hm. fold text in Hm.
  destruct (parse_with_match input settings _ _ _ _ Hcmd Hm) as [Hread Hrx].
  fold r text in Hread, Hrx.
  split; [|exact Hrx].
  unfold residualText.
  rewrite Htext in Hread. cbn [Nat.add] in Hread.
  rewrite firstn_length_app in Hread. exact Hread.
Qed.

(** C7, as the code has it.  Of the flags written after the closing
    slash the parser reads [i] and nothing else.  In files mode, with
    [text] the input once the quoted phrases are taken out:
    - a regex the parser retains stands between two slashes of [text], and
      its flags are the letter [i] when that letter follows the closing
      slash, and none otherwise; the terms, or-groups, excludes and
      filters are read from what stands before the opening slash and after
      the closing slash or that [i], so that any other flag letter is
      among the text they are read from;
    - the pattern the first slash of [text] opens, made of escaped slashes
      and characters other than the slash, is the one tried: it is
      retained with the flags read when the engine accepts it, and
      otherwise no regex is retained and one regex error is reported. *)
Theorem parser_reads_flag_i_only
    (settings : QueryParserSettings) (input : jsstring) :
  isCommandsQuery (trim input) settings = false ->
  let text := trim (removePhrases (trim input) None) in
  let r := parseQueryWithErrors input settings in
  (forall spec,
     regex (pr_query r) = Some spec ->
     exists pre rest,
       text = pre ++ slash :: rx_source spec ++ slash :: rest
       /\ rx_source spec <> []
       /\ rx_flags spec = flagsRead rest
       /\ RegExp_new (rx_source spec) (flagsRead rest) <> None
       /\ pr_errors r = []
       /\ readFrom (pr_query r) (residualText pre rest))
  /\ (forall pre pat rest,
        text = pre ++ slash :: pat ++ slash :: rest ->
        ~ In slash pre -> pat <> [] -> patternItems pat = true ->
        readFrom (pr_query r) (residualText pre rest)
        /\ match RegExp_new pat (flagsRead rest) with
           | Some _ =>
               regex (pr_query r)
               = Some {| rx_source := pat; rx_flags := flagsRead rest |}
               /\ pr_errors r = []
           | None =>
               regex (pr_query r) = None
               /\ exists position,
                    pr_errors r
                    = [{| err_type := regex_error;
                          err_position := position |}]
           end).
Proof.
  intros Hcmd text r. split.
  - intros spec. exact (retained_regex_shape input settings spec Hcmd).
  - intros pre pat rest.
    exact (opened_pattern_is_read input settings pre pat rest Hcmd).
Qed.

End RegexFlags.

(** A phrase stands before the pattern and the letters [gi] after it: the
    regex is kept without flags, and [gi] is a term like the others. *)
Lemma parser_reads_flag_i_only_witness :
  let input :=
    js "see " ++ [QueryParser.quote] ++ js "a b" ++ [QueryParser.quote]
    ++ js " /pat/gi z" in
  let q := QueryParser.parseQuery input Examples.defaultSettings in
  regex q = Some {| rx_source := js "pat"; rx_flags := [] |}
  /\ phrases q = [js "a b"]
  /\ terms q = [js "see"; js "gi"; js "z"].
Proof.
  intros input q.
  assert (Hcmd : QueryParser.isCommandsQuery (trim input)
                   Examples.defaultSettings = false) by reflexivity.
  destruct (parser_reads_flag_i_only Examples.defaultSettings input Hcmd)
    as [_ H].
  destruct (H (js "see  ") (js "pat") (js "gi z"))
    as [(Hterms & _) Hrx].
  - vm_compute. reflexivity.
  - vm_compute. intuition discriminate.
  - discriminate.
  - reflexivity.
  - split; [exact (proj1 Hrx)|]. split; [reflexivity|].
    exact Hterms.
Defined.

(** The claim C7 fails on [/pat/g], a pattern that compiles with the flag
    [g]: the regex is retained without flags and [g] becomes a term. *)
Lemma global_flag_is_left_as_a_term :
  RegExp_new (js "pat") (js "g") <> None
  /\ regex (QueryParser.parseQuery (js "/pat/g") Examples.defaultSettings)
     = Some {| rx_source := js "pat"; rx_flags := [] |}
  /\ terms (QueryParser.parseQuery (js "/pat/g") Examples.defaultSettings)
     = [js "g"]
  /\ regex (QueryParser.parseQuery (js "/pat/g") Examples.defaultSettings)
     <> Some {| rx_source := js "pat"; rx_flags := js "g" |}.
Proof.
  repeat split; try (vm_compute; reflexivity); vm_compute; discriminate.
Qed.

(** An escaped slash is part of the pattern: the extraction reads [x\/y]
    between the slashes, and no flag, since [g] follows the closing
    slash. *)
Lemma escaped_slash_is_in_the_pattern :
  ParserSpec.patternItems (js "x\/y") = true
  /\ QueryParser.regexMatch (js "a /x\/y/gi z") 0
     = Some (2, js "x\/y", [], js "gi z").
Proof. split; vm_compute; reflexivity. Qed.

(** ** Recency *)

Section ScoreShape.
Context {U : Unicode} {NUM : JSNumber} {CLK : Clock}.
Import Spec.

(** The modification time enters the score through the recency bonus
    only. *)
Lemma scoreDoc_same_but_mtime
    (d1 d2 : Doc) (q : ParsedQuery) (config : Scorer.ScorerConfig)
    (r1 r2 : Scorer.ScoredDoc) :
  sameButMtime d1 d2 ->
  Scorer.scoreDoc d1 q config = Some r1 ->
  Scorer.scoreDoc d2 q config = Some r2 ->
  exists base : num,
    Scorer.sd_score r1
    = (base + Scorer.w_recency (Scorer.weights config)
              * Scorer.computeRecencyBonus (mtime d1) (Scorer.recencyHalfLife config))%num
    /\ Scorer.sd_score r2
       = (base + Scorer.w_recency (Scorer.weights config)
                 * Scorer.computeRecencyBonus (mtime d2) (Scorer.recencyHalfLife config))%num.
Proof.
  intros (Hid & Ht & Hp & Hg & Hh & Hs & Hb & Hz) H1 H2.
  destruct d1 as [i1 t1 p1 g1 h1 s1 b1 m1 z1].
  destruct d2 as [i2 t2 p2 g2 h2 s2 b2 m2 z2].
  cbn [id title path tags headings symbols body mtime size] in *; subst.
  unfold Scorer.scoreDoc, Scorer.isExcluded in H1, H2.
  cbn [id title path tags headings symbols body mtime size] in H1, H2.
  match type of H1 with
  | (if ?c then _ else _) = _ => destruct c; [discriminate|]
  end.
  injection H1 as <-. injection H2 as <-.
  cbn [Scorer.sd_score].
  eexists; split; reflexivity.
Qed.

End ScoreShape.

(** *** The order of the numbers *)

Section OrderedNumbers.
Context {NUM : JSNumber}.
Import NumberSpec.
Hypothesis laws : monotone.

Lemma nle_refl (a : num) : nle a a.
Proof.
  unfold nle. pose proof (@ncompare_opp _ laws a a) as H.
  destruct (ncompare a a); try discriminate.
Qed.

Lemma nlt_nle (a b : num) : nlt a b -> nle a b.
Proof. unfold nlt, nle. intros ->. discriminate. Qed.

Lemma nltb_nlt (a b : num) : nltb a b = true -> nlt a b.
Proof.
  unfold nltb, nlt. destruct (ncompare a b); try discriminate. reflexivity.
Qed.

Lemma not_nltb_nle (a b : num) : nltb a b = false -> nle b a.
Proof.
  unfold nltb, nle. rewrite (@ncompare_opp _ laws a b).
  destruct (ncompare a b); cbn; discriminate.
Qed.

Lemma nlt_not_nle (a b : num) : nlt a b -> nle b a -> False.
Proof.
  unfold nlt, nle. rewrite (@ncompare_opp _ laws a b).
  intros ->. cbn. intros H. apply H. reflexivity.
Qed.

Lemma nle_nlt_trans (a b c : num) : nle a b -> nlt b c -> nle a c.
Proof. intros H1 H2. exact (nle_trans laws H1 (nlt_nle b c H2)). Qed.

Lemma nlt_nle_trans (a b c : num) : nlt a b -> nle b c -> nle a c.
Proof. intros H1 H2. exact (nle_trans laws (nlt_nle a b H1) H2). Qed.

Lemma Math_max_mono (a b c : num) :
  nle a b -> nle (Math_max a c) (Math_max b c).
Proof.
  intros H. unfold Math_max.
  destruct (nltb a c) eqn:Ea, (nltb b c) eqn:Eb.
  - apply nle_refl.
  - apply not_nltb_nle, Eb.
  - apply (nle_nlt_trans a b c H), nltb_nlt, Eb.
  - exact H.
Qed.

Lemma Math_min_mono (a b c : num) :
  nle a b -> nle (Math_min a c) (Math_min b c).
Proof.
  intros H. unfold Math_min.
  destruct (nltb c a) eqn:Ea, (nltb c b) eqn:Eb.
  - apply nle_refl.
  - apply nltb_nlt in Ea. exact (nlt_nle_trans c a b Ea H).
  - apply not_nltb_nle, Ea.
  - exact H.
Qed.

Lemma Math_max_lower (a c : num) : nle c (Math_max a c).
Proof.
  unfold Math_max. destruct (nltb a c) eqn:E;
    [apply nle_refl|apply not_nltb_nle, E].
Qed.

Lemma Math_min_upper (a c : num) : nle (Math_min a c) c.
Proof.
  unfold Math_min. destruct (nltb c a) eqn:E;
    [apply nle_refl|apply not_nltb_nle, E].
Qed.

Lemma Math_min_lower (z a c : num) :
  nle z a -> nle z c -> nle z (Math_min a c).
Proof. intros Ha Hc. unfold Math_min. destruct (nltb c a); assumption. Qed.

Lemma of_nat_nonneg (n : nat) : nle (of_Z 0) (of_nat n).
Proof. unfold of_nat. apply (of_Z_mono laws). lia. Qed.

Lemma of_nat_positive (n : nat) : 0 < n -> nlt (of_Z 0) (of_nat n).
Proof. intros H. unfold of_nat. apply (of_Z_positive laws). lia. Qed.

Lemma nadd_nonneg (a b : num) :
  nle (of_Z 0) a -> nle (of_Z 0) b -> nle (of_Z 0) (a + b)%num.
Proof.
  intros Ha Hb.
  apply (@nle_trans _ laws _ a); [exact Ha|].
  apply (@nle_trans _ laws _ (a + of_Z 0)%num); [apply (nadd_zero laws)|].
  apply (nadd_mono laws), Hb.
Qed.

Lemma nmul_nonneg (a b : num) :
  nle (of_Z 0) a -> nle (of_Z 0) b -> nle (of_Z 0) (a * b)%num.
Proof.
  intros Ha Hb.
  apply (@nle_trans _ laws _ (a * of_Z 0)%num); [apply (nmul_zero laws), Ha|].
  apply (nmul_mono_l laws); assumption.
Qed.

Lemma ndiv_nonneg (a c : num) :
  nle (of_Z 0) a -> nlt (of_Z 0) c -> nle (of_Z 0) (a / c)%num.
Proof.
  intros Ha Hc.
  apply (@nle_trans _ laws _ (of_Z 0 / c)%num); [apply (ndiv_zero laws), Hc|].
  apply (ndiv_mono laws); assumption.
Qed.

Lemma fraction_nonneg (x y : Z) :
  (0 <= x)%Z -> (0 < y)%Z -> nle (of_Z 0) (of_Z x / of_Z y)%num.
Proof.
  intros Hx Hy.
  apply ndiv_nonneg; [apply (of_Z_mono laws), Hx|apply (of_Z_positive laws), Hy].
Qed.

End OrderedNumbers.

(** *** The bonus and the modification time *)

Section RecencyOrder.
Context {U : Unicode} {NUM : JSNumber} {CLK : Clock}.
Import Spec NumberSpec.
Hypothesis laws : monotone.

(** The bonus is between zero and one half. *)
Lemma recency_bounds (m : Z) (h : num) :
  nle (of_Z 0) (Scorer.computeRecencyBonus m h)
  /\ nle (Scorer.computeRecencyBonus m h) (of_Z 1 / of_Z 2)%num.
Proof.
  unfold Scorer.computeRecencyBonus. cbv zeta. split.
  - apply Math_min_lower;
      [apply (Math_max_lower laws)|apply (fraction_nonneg laws); lia].
  - apply (Math_min_upper laws).
Qed.

(** The later the modification, the higher the bonus, or the same. *)
Lemma recency_mono (m1 m2 : Z) (h : num) :
  nlt (of_Z 0) h -> (m1 <= m2)%Z ->
  nle (Scorer.computeRecencyBonus m1 h) (Scorer.computeRecencyBonus m2 h).
Proof.
  intros Hh Hm. unfold Scorer.computeRecencyBonus, nneg. cbv zeta.
  apply (Math_min_mono laws), (Math_max_mono laws).
  apply (nmul_mono_l laws); [apply (fraction_nonneg laws); lia|].
  apply (Math_exp_mono laws).
  apply (ndiv_mono laws); [exact Hh|].
  apply (nmul_mono_r laws); [apply (Math_LN2_nonneg laws)|].
  apply (nsub_anti laws).
  apply (ndiv_mono laws); [apply (of_Z_positive laws); reflexivity|].
  apply (nsub_anti laws).
  apply (of_Z_mono laws), Hm.
Qed.

(** C9, as the code has it.  For a half-life above zero and a recency
    weight of zero or more: of two documents that differ in their
    modification time only and are both scored, the one modified later
    scores as much as the other one or more.  No more is said: two
    documents modified at or after the clock both get the bonus at its
    cap and the same score, and below the cap the rounding of the sum may
    leave nothing of the difference of two small bonuses. *)
Theorem recency_monotone
    (q : ParsedQuery) (config : Scorer.ScorerConfig)
    (d1 d2 : Doc) (r1 r2 : Scorer.ScoredDoc) :
  sameButMtime d1 d2 ->
  (mtime d1 <= mtime d2)%Z ->
  nlt (of_Z 0) (Scorer.recencyHalfLife config) ->
  nle (of_Z 0) (Scorer.w_recency (Scorer.weights config)) ->
  Scorer.scoreDoc d1 q config = Some r1 ->
  Scorer.scoreDoc d2 q config = Some r2 ->
  nle (Scorer.sd_score r1) (Scorer.sd_score r2).
Proof.
  intros Hsame Hm Hh Hw H1 H2.
  destruct (scoreDoc_same_but_mtime d1 d2 q config r1 r2 Hsame H1 H2)
    as (base & E1 & E2).
  rewrite E1, E2.
  apply (nadd_mono laws), (nmul_mono_l laws); [exact Hw|].
  apply recency_mono; assumption.
Qed.

End RecencyOrder.

(** *** The real numbers *)

Section RealNumbers.
Import NumberSpec.

Lemma nle_real (a b : R) : nle (NUM := R_JSNumber) a b <-> (a <= b)%R.
Proof.
  unfold nle; cbn [ncompare R_JSNumber]; unfold Rcompare.
  destruct (total_order_T a b) as [[H|H]|H]; split; intros H';
    try discriminate; try lra.
  exfalso. apply H'. reflexivity.
Qed.

Lemma nlt_real (a b : R) : nlt (NUM := R_JSNumber) a b <-> (a < b)%R.
Proof.
  unfold nlt; cbn [ncompare R_JSNumber]; unfold Rcompare.
  destruct (total_order_T a b) as [[H|H]|H]; split; intros H';
    try discriminate; try reflexivity; lra.
Qed.

(** The real numbers, where every operation is exact, are among the
    numbers the statements are about. *)
Lemma real_numbers_monotone : monotone (NUM := R_JSNumber).
Proof.
  split; intros;
    repeat match goal with
           | H : nle _ _ |- _ => apply nle_real in H
           | H : nlt _ _ |- _ => apply nlt_real in H
           end;
    try apply nle_real; try apply nlt_real;
    cbn [of_Z nadd nsub nmul ndiv Math_exp Math_LN2 R_JSNumber] in *.
  - cbn [ncompare R_JSNumber]. unfold Rcompare.
    destruct (total_order_T a b) as [[H|H]|H],
             (total_order_T b a) as [[H'|H']|H']; try reflexivity; lra.
  - lra.
  - apply IZR_le. assumption.
  - apply IZR_lt. assumption.
  - lra.
  - lra.
  - apply Rmult_le_compat_l; assumption.
  - apply Rmult_le_compat_r; assumption.
  - unfold Rdiv. apply Rmult_le_compat_r; [|assumption].
    left. apply Rinv_0_lt_compat. assumption.
  - destruct H as [H|H];
      [left; apply exp_increasing; exact H|subst; right; reflexivity].
  - left. rewrite <- ln_1. apply ln_increasing; lra.
  - lra.
  - lra.
  - unfold Rdiv. rewrite Rmult_0_l. lra.
Qed.

End RealNumbers.

(** *** The rational numbers *)

Section RationalNumbers.
Import NumberSpec.

Lemma nle_rational (a b : Q) : nle (NUM := Q_JSNumber) a b <-> (a <= b)%Q.
Proof. unfold nle. cbn [ncompare Q_JSNumber]. symmetry. apply Qle_alt. Qed.

Lemma nlt_rational (a b : Q) : nlt (NUM := Q_JSNumber) a b <-> (a < b)%Q.
Proof. unfold nlt. cbn [ncompare Q_JSNumber]. symmetry. apply Qlt_alt. Qed.

Lemma pow2_power (n : Z) : (QNum.pow2 n == 2 ^ n)%Q.
Proof.
  destruct n as [|p|p]; unfold QNum.pow2.
  - reflexivity.
  - apply (Zpower_Qpower 2 (Z.pos p)). discriminate.
  - rewrite (Zpower_Qpower 2 (Z.pos p)) by discriminate.
    change (2 ^ Z.neg p)%Q with (/ (2 ^ Z.pos p))%Q.
    unfold Qdiv. apply Qmult_1_l.
Qed.

Lemma pow2_pos (n : Z) : (0 < QNum.pow2 n)%Q.
Proof. rewrite pow2_power. apply Qpower_0_lt. reflexivity. Qed.

Lemma pow2_mono (n m : Z) : (n <= m)%Z -> (QNum.pow2 n <= QNum.pow2 m)%Q.
Proof.
  intros H. rewrite !pow2_power. apply Qpower_le_compat_l; [exact H|].
  discriminate.
Qed.

Lemma pow2_succ (n : Z) : (QNum.pow2 (n + 1) == QNum.pow2 n * 2)%Q.
Proof.
  rewrite !pow2_power, Qpower_plus by discriminate. reflexivity.
Qed.

Lemma fraction_below_one (t n : Q) :
  (t < n + 1)%Q -> (1 + (t - n) <= 2)%Q.
Proof.
  intros H. apply Qlt_minus_iff in H. apply Qle_minus_iff.
  setoid_replace (2 + - (1 + (t - n)))%Q with (n + 1 + - t)%Q by ring.
  apply Qlt_le_weak, H.
Qed.

Lemma fraction_not_below_zero (u n : Q) :
  (n <= u)%Q -> (1 <= 1 + (u - n))%Q.
Proof.
  intros H. apply Qle_minus_iff in H. apply Qle_minus_iff.
  setoid_replace (1 + (u - n) + - (1))%Q with (u + - n)%Q by ring.
  exact H.
Qed.

(** Between two powers of two the exponential of the rational numbers is
    linear, so it does not decrease. *)
Lemma interpolation_mono (t u : Q) :
  (t <= u)%Q ->
  (QNum.pow2 (Qfloor t) * (1 + (t - inject_Z (Qfloor t)))
   <= QNum.pow2 (Qfloor u) * (1 + (u - inject_Z (Qfloor u))))%Q.
Proof.
  intros H.
  pose proof (Qfloor_resp_le t u H) as Hn.
  pose proof (pow2_pos (Qfloor t)) as Hp.
  destruct (Z.eq_dec (Qfloor t) (Qfloor u)) as [E|E].
  - rewrite <- E.
    apply Qmult_le_l; [exact Hp|].
    apply Qplus_le_r. apply Qplus_le_l. exact H.
  - apply Qle_trans with (QNum.pow2 (Qfloor t + 1)).
    + rewrite pow2_succ.
      apply Qmult_le_l; [exact Hp|].
      apply fraction_below_one.
      change (t < inject_Z (Qfloor t) + inject_Z 1)%Q.
      rewrite <- inject_Z_plus. apply Qlt_floor.
    + apply Qle_trans with (QNum.pow2 (Qfloor u)).
      * apply pow2_mono. lia.
      * apply Qle_trans with (QNum.pow2 (Qfloor u) * 1)%Q;
          [rewrite Qmult_1_r; apply Qle_refl|].
        apply Qmult_le_l; [apply pow2_pos|].
        apply fraction_not_below_zero, Qfloor_le.
Qed.

Lemma LN2_pos : (0 < QNum.LN2)%Q.
Proof. reflexivity. Qed.

Lemma Qdiv_le_compat (a b c : Q) : (0 < c)%Q -> (a <= b)%Q -> (a / c <= b / c)%Q.
Proof.
  intros Hc H. unfold Qdiv. apply Qmult_le_compat_r; [exact H|].
  apply Qlt_le_weak, Qinv_lt_0_compat, Hc.
Qed.

Lemma exp_rational_mono (a b : Q) :
  (a <= b)%Q -> (QNum.exp a <= QNum.exp b)%Q.
Proof.
  intros H. unfold QNum.exp. cbv zeta.
  rewrite (Qred_correct (QNum.pow2 _ * _)).
  rewrite (Qred_correct (QNum.pow2 (Qfloor (Qred (b / QNum.LN2))) * _)).
  apply interpolation_mono.
  rewrite !Qred_correct.
  apply Qdiv_le_compat; [apply LN2_pos|exact H].
Qed.

(** The rational numbers of the examples are among the numbers the
    statements are about. *)
Lemma rational_numbers_monotone : monotone (NUM := Q_JSNumber).
Proof.
  split; cbn [of_Z nadd nsub nmul ndiv Math_exp Math_LN2 Q_JSNumber num].
  - intros a b. cbn [ncompare Q_JSNumber]. symmetry. apply Qcompare_antisym.
  - intros a b c H1 H2. apply nle_rational in H1, H2. apply nle_rational.
    eapply Qle_trans; eassumption.
  - intros x y H. apply nle_rational. rewrite <- Zle_Qle. exact H.
  - intros x H. apply nlt_rational. rewrite <- Zlt_Qlt. exact H.
  - intros a b c H. apply nle_rational in H. apply nle_rational.
    rewrite !Qred_correct. apply Qplus_le_r. exact H.
  - intros a b c H. apply nle_rational in H. apply nle_rational.
    rewrite !Qred_correct. apply Qplus_le_r, Qopp_le_compat. exact H.
  - intros a b c Ha H. apply nle_rational in Ha, H. apply nle_rational.
    rewrite !Qred_correct, !(Qmult_comm a).
    apply Qmult_le_compat_r; assumption.
  - intros a b c Hc H. apply nle_rational in Hc, H. apply nle_rational.
    rewrite !Qred_correct. apply Qmult_le_compat_r; assumption.
  - intros a b c Hc H. apply nlt_rational in Hc. apply nle_rational in H.
    apply nle_rational. rewrite !Qred_correct.
    apply Qdiv_le_compat; assumption.
  - intros a b H. apply nle_rational in H. apply nle_rational.
    apply exp_rational_mono, H.
  - apply nle_rational. discriminate.
  - intros a. apply nle_rational. rewrite Qred_correct, Qplus_0_r.
    apply Qle_refl.
  - intros a _. apply nle_rational. rewrite Qred_correct, Qmult_0_r.
    apply Qle_refl.
  - intros c _. apply nle_rational. rewrite Qred_correct.
    unfold Qdiv. rewrite Qmult_0_l. apply Qle_refl.
Qed.

End RationalNumbers.

(** *** The bonus over the real numbers *)

Section Recency.
Context {U : Unicode} {CLK : Clock}.
Import Spec.

Lemma nltb_real (a b : R) : nltb (NUM := R_JSNumber) a b = true <-> (a < b)%R.
Proof.
  unfold nltb; cbn [ncompare R_JSNumber]; unfold Rcompare.
  destruct (total_order_T a b) as [[H|H]|H]; split; intros H';
    try discriminate; try reflexivity; lra.
Qed.

Lemma Math_max_real (a b : R) : Math_max (NUM := R_JSNumber) a b = Rmax a b.
Proof.
  unfold Math_max, Rmax.
  destruct (nltb (NUM := R_JSNumber) a b) eqn:E.
  - apply nltb_real in E. destruct (Rle_dec a b); [reflexivity|lra].
  - assert (~ (a < b)%R) by (intros H; apply nltb_real in H; congruence).
    destruct (Rle_dec a b); [lra|reflexivity].
Qed.

Lemma Math_min_real (a b : R) : Math_min (NUM := R_JSNumber) a b = Rmin a b.
Proof.
  unfold Math_min, Rmin.
  destruct (nltb (NUM := R_JSNumber) b a) eqn:E.
  - apply nltb_real in E. destruct (Rle_dec a b); [lra|reflexivity].
  - assert (~ (b < a)%R) by (intros H; apply nltb_real in H; congruence).
    destruct (Rle_dec a b); [reflexivity|lra].
Qed.

Lemma computeRecencyBonus_real (m : Z) (h : R) :
  Scorer.computeRecencyBonus (NUM := R_JSNumber) m h
  = Rmin (Rmax (1 / 2 * exp (decayExponent m h)) 0) (1 / 2).
Proof.
  unfold Scorer.computeRecencyBonus.
  rewrite Math_min_real, Math_max_real. reflexivity.
Qed.

Lemma ln_2_pos : (0 < ln 2)%R.
Proof. rewrite <- ln_1. apply ln_increasing; lra. Qed.

Lemma decayExponent_linear (m : Z) (h : R) :
  (0 < h)%R ->
  decayExponent m h
  = ((IZR m - IZR Date_now) * (ln 2 / (IZR Scorer.msPerDay * h)))%R.
Proof.
  intros Hh. unfold decayExponent.
  assert (IZR Scorer.msPerDay <> 0)%R.
  { apply not_0_IZR. vm_compute. discriminate. }
  field. split; lra.
Qed.

Lemma decay_rate_pos (h : R) :
  (0 < h)%R -> (0 < ln 2 / (IZR Scorer.msPerDay * h))%R.
Proof.
  intros Hh. apply Rdiv_lt_0_compat; [apply ln_2_pos|].
  apply Rmult_lt_0_compat; [|exact Hh].
  apply IZR_lt. vm_compute. reflexivity.
Qed.

Lemma decayExponent_sign (m : Z) (h : R) :
  (0 < h)%R ->
  ((m < Date_now)%Z -> (decayExponent m h < 0)%R)
  /\ ((Date_now <= m)%Z -> (0 <= decayExponent m h)%R).
Proof.
  intros Hh. rewrite decayExponent_linear by exact Hh.
  pose proof (decay_rate_pos h Hh) as Hk.
  split; intros Hm.
  - apply IZR_lt in Hm.
    replace 0%R with (0 * (ln 2 / (IZR Scorer.msPerDay * h)))%R by ring.
    apply Rmult_lt_compat_r; lra.
  - apply IZR_le in Hm.
    apply Rmult_le_pos; lra.
Qed.

Lemma exp_le_mono (x y : R) : (x <= y)%R -> (exp x <= exp y)%R.
Proof.
  intros [H|H]; [left; apply exp_increasing; exact H|subst; right; reflexivity].
Qed.

(** At and after the clock the bonus is the cap. *)
Lemma recency_capped (m : Z) (h : R) :
  (0 < h)%R -> (Date_now <= m)%Z ->
  Scorer.computeRecencyBonus (NUM := R_JSNumber) m h = (1 / 2)%R.
Proof.
  intros Hh Hm. rewrite computeRecencyBonus_real.
  destruct (decayExponent_sign m h Hh) as [_ Hpos].
  pose proof (exp_le_mono _ _ (Hpos Hm)) as He. rewrite exp_0 in He.
  unfold Rmin, Rmax.
  repeat destruct (Rle_dec _ _); lra.
Qed.

(** Two documents modified at or after the clock get the same score. *)
Lemma capped_documents_score_alike
    (q : ParsedQuery) (config : Scorer.ScorerConfig (NUM := R_JSNumber))
    (d1 d2 : Doc) (r1 r2 : Scorer.ScoredDoc (NUM := R_JSNumber)) :
  sameButMtime d1 d2 ->
  (Date_now <= mtime d1)%Z -> (Date_now <= mtime d2)%Z ->
  (0 < Scorer.recencyHalfLife config)%R ->
  Scorer.scoreDoc d1 q config = Some r1 ->
  Scorer.scoreDoc d2 q config = Some r2 ->
  Scorer.sd_score r1 = Scorer.sd_score r2.
Proof.
  intros Hsame Hm1 Hm2 Hh H1 H2.
  destruct (scoreDoc_same_but_mtime d1 d2 q config r1 r2 Hsame H1 H2)
    as (base & E1 & E2).
  rewrite E1, E2, !recency_capped by assumption. reflexivity.
Qed.

End Recency.

Section RecencyExamples.
Import Spec Examples.

Lemma recency_monotone_witness :
  exists r1 r2 : Scorer.ScoredDoc (NUM := Q_JSNumber),
    Scorer.scoreDoc (datedAhead (-2)) noteQuery defaultScorerConfig = Some r1
    /\ Scorer.scoreDoc (datedAhead (-1)) noteQuery defaultScorerConfig = Some r2
    /\ NumberSpec.nle (Scorer.sd_score r1) (Scorer.sd_score r2).
Proof.
  eexists. eexists.
  split; [reflexivity|]. split; [reflexivity|].
  apply (recency_monotone rational_numbers_monotone noteQuery
           defaultScorerConfig (datedAhead (-2)) (datedAhead (-1)) _ _).
  - repeat split.
  - vm_compute. discriminate.
  - reflexivity.
  - vm_compute. discriminate.
  - reflexivity.
  - reflexivity.
Defined.

(** The claim C9 fails at the cap: a document dated one day after the
    clock and the same document dated two days after it both get the
    bonus 0.5 and the same score, for the recency weight 0.5. *)
Lemma capped_recency_is_not_strict :
  exists r1 r2 : Scorer.ScoredDoc (NUM := R_JSNumber),
    Scorer.scoreDoc (datedAhead 1) noteQuery realScorerConfig = Some r1
    /\ Scorer.scoreDoc (datedAhead 2) noteQuery realScorerConfig = Some r2
    /\ sameButMtime (datedAhead 1) (datedAhead 2)
    /\ (mtime (datedAhead 1) < mtime (datedAhead 2))%Z
    /\ (0 < Scorer.w_recency (Scorer.weights realScorerConfig))%R
    /\ Scorer.sd_score r1 = Scorer.sd_score r2
    /\ ~ (Scorer.sd_score r1 < Scorer.sd_score r2)%R.
Proof.
  eexists. eexists.
  split; [reflexivity|]. split; [reflexivity|].
  split; [repeat split|]. split; [reflexivity|]. split; [cbn; lra|].
  assert (E : forall r1 r2 : Scorer.ScoredDoc (NUM := R_JSNumber),
             Scorer.scoreDoc (datedAhead 1) noteQuery realScorerConfig = Some r1 ->
             Scorer.scoreDoc (datedAhead 2) noteQuery realScorerConfig = Some r2 ->
             Scorer.sd_score r1 = Scorer.sd_score r2).
  { intros r1 r2 H1 H2.
    apply (capped_documents_score_alike noteQuery realScorerConfig
             (datedAhead 1) (datedAhead 2) r1 r2);
      [repeat split|vm_compute; discriminate|vm_compute; discriminate
      |cbn; lra|exact H1|exact H2]. }
  pose proof (E _ _ eq_refl eq_refl) as Heq.
  split; [exact Heq|].
  rewrite Heq. apply Rlt_irrefl.
Qed.

End RecencyExamples.

(** ** The end-to-end scenarios, on the executable host *)

Section Scenarios.
Import Provider Spec Examples.

Example parse_scenario :
  let q := QueryParser.parseQuery
             (js "tag:work " ++ [QueryParser.quote] ++ js "exact phrase"
                ++ [QueryParser.quote] ++ js " -exclude /pat/i @ test")
             defaultSettings in
  mode q = files /\ terms q = [js "test"] /\ phrases q = [js "exact phrase"]
  /\ excludes q = [js "exclude"] /\ orGroups q = []
  /\ filters q = {| f_tag := Some [js "work"]; f_path := None; f_in := None;
                    f_field := Some symbols_prefix |}
  /\ regex q = Some {| rx_source := js "pat"; rx_flags := js "i" |}.
Proof. repeat split; vm_compute; reflexivity. Qed.

Example parse_or_groups :
  let q := QueryParser.parseQuery (js "first OR second third") defaultSettings in
  terms q = [js "third"] /\ orGroups q = [[js "first"; js "second"]].
Proof. repeat split; vm_compute; reflexivity. Qed.

Example query_project :
  ids (query threeNotes projectQuery (Some 10)) = [js "note1.md"; js "note3.md"].
Proof. vm_compute; reflexivity. Qed.

Example query_empty :
  ids (query threeNotes (mkQuery [] [] noFilters None) (Some 3))
  = [js "note3.md"; js "note2.md"; js "note1.md"]
  /\ scores (query threeNotes (mkQuery [] [] noFilters None) (Some 3))
     = [3%Q; 2%Q; 1%Q].
Proof. repeat split; vm_compute; reflexivity. Qed.

Example query_or_group :
  ids (query threeNotes
         {| raw := []; mode := files; terms := []; phrases := [];
            excludes := []; orGroups := [[js "meeting"; js "research"]];
            filters := noFilters; regex := None |} (Some 10))
  = [js "note3.md"; js "note2.md"].
Proof. vm_compute; reflexivity. Qed.

Example query_exclude :
  ids (query threeNotes (mkQuery [js "project"] [js "deadlines"] noFilters None)
         (Some 10))
  = [js "note3.md"].
Proof. vm_compute; reflexivity. Qed.

Example heap_keeps_the_largest :
  let h := fold_left (fun h x => fst (MinHeap.push Nat.compare h x))
             [5; 1; 9; 3; 7; 2; 8] (MinHeap.create nat 3) in
  MinHeap.extractAll Nat.compare h = [7; 8; 9].
Proof. vm_compute; reflexivity. Qed.

End Scenarios.

(** ** The heap *)

Section HeapArray.
Variable T : Type.
Implicit Types (l : list T) (i j k : nat).

Lemma nth_error_setItem l i k (x : T) :
  nth_error (MinHeap.setItem l i x) k
  = if k =? i then (if i <? length l then Some x else None)
    else nth_error l k.
Proof.
  revert i k; induction l as [|y l IH]; intros i k.
  - cbn [MinHeap.setItem length]. destruct (k =? i); destruct k; reflexivity.
  - destruct i as [|i]; destruct k as [|k]; cbn [MinHeap.setItem nth_error];
      try reflexivity.
    rewrite IH. cbn [length].
    change (S k =? S i) with (k =? i).
    change (S i <? S (length l)) with (i <? length l). reflexivity.
Qed.

Lemma nth_error_swap l i j k (a b : T) :
  nth_error l i = Some a -> nth_error l j = Some b ->
  nth_error (MinHeap.swap l i j) k
  = if k =? j then Some a else if k =? i then Some b else nth_error l k.
Proof.
  intros Hi Hj. unfold MinHeap.swap. rewrite Hi, Hj.
  rewrite !nth_error_setItem, setItem_length.
  assert (Li : i < length l) by (apply nth_error_Some; congruence).
  assert (Lj : j < length l) by (apply nth_error_Some; congruence).
  destruct (Nat.ltb_spec i (length l)); [|lia].
  destruct (Nat.ltb_spec j (length l)); [|lia].
  reflexivity.
Qed.

Lemma setItem_permutation l i (a x : T) :
  nth_error l i = Some a ->
  Permutation (a :: MinHeap.setItem l i x) (x :: l).
Proof.
  revert i; induction l as [|y l IH]; intros i H.
  - destruct i; discriminate.
  - destruct i as [|i]; cbn [MinHeap.setItem nth_error] in *.
    + injection H as ->. apply perm_swap.
    + eapply perm_trans; [apply perm_swap|].
      eapply perm_trans; [apply perm_skip, IH, H|]. apply perm_swap.
Qed.

Lemma swap_permutation l i j : Permutation (MinHeap.swap l i j) l.
Proof.
  unfold MinHeap.swap.
  destruct (nth_error l i) as [a|] eqn:Hi; [|reflexivity].
  destruct (nth_error l j) as [b|] eqn:Hj; [|reflexivity].
  apply Permutation_cons_inv with (a := b).
  eapply perm_trans; [|apply (setItem_permutation l i a b Hi)].
  apply setItem_permutation.
  rewrite nth_error_setItem.
  destruct (Nat.eqb_spec j i) as [->|_]; [|exact Hj].
  assert (Li : i < length l) by (apply nth_error_Some; congruence).
  destruct (Nat.ltb_spec i (length l)); [reflexivity|lia].
Qed.

Lemma heapifyUp_loop_permutation (cmp : T -> T -> comparison) fuel l i :
  Permutation (MinHeap.heapifyUp_loop cmp fuel l i) l.
Proof.
  revert l i; induction fuel as [|fuel IH]; intros l i; [reflexivity|].
  cbn [MinHeap.heapifyUp_loop].
  destruct (0 <? i); [|reflexivity].
  match goal with
  | |- context [if ?c then _ else l] => destruct c; [|reflexivity]
  end.
  eapply perm_trans; [apply IH|apply swap_permutation].
Qed.

Lemma heapifyDown_loop_permutation (cmp : T -> T -> comparison) fuel l i :
  Permutation (MinHeap.heapifyDown_loop cmp fuel l i) l.
Proof.
  revert l i; induction fuel as [|fuel IH]; intros l i; [reflexivity|].
  cbn [MinHeap.heapifyDown_loop].
  match goal with
  | |- context [if ?c then l else _] => destruct c; [reflexivity|]
  end.
  eapply perm_trans; [apply IH|apply swap_permutation].
Qed.

End HeapArray.

Section HeapOrder.
Variable T : Type.
Variable cmp : T -> T -> comparison.
Hypothesis Hcmp : HeapSpec.consistent cmp.
Import HeapSpec.
Implicit Types (l : list T) (i j k : nat).

Lemma le_of_lt (a b : T) : cmp a b = Lt -> le cmp a b.
Proof. unfold le; intros ->; discriminate. Qed.

Lemma le_of_not_lt (a b : T) : cmp b a <> Lt -> le cmp a b.
Proof.
  destruct Hcmp as [Hanti _]. unfold le. intros H.
  rewrite (Hanti b a). destruct (cmp b a); try discriminate. contradiction.
Qed.

Lemma le_refl (a : T) : le cmp a a.
Proof.
  destruct Hcmp as [Hanti _]. unfold le.
  pose proof (Hanti a a) as H. destruct (cmp a a); discriminate.
Qed.

Lemma le_trans (a b c : T) : le cmp a b -> le cmp b c -> le cmp a c.
Proof. destruct Hcmp as [_ Htrans]. apply Htrans. Qed.

Lemma isLess_true l i j :
  MinHeap.isLess cmp l i j = true ->
  exists a b, nth_error l i = Some a /\ nth_error l j = Some b /\ cmp a b = Lt.
Proof.
  unfold MinHeap.isLess.
  destruct (nth_error l i) as [a|]; [|discriminate].
  destruct (nth_error l j) as [b|]; [|discriminate].
  destruct (cmp a b) eqn:E; try discriminate. eauto.
Qed.

Lemma isLess_false l i j (a b : T) :
  MinHeap.isLess cmp l i j = false ->
  nth_error l i = Some a -> nth_error l j = Some b -> le cmp b a.
Proof.
  unfold MinHeap.isLess. intros H Hi Hj. rewrite Hi, Hj in H.
  apply le_of_not_lt. intros E. rewrite E in H. discriminate.
Qed.

Lemma parent_is_parent i : 0 < i -> child ((i - 1) / 2) i.
Proof.
  intros Hi. unfold child.
  pose proof (Nat.div_mod_eq (i - 1) 2) as H.
  pose proof (Nat.mod_upper_bound (i - 1) 2) as Hm. lia.
Qed.

Lemma child_parent p c : child p c -> p = (c - 1) / 2 /\ p < c.
Proof.
  unfold child. intros [-> | ->]; split; try lia.
  - replace (2 * p + 1 - 1) with (p * 2) by lia. symmetry. apply Nat.div_mul. lia.
  - replace (2 * p + 2 - 1) with (1 + p * 2) by lia.
    rewrite Nat.div_add by lia. reflexivity.
Qed.

Lemma child_unique p p' c : child p c -> child p' c -> p = p'.
Proof.
  intros H H'. apply child_parent in H as [-> _].
  apply child_parent in H' as [-> _]. reflexivity.
Qed.

(** [heapifyUp] restores the order. *)
Lemma heapifyUp_loop_ordered fuel l i :
  i < fuel -> upInvariant cmp l i ->
  heapOrdered cmp (MinHeap.heapifyUp_loop cmp fuel l i).
Proof.
  revert l i; induction fuel as [|fuel IH]; intros l i Hfuel [Hup1 Hup2];
    [lia|].
  cbn [MinHeap.heapifyUp_loop].
  destruct (Nat.ltb_spec 0 i) as [Hpos|Hzero].
  2:{ intros p c x y Hpc. apply Hup1; [exact Hpc|].
      apply child_parent in Hpc. lia. }
  pose proof (parent_is_parent i Hpos) as HP.
  set (P := (i - 1) / 2) in *.
  destruct (MinHeap.isLess cmp l i P) eqn:Hless.
  - apply isLess_true in Hless as (a & b & Hi & HPv & Hab).
    pose proof (child_parent _ _ HP) as [_ HPlt].
    apply IH; [lia|].
    split.
    + intros p c x y Hpc Hc.
      rewrite !(nth_error_swap _ l i P _ a b Hi HPv).
      destruct (Nat.eqb_spec c P) as [|_]; [contradiction|].
      destruct (Nat.eqb_spec p P) as [->|Hp].
      * intros Hx; injection Hx as <-.
        destruct (Nat.eqb_spec c i) as [->|Hci].
        -- intros Hy; injection Hy as <-. apply le_of_lt, Hab.
        -- intros Hy. apply le_trans with b; [apply le_of_lt, Hab|].
           apply (Hup1 P c); assumption.
      * destruct (Nat.eqb_spec p i) as [->|Hpi].
        -- intros Hx; injection Hx as <-.
           destruct (Nat.eqb_spec c i) as [->|Hci];
             [apply child_parent in Hpc; lia|].
           intros Hy. apply (Hup2 P c); assumption.
        -- intros Hx.
           destruct (Nat.eqb_spec c i) as [->|Hci];
             [exfalso; apply Hp; eapply child_unique; eassumption|].
           intros Hy. apply (Hup1 p c); assumption.
    + intros g c x y Hg Hc.
      rewrite !(nth_error_swap _ l i P _ a b Hi HPv).
      pose proof (child_parent _ _ Hg) as [_ Hglt].
      destruct (Nat.eqb_spec g P) as [|_]; [lia|].
      destruct (Nat.eqb_spec g i) as [|_]; [lia|].
      intros Hx.
      assert (HgP : le cmp x b).
      { apply (Hup1 g P); try assumption. lia. }
      destruct (Nat.eqb_spec c P) as [->|HcP];
        [apply child_parent in Hc; lia|].
      destruct (Nat.eqb_spec c i) as [->|Hci].
      * intros Hy; injection Hy as <-. exact HgP.
      * intros Hy. apply le_trans with b; [exact HgP|].
        apply (Hup1 P c); assumption.
  - intros p c x y Hpc Hx Hy.
    destruct (Nat.eq_dec c i) as [->|Hci]; [|apply (Hup1 p c); assumption].
    assert (p = P) by (eapply child_unique; eassumption). subst p.
    apply (isLess_false l i P y x Hless); assumption.
Qed.

(** What the choice of [minIndex] in [heapifyDown] gives: either the item
    at [i] is not above its children, or a child [m] is below it and not
    above the other child. *)
Lemma minIndex_choice l i :
  let leftChild := 2 * i + 1 in
  let rightChild := 2 * i + 2 in
  let minIndex1 :=
    if (leftChild <? length l) && MinHeap.isLess cmp l leftChild i
    then leftChild else i in
  let minIndex :=
    if (rightChild <? length l) && MinHeap.isLess cmp l rightChild minIndex1
    then rightChild else minIndex1 in
  (minIndex = i
   /\ forall c x y, child i c ->
        nth_error l i = Some x -> nth_error l c = Some y -> le cmp x y)
  \/ (child i minIndex
      /\ exists a b,
           nth_error l minIndex = Some a /\ nth_error l i = Some b
           /\ le cmp a b
           /\ forall c y, child i c -> nth_error l c = Some y -> le cmp a y).
Proof.
  intros leftChild rightChild minIndex1 minIndex.
  assert (Hin : forall c (y : T), nth_error l c = Some y -> (c <? length l) = true).
  { intros c y H. apply Nat.ltb_lt, nth_error_Some. congruence. }
  destruct ((leftChild <? length l) && MinHeap.isLess cmp l leftChild i)
    eqn:HL.
  - (* the left child is below the item *)
    apply andb_true_iff in HL as [_ HL].
    apply isLess_true in HL as (a & b & Ha & Hb & Hab).
    right.
    destruct ((rightChild <? length l)
              && MinHeap.isLess cmp l rightChild minIndex1) eqn:HR;
      subst minIndex minIndex1; cbn beta iota in *.
    + apply andb_true_iff in HR as [_ HR].
      apply isLess_true in HR as (r & a' & Hr & Ha' & Hra).
      rewrite Ha in Ha'. injection Ha' as <-.
      split; [right; reflexivity|].
      exists r, b. repeat split; try assumption.
      * apply le_trans with a; apply le_of_lt; assumption.
      * intros c y [-> | ->] Hy.
        -- fold leftChild in Hy. rewrite Ha in Hy. injection Hy as <-.
           apply le_of_lt, Hra.
        -- fold rightChild in Hy. rewrite Hr in Hy. injection Hy as <-.
           apply le_refl.
    + split; [left; reflexivity|].
      exists a, b. repeat split; try assumption; [apply le_of_lt, Hab|].
      intros c y [-> | ->] Hy.
      * fold leftChild in Hy. rewrite Ha in Hy. injection Hy as <-.
        apply le_refl.
      * fold rightChild in Hy. rewrite (Hin _ _ Hy) in HR.
        cbn [andb] in HR.
        apply (isLess_false l rightChild leftChild y a HR); assumption.
  - (* the left child is not below the item *)
    assert (HLle : forall x y, nth_error l i = Some x ->
                     nth_error l leftChild = Some y -> le cmp x y).
    { intros x y Hx Hy. rewrite (Hin _ _ Hy) in HL. cbn [andb] in HL.
      apply (isLess_false l leftChild i y x HL); assumption. }
    destruct ((rightChild <? length l)
              && MinHeap.isLess cmp l rightChild minIndex1) eqn:HR;
      subst minIndex minIndex1; cbn beta iota in *.
    + apply andb_true_iff in HR as [_ HR].
      apply isLess_true in HR as (r & b & Hr & Hb & Hrb).
      right. split; [right; reflexivity|].
      exists r, b. repeat split; try assumption; [apply le_of_lt, Hrb|].
      intros c y [-> | ->] Hy.
      * apply le_trans with b; [apply le_of_lt, Hrb|].
        apply HLle; assumption.
      * fold rightChild in Hy. rewrite Hr in Hy. injection Hy as <-.
        apply le_refl.
    + left. split; [reflexivity|].
      intros c x y [-> | ->] Hx Hy.
      * apply HLle; assumption.
      * fold rightChild in Hy. rewrite (Hin _ _ Hy) in HR.
        cbn [andb] in HR.
        apply (isLess_false l rightChild i y x HR); assumption.
Qed.

(** [heapifyDown] restores the order. *)
Lemma heapifyDown_loop_ordered fuel l i :
  length l <= fuel + i -> downInvariant cmp l i ->
  heapOrdered cmp (MinHeap.heapifyDown_loop cmp fuel l i).
Proof.
  revert l i; induction fuel as [|fuel IH]; intros l i Hfuel [Hd1 Hd2].
  - cbn [MinHeap.heapifyDown_loop]. intros p c x y Hpc Hx Hy.
    destruct (Nat.eq_dec p i) as [->|Hp]; [|apply (Hd1 p c); assumption].
    assert (i < length l) by (apply nth_error_Some; congruence). lia.
  - cbn [MinHeap.heapifyDown_loop].
    destruct (minIndex_choice l i) as [[Hm Hle]|(Hm & a & b & Ha & Hb & Hab & Hmin)].
    + cbv zeta in Hm. rewrite Hm, Nat.eqb_refl.
      intros p c x y Hpc Hx Hy.
      destruct (Nat.eq_dec p i) as [->|Hp]; [|apply (Hd1 p c); assumption].
      apply (Hle c); assumption.
    + cbv zeta in Hm, Ha.
      set (m := if (2 * i + 2 <? length l) && _ then 2 * i + 2 else _) in *.
      pose proof (child_parent _ _ Hm) as [_ Hlt].
      destruct (Nat.eqb_spec m i) as [|_]; [lia|].
      apply IH; [rewrite swap_length; lia|].
      split.
      * intros p c x y Hpc Hp.
        rewrite !(nth_error_swap _ l i m _ b a Hb Ha).
        destruct (Nat.eqb_spec p m) as [|_]; [contradiction|].
        destruct (Nat.eqb_spec p i) as [->|Hpi].
        -- intros Hx; injection Hx as <-.
           destruct (Nat.eqb_spec c m) as [->|Hcm].
           ++ intros Hy; injection Hy as <-. exact Hab.
           ++ destruct (Nat.eqb_spec c i) as [->|Hci];
                [apply child_parent in Hpc; lia|].
              intros Hy. apply (Hmin c); assumption.
        -- intros Hx.
           destruct (Nat.eqb_spec c m) as [->|Hcm];
             [exfalso; apply Hpi; eapply child_unique; eassumption|].
           destruct (Nat.eqb_spec c i) as [->|Hci].
           ++ intros Hy; injection Hy as <-.
              apply (Hd2 p m); assumption.
           ++ intros Hy. apply (Hd1 p c); assumption.
      * intros g c x y Hg Hc.
        assert (g = i) by (eapply child_unique; eassumption). subst g.
        rewrite !(nth_error_swap _ l i m _ b a Hb Ha).
        rewrite Nat.eqb_refl.
        destruct (Nat.eqb_spec i m) as [|_]; [lia|].
        intros Hx; injection Hx as <-.
        pose proof (child_parent _ _ Hc) as [_ Hclt].
        destruct (Nat.eqb_spec c m) as [|_]; [lia|].
        destruct (Nat.eqb_spec c i) as [|_]; [lia|].
        intros Hy. apply (Hd1 m c); try assumption. lia.
Qed.

(** In an ordered heap the root is not above any item. *)
Lemma root_min l (m : T) :
  heapOrdered cmp l -> nth_error l 0 = Some m ->
  forall k x, nth_error l k = Some x -> le cmp m x.
Proof.
  intros Hord Hm k.
  induction k as [k IH] using (well_founded_induction lt_wf).
  intros x Hx. destruct k as [|k].
  - rewrite Hm in Hx. injection Hx as <-. apply le_refl.
  - pose proof (parent_is_parent (S k) (Nat.lt_0_succ k)) as Hc.
    pose proof (child_parent _ _ Hc) as [_ Hlt].
    destruct (nth_error l ((S k - 1) / 2)) as [y|] eqn:Hy.
    + apply le_trans with y; [apply (IH _ Hlt y Hy)|].
      apply (Hord _ _ y x Hc Hy Hx).
    + apply nth_error_None in Hy.
      assert (S k < length l) by (apply nth_error_Some; congruence). lia.
Qed.

Lemma root_min_In l (m : T) :
  heapOrdered cmp l -> nth_error l 0 = Some m ->
  forall x, In x l -> le cmp m x.
Proof.
  intros Hord Hm x Hin. apply In_nth_error in Hin as [k Hk].
  exact (root_min l m Hord Hm k x Hk).
Qed.

(** Replacing the root leaves only the root out of order. *)
Lemma replace_root_downInvariant l (x : T) :
  heapOrdered cmp l -> downInvariant cmp (MinHeap.setItem l 0 x) 0.
Proof.
  intros Hord. split.
  - intros p c a b Hc Hp. rewrite !nth_error_setItem.
    pose proof (child_parent _ _ Hc) as [_ Hlt].
    destruct (Nat.eqb_spec p 0) as [|_]; [contradiction|].
    destruct (Nat.eqb_spec c 0) as [|_]; [lia|].
    apply Hord; assumption.
  - intros g c a b Hg. apply child_parent in Hg. lia.
Qed.

(** Appending an item leaves only the new item out of order. *)
Lemma append_upInvariant l (x : T) :
  heapOrdered cmp l -> upInvariant cmp (l ++ [x]) (length l).
Proof.
  intros Hord. split.
  - intros p c a b Hc Hne Ha Hb.
    pose proof (child_parent _ _ Hc) as [_ Hlt].
    assert (c < length (l ++ [x])) by (apply nth_error_Some; congruence).
    rewrite length_app in H. cbn [length] in H.
    rewrite nth_error_app1 in Ha by lia.
    rewrite nth_error_app1 in Hb by lia.
    apply (Hord p c); assumption.
  - intros g c a b _ Hc _ Hb.
    apply child_parent in Hc as [_ Hlt].
    assert (c < length (l ++ [x])) by (apply nth_error_Some; congruence).
    rewrite length_app in H. cbn [length] in H. lia.
Qed.

Lemma nth_error_removelast (l : list T) k x :
  nth_error (removelast l) k = Some x -> nth_error l k = Some x.
Proof.
  revert k; induction l as [|a l IH]; intros k; [destruct k; discriminate|].
  destruct l as [|b l]; [destruct k; discriminate|].
  change (removelast (a :: b :: l)) with (a :: removelast (b :: l)).
  destruct k as [|k]; [trivial|]. apply IH.
Qed.

(** The array [pop] hands to [heapifyDown]: the last item in the place of
    the root. *)
Lemma pop_array (min b : T) rest :
  MinHeap.setItem (removelast (min :: b :: rest)) 0 (last (min :: b :: rest) min)
  = last (b :: rest) min :: removelast (b :: rest).
Proof. reflexivity. Qed.

Lemma pop_array_downInvariant (min b : T) rest :
  heapOrdered cmp (min :: b :: rest) ->
  downInvariant cmp (last (b :: rest) min :: removelast (b :: rest)) 0.
Proof.
  intros Hord. split.
  - intros p c x y Hc Hp Hx Hy.
    pose proof (child_parent _ _ Hc) as [_ Hlt].
    destruct p as [|p]; [contradiction|]. destruct c as [|c]; [lia|].
    cbn [nth_error] in Hx, Hy.
    apply nth_error_removelast in Hx, Hy.
    apply (Hord (S p) (S c)); assumption.
  - intros g c x y Hg. apply child_parent in Hg. lia.
Qed.

Lemma pop_array_permutation (min b : T) rest :
  Permutation (last (b :: rest) min :: removelast (b :: rest)) (b :: rest).
Proof.
  rewrite (app_removelast_last min (l := b :: rest)) at 3 by discriminate.
  apply Permutation_cons_append.
Qed.

Lemma push_ordered (h : MinHeap.t T) (x : T) :
  heapOrdered cmp (MinHeap.items h) ->
  heapOrdered cmp (MinHeap.items (fst (MinHeap.push cmp h x))).
Proof.
  intros Hord. unfold MinHeap.push.
  destruct ((0 <? MinHeap.maxSize h)
            && (MinHeap.maxSize h <=? length (MinHeap.items h))).
  - destruct (MinHeap.items h) as [|top rest] eqn:E;
      [cbn [fst]; rewrite E; exact Hord|].
    destruct (cmp x top); cbn [fst MinHeap.items]; rewrite ?E; try exact Hord.
    unfold MinHeap.heapifyDown.
    apply heapifyDown_loop_ordered; [lia|].
    apply replace_root_downInvariant, Hord.
  - cbn [fst MinHeap.items]. unfold MinHeap.heapifyUp.
    apply heapifyUp_loop_ordered; [lia|].
    apply append_upInvariant, Hord.
Qed.

(** X1 (min-heap.ts, push with heapifyUp and heapifyDown): for a consistent
    comparison function, push keeps the heap order: when no item of the
    array was below its parent before the call, none is after it, whether
    the item was appended, has replaced the root, or was rejected. *)
Theorem push_keeps_heap_order (h : MinHeap.t T) (x : T) :
  heapOrdered cmp (MinHeap.items h) ->
  heapOrdered cmp (MinHeap.items (fst (MinHeap.push cmp h x))).
Proof. exact (push_ordered h x). Qed.

Lemma push_content (h : MinHeap.t T) (x : T) :
  heapOrdered cmp (MinHeap.items h) ->
  exists out : list T,
    Permutation (MinHeap.items (fst (MinHeap.push cmp h x)) ++ out)
                (x :: MinHeap.items h)
    /\ (snd (MinHeap.push cmp h x) = false ->
        out = [x] /\ fst (MinHeap.push cmp h x) = h)
    /\ (snd (MinHeap.push cmp h x) = true ->
        out = [] \/ exists top, MinHeap.peek h = Some top /\ out = [top])
    /\ (out <> [] ->
        0 < MinHeap.maxSize h <= length (MinHeap.items h))
    /\ (forall o k : T,
          In o out -> In k (MinHeap.items (fst (MinHeap.push cmp h x))) ->
          le cmp o k).
Proof.
  intros Hord. unfold MinHeap.push, MinHeap.peek.
  destruct (Nat.ltb_spec 0 (MinHeap.maxSize h)) as [Hpos|Hpos];
    [destruct (Nat.leb_spec (MinHeap.maxSize h) (length (MinHeap.items h)))
       as [Hfull|Hfull]|]; cbn [andb].
  - destruct (MinHeap.items h) as [|top rest] eqn:E;
      [cbn [length] in Hfull; lia|].
    assert (Hroot : forall k : T, In k (top :: rest) -> le cmp top k).
    { apply root_min_In; [exact Hord|reflexivity]. }
    destruct (cmp x top) eqn:Ex; cbn [fst snd MinHeap.items].
    + exists [x]. rewrite E.
      split; [symmetry; apply Permutation_cons_append|].
      split; [intros _; split; reflexivity|].
      split; [discriminate|].
      split; [intros _; lia|].
      intros o k [<-|[]] Hk. apply le_trans with top; [|apply Hroot, Hk].
      unfold le. rewrite Ex. discriminate.
    + exists [x]. rewrite E.
      split; [symmetry; apply Permutation_cons_append|].
      split; [intros _; split; reflexivity|].
      split; [discriminate|].
      split; [intros _; lia|].
      intros o k [<-|[]] Hk. apply le_trans with top; [|apply Hroot, Hk].
      unfold le. rewrite Ex. discriminate.
    + exists [top].
      assert (Htx : le cmp top x).
      { apply le_of_lt. destruct Hcmp as [Hanti _].
        rewrite (Hanti x top), Ex. reflexivity. }
      assert (Hperm : Permutation
                (MinHeap.heapifyDown cmp (MinHeap.setItem (top :: rest) 0 x) 0)
                (x :: rest)).
      { unfold MinHeap.heapifyDown.
        rewrite heapifyDown_loop_permutation. reflexivity. }
      split.
      { rewrite Hperm. cbn [app].
        apply perm_skip. symmetry. apply Permutation_cons_append. }
      split; [discriminate|].
      split; [intros _; right; exists top; split; reflexivity|].
      split; [intros _; lia|].
      intros o k [<-|[]] Hk.
      apply (Permutation_in _ Hperm) in Hk. destruct Hk as [<-|Hk];
        [exact Htx|apply Hroot; right; exact Hk].
  - exists []. cbn [fst snd MinHeap.items]. rewrite app_nil_r.
    split.
    { unfold MinHeap.heapifyUp. rewrite heapifyUp_loop_permutation.
      symmetry. apply Permutation_cons_append. }
    split; [discriminate|].
    split; [intros _; left; reflexivity|].
    split; [intros Hne; contradiction Hne; reflexivity|].
    intros o k [].
  - exists []. cbn [fst snd MinHeap.items]. rewrite app_nil_r.
    split.
    { unfold MinHeap.heapifyUp. rewrite heapifyUp_loop_permutation.
      symmetry. apply Permutation_cons_append. }
    split; [discriminate|].
    split; [intros _; left; reflexivity|].
    split; [intros Hne; contradiction Hne; reflexivity|].
    intros o k [].
Qed.

(** X2 (min-heap.ts, push): what a push does to the content of an ordered
    heap.  At most one item leaves (the pushed one when the call returns
    false, the old minimum when a full heap takes the item); the items
    kept and the item that left are together the old items and the pushed
    one; the item that left is not above any item kept; and an item only
    leaves a bounded heap that is full. *)
Theorem push_keeps_the_larger_items (h : MinHeap.t T) (x : T) :
  heapOrdered cmp (MinHeap.items h) ->
  exists out : list T,
    Permutation (MinHeap.items (fst (MinHeap.push cmp h x)) ++ out)
                (x :: MinHeap.items h)
    /\ (snd (MinHeap.push cmp h x) = false ->
        out = [x] /\ fst (MinHeap.push cmp h x) = h)
    /\ (snd (MinHeap.push cmp h x) = true ->
        out = [] \/ exists top, MinHeap.peek h = Some top /\ out = [top])
    /\ (out <> [] ->
        0 < MinHeap.maxSize h <= length (MinHeap.items h))
    /\ (forall o k : T,
          In o out -> In k (MinHeap.items (fst (MinHeap.push cmp h x))) ->
          le cmp o k).
Proof. exact (push_content h x). Qed.

(** X3 (min-heap.ts, peek): the item peek returns from an ordered heap is
    not above any item of the heap. *)
Theorem peek_is_a_minimum (h : MinHeap.t T) (m : T) :
  heapOrdered cmp (MinHeap.items h) ->
  MinHeap.peek h = Some m ->
  forall x, In x (MinHeap.items h) -> le cmp m x.
Proof.
  intros Hord Hm. apply root_min_In; assumption.
Qed.

Lemma pop_spec (h : MinHeap.t T) :
  heapOrdered cmp (MinHeap.items h) ->
  match MinHeap.pop cmp h with
  | (h', None) => MinHeap.items h = [] /\ h' = h
  | (h', Some m) =>
      Permutation (m :: MinHeap.items h') (MinHeap.items h)
      /\ (forall x, In x (MinHeap.items h) -> le cmp m x)
      /\ heapOrdered cmp (MinHeap.items h')
      /\ MinHeap.maxSize h' = MinHeap.maxSize h
  end.
Proof.
  intros Hord. unfold MinHeap.pop.
  destruct (MinHeap.items h) as [|min [|b rest]] eqn:E.
  - split; reflexivity.
  - cbn [MinHeap.items MinHeap.maxSize].
    split; [reflexivity|]. split; [intros x [<-|[]]; apply le_refl|].
    split; [|reflexivity].
    intros p c x y _ Hx. destruct p; discriminate.
  - cbn [MinHeap.items MinHeap.maxSize]. rewrite pop_array.
    unfold MinHeap.heapifyDown.
    split.
    { rewrite heapifyDown_loop_permutation.
      apply perm_skip, pop_array_permutation. }
    split; [apply root_min_In; [exact Hord|reflexivity]|].
    split; [|reflexivity].
    apply heapifyDown_loop_ordered; [lia|].
    apply pop_array_downInvariant, Hord.
Qed.

(** X4 (min-heap.ts, pop with heapifyDown): pop returns nothing exactly
    when the heap is empty, and leaves the heap as it is then.  From an
    ordered heap that is not empty it returns an item that is not above
    any other, the items left are the old ones without it, and they are
    in heap order again. *)
Theorem pop_removes_a_minimum (h : MinHeap.t T) :
  heapOrdered cmp (MinHeap.items h) ->
  match MinHeap.pop cmp h with
  | (h', None) => MinHeap.items h = [] /\ h' = h
  | (h', Some m) =>
      Permutation (m :: MinHeap.items h') (MinHeap.items h)
      /\ (forall x, In x (MinHeap.items h) -> le cmp m x)
      /\ heapOrdered cmp (MinHeap.items h')
      /\ MinHeap.maxSize h' = MinHeap.maxSize h
  end.
Proof. exact (pop_spec h). Qed.

Lemma heapOrderedb_correct (l : list T) :
  heapOrderedb cmp l = true -> heapOrdered cmp l.
Proof.
  unfold heapOrderedb. intros H p c x y Hc Hx Hy.
  rewrite forallb_forall in H.
  pose proof (child_parent _ _ Hc) as [Hp Hlt].
  assert (Hlen : c < length l) by (apply nth_error_Some; congruence).
  specialize (H c). rewrite <- Hp, Hx, Hy in H.
  unfold le. destruct (cmp x y); try discriminate.
  assert (false = true) by (apply H, in_seq; lia). discriminate.
Qed.

Lemma extractAll_loop_sorted fuel (h : MinHeap.t T) :
  length (MinHeap.items h) = fuel ->
  heapOrdered cmp (MinHeap.items h) ->
  StronglySorted (le cmp) (MinHeap.extractAll_loop cmp fuel h)
  /\ Permutation (MinHeap.extractAll_loop cmp fuel h) (MinHeap.items h).
Proof.
  revert h; induction fuel as [|fuel IH]; intros h Hlen Hord.
  - apply length_zero_iff_nil in Hlen. rewrite Hlen.
    split; constructor.
  - cbn [MinHeap.extractAll_loop].
    pose proof (pop_spec h Hord) as Hpop.
    destruct (MinHeap.pop cmp h) as [h' [m|]].
    + destruct Hpop as (Hperm & Hmin & Hord' & _).
      assert (Hlen' : length (MinHeap.items h') = fuel).
      { apply Permutation_length in Hperm. cbn [length] in Hperm. lia. }
      destruct (IH h' Hlen' Hord') as [Hs Hp].
      split.
      * constructor; [exact Hs|].
        apply Forall_forall. intros x Hx. apply Hmin.
        apply (Permutation_in _ Hperm). right.
        apply (Permutation_in _ Hp), Hx.
      * rewrite <- Hperm. apply perm_skip, Hp.
    + destruct Hpop as [Hnil _]. rewrite Hnil in Hlen. discriminate.
Qed.

Lemma extractAll_sorted (h : MinHeap.t T) :
  heapOrdered cmp (MinHeap.items h) ->
  StronglySorted (le cmp) (MinHeap.extractAll cmp h)
  /\ Permutation (MinHeap.extractAll cmp h) (MinHeap.items h).
Proof.
  intros Hord. unfold MinHeap.extractAll.
  apply extractAll_loop_sorted; [reflexivity|exact Hord].
Qed.

(** X5 (min-heap.ts, extractAll): from an ordered heap extractAll returns
    every item of the heap, each as often as the heap holds it, smallest
    first: no item of the result is above a later one. *)
Theorem extractAll_sorts_the_items (h : MinHeap.t T) :
  heapOrdered cmp (MinHeap.items h) ->
  StronglySorted (le cmp) (MinHeap.extractAll cmp h)
  /\ Permutation (MinHeap.extractAll cmp h) (MinHeap.items h).
Proof. exact (extractAll_sorted h). Qed.

(** What a bounded heap keeps over a run of pushes: the heap order, the
    bound, and that nothing dropped is above anything kept. *)
Lemma pushAll_invariant (xs : list T) :
  forall (h : MinHeap.t T) (dropped0 : list T),
    0 < MinHeap.maxSize h ->
    heapOrdered cmp (MinHeap.items h) ->
    length (MinHeap.items h) <= MinHeap.maxSize h ->
    (dropped0 = [] \/ length (MinHeap.items h) = MinHeap.maxSize h) ->
    (forall d k : T, In d dropped0 -> In k (MinHeap.items h) -> le cmp d k) ->
    exists dropped : list T,
      MinHeap.maxSize (pushAll cmp h xs) = MinHeap.maxSize h
      /\ Permutation (MinHeap.items (pushAll cmp h xs) ++ dropped)
                     (xs ++ MinHeap.items h ++ dropped0)
      /\ heapOrdered cmp (MinHeap.items (pushAll cmp h xs))
      /\ length (MinHeap.items (pushAll cmp h xs)) <= MinHeap.maxSize h
      /\ (dropped = []
          \/ length (MinHeap.items (pushAll cmp h xs)) = MinHeap.maxSize h)
      /\ (forall d k : T,
            In d dropped -> In k (MinHeap.items (pushAll cmp h xs)) ->
            le cmp d k).
Proof.
  induction xs as [|x xs IH]; intros h dropped0 Hpos Hord Hlen Hfull Hle.
  - exists dropped0. cbn [pushAll fold_left app].
    repeat (split; [first [reflexivity | assumption]|]). exact Hle.
  - change (pushAll cmp h (x :: xs))
      with (pushAll cmp (fst (MinHeap.push cmp h x)) xs).
    destruct (push_content h x Hord)
      as (out & Hperm & Hrej & Hacc & Hout & Hmin).
    pose proof (push_ordered h x Hord) as Hord1.
    pose proof (push_size T cmp h x) as [Hmax Hsize].
    specialize (Hsize Hpos Hlen). unfold MinHeap.size in Hsize.
    set (h1 := fst (MinHeap.push cmp h x)) in *.
    pose proof (Permutation_length Hperm) as Hl.
    rewrite length_app in Hl. cbn [length] in Hl.
    assert (Hout1 : out = [] \/ exists o, out = [o]).
    { destruct (snd (MinHeap.push cmp h x)).
      - destruct (Hacc eq_refl) as [->|(top & _ & ->)]; eauto.
      - destruct (Hrej eq_refl) as [-> _]; eauto. }
    destruct (IH h1 (out ++ dropped0)) as (dropped & H1 & H2 & H3 & H4 & H5 & H6).
    + rewrite Hmax. exact Hpos.
    + exact Hord1.
    + rewrite Hmax. exact Hsize.
    + rewrite Hmax. destruct Hout1 as [->|[o ->]].
      * destruct Hfull as [->|Hf]; [left; reflexivity|].
        cbn [length] in Hl. lia.
      * right. cbn [length] in Hl.
        assert (Hne : [o] <> []) by discriminate.
        apply Hout in Hne. lia.
    + intros d k Hd Hk. apply in_app_or in Hd as [Hd|Hd];
        [apply Hmin; assumption|].
      destruct Hfull as [->|Hf]; [destruct Hd|].
      destruct (snd (MinHeap.push cmp h x)) eqn:Es.
      * destruct (Hacc eq_refl) as [->|(top & Htop & ->)].
        -- cbn [length] in Hl. lia.
        -- apply le_trans with top.
           ++ apply Hle; [exact Hd|].
              unfold MinHeap.peek in Htop. apply nth_error_In in Htop.
              exact Htop.
           ++ apply Hmin; [left; reflexivity|exact Hk].
      * destruct (Hrej eq_refl) as [_ Heq].
        apply Hle; [exact Hd|]. fold h1 in Heq. rewrite <- Heq. exact Hk.
    + rewrite Hmax in H1, H4, H5. exists dropped.
      split; [exact H1|].
      split; [|repeat (split; [assumption|]); assumption].
      rewrite H2.
      transitivity (xs ++ (MinHeap.items h1 ++ out) ++ dropped0);
        [rewrite <- app_assoc; reflexivity|].
      rewrite Hperm. cbn [app]. symmetry. apply Permutation_middle.
Qed.

Lemma pushAll_largest (K : nat) (xs : list T) :
  0 < K ->
  exists dropped : list T,
    Permutation
      (MinHeap.items (pushAll cmp (MinHeap.create T K) xs) ++ dropped) xs
    /\ MinHeap.size (pushAll cmp (MinHeap.create T K) xs)
       = Nat.min K (length xs)
    /\ heapOrdered cmp (MinHeap.items (pushAll cmp (MinHeap.create T K) xs))
    /\ (forall d k : T,
          In d dropped ->
          In k (MinHeap.items (pushAll cmp (MinHeap.create T K) xs)) ->
          le cmp d k).
Proof.
  intros HK.
  destruct (pushAll_invariant xs (MinHeap.create T K) [])
    as (dropped & _ & Hperm & Hord & Hlen & Hfull & Hle).
  - exact HK.
  - intros p c x y _ Hx. destruct p; discriminate.
  - cbn. lia.
  - left; reflexivity.
  - intros d k [].
  - cbn [MinHeap.create MinHeap.items MinHeap.maxSize app] in *.
    rewrite !app_nil_r in Hperm.
    exists dropped. split; [exact Hperm|]. split; [|split; assumption].
    unfold MinHeap.size.
    pose proof (Permutation_length Hperm) as Hl. rewrite length_app in Hl.
    destruct Hfull as [->|Hf]; cbn [length] in Hl; lia.
Qed.

(** X6 (min-heap.ts, constructor and push): a heap created with a bound
    K above zero keeps the largest K items pushed into it.  Its items
    and the items dropped are together the items pushed; it holds K
    items, or all when fewer were pushed; it is in heap order; and
    nothing dropped is above anything kept. *)
Theorem pushAll_keeps_the_largest (K : nat) (xs : list T) :
  0 < K ->
  exists dropped : list T,
    Permutation
      (MinHeap.items (pushAll cmp (MinHeap.create T K) xs) ++ dropped) xs
    /\ MinHeap.size (pushAll cmp (MinHeap.create T K) xs)
       = Nat.min K (length xs)
    /\ heapOrdered cmp (MinHeap.items (pushAll cmp (MinHeap.create T K) xs))
    /\ (forall d k : T,
          In d dropped ->
          In k (MinHeap.items (pushAll cmp (MinHeap.create T K) xs)) ->
          le cmp d k).
Proof. exact (pushAll_largest K xs). Qed.

End HeapOrder.

Lemma nat_compare_consistent : HeapSpec.consistent Nat.compare.
Proof.
  split.
  - intros a b. apply Nat.compare_antisym.
  - unfold HeapSpec.le. intros a b c Hab Hbc.
    apply Nat.compare_le_iff. apply Nat.compare_le_iff in Hab, Hbc. lia.
Qed.

Lemma threeNumbers_ordered :
  HeapSpec.heapOrdered Nat.compare (MinHeap.items HeapSpec.threeNumbers).
Proof.
  apply (heapOrderedb_correct nat Nat.compare). reflexivity.
Qed.

Lemma push_keeps_heap_order_witness :
  HeapSpec.heapOrdered Nat.compare
    (MinHeap.items (fst (MinHeap.push Nat.compare HeapSpec.threeNumbers 5))).
Proof.
  apply (push_keeps_heap_order nat Nat.compare nat_compare_consistent
           HeapSpec.threeNumbers 5).
  apply (heapOrderedb_correct nat Nat.compare). reflexivity.
Defined.

Lemma push_keeps_the_larger_items_witness :
  exists out : list nat,
    Permutation
      (MinHeap.items (fst (MinHeap.push Nat.compare HeapSpec.threeNumbers 5))
       ++ out)
      (5 :: MinHeap.items HeapSpec.threeNumbers)
    /\ (forall o k : nat,
          In o out ->
          In k (MinHeap.items
                  (fst (MinHeap.push Nat.compare HeapSpec.threeNumbers 5))) ->
          HeapSpec.le Nat.compare o k).
Proof.
  destruct (push_keeps_the_larger_items nat Nat.compare nat_compare_consistent
              HeapSpec.threeNumbers 5) as (out & H1 & _ & _ & _ & H5).
  - apply (heapOrderedb_correct nat Nat.compare). reflexivity.
  - exists out. split; assumption.
Defined.

Lemma peek_is_a_minimum_witness :
  MinHeap.peek HeapSpec.threeNumbers = Some 1
  /\ HeapSpec.le Nat.compare 1 3.
Proof.
  split; [reflexivity|].
  apply (peek_is_a_minimum nat Nat.compare nat_compare_consistent
           HeapSpec.threeNumbers 1).
  - apply (heapOrderedb_correct nat Nat.compare). reflexivity.
  - reflexivity.
  - right. left. reflexivity.
Defined.

Lemma pop_removes_a_minimum_witness :
  match MinHeap.pop Nat.compare HeapSpec.threeNumbers with
  | (h', None) =>
      MinHeap.items HeapSpec.threeNumbers = [] /\ h' = HeapSpec.threeNumbers
  | (h', Some m) =>
      Permutation (m :: MinHeap.items h') (MinHeap.items HeapSpec.threeNumbers)
      /\ (forall x, In x (MinHeap.items HeapSpec.threeNumbers) ->
                    HeapSpec.le Nat.compare m x)
      /\ HeapSpec.heapOrdered Nat.compare (MinHeap.items h')
      /\ MinHeap.maxSize h' = MinHeap.maxSize HeapSpec.threeNumbers
  end.
Proof.
  apply (pop_removes_a_minimum nat Nat.compare nat_compare_consistent
           HeapSpec.threeNumbers).
  apply (heapOrderedb_correct nat Nat.compare). reflexivity.
Defined.

Lemma extractAll_sorts_the_items_witness :
  StronglySorted (HeapSpec.le Nat.compare)
    (MinHeap.extractAll Nat.compare HeapSpec.threeNumbers)
  /\ Permutation (MinHeap.extractAll Nat.compare HeapSpec.threeNumbers)
       (MinHeap.items HeapSpec.threeNumbers).
Proof.
  apply (extractAll_sorts_the_items nat Nat.compare nat_compare_consistent
           HeapSpec.threeNumbers).
  apply (heapOrderedb_correct nat Nat.compare). reflexivity.
Defined.

Lemma pushAll_keeps_the_largest_witness :
  exists dropped : list nat,
    Permutation
      (MinHeap.items
         (HeapSpec.pushAll Nat.compare (MinHeap.create nat 2) [4; 1; 3; 2])
       ++ dropped)
      [4; 1; 3; 2]
    /\ MinHeap.size
         (HeapSpec.pushAll Nat.compare (MinHeap.create nat 2) [4; 1; 3; 2])
       = 2.
Proof.
  destruct (pushAll_keeps_the_largest nat Nat.compare nat_compare_consistent
              2 [4; 1; 3; 2]) as (dropped & H1 & H2 & _); [lia|].
  exists dropped. split; assumption.
Defined.

(** *** The content of the heap, whatever the comparison function *)

Section HeapContent.
Variable T : Type.
Variable cmp : T -> T -> comparison.

Lemma push_permutation (h : MinHeap.t T) (x : T) :
  exists out : list T,
    Permutation (MinHeap.items (fst (MinHeap.push cmp h x)) ++ out)
                (x :: MinHeap.items h).
Proof.
  unfold MinHeap.push.
  destruct ((0 <? MinHeap.maxSize h)
            && (MinHeap.maxSize h <=? length (MinHeap.items h))).
  - destruct (MinHeap.items h) as [|top rest] eqn:E.
    + exists [x]. cbn [fst]. rewrite E. reflexivity.
    + destruct (cmp x top); cbn [fst MinHeap.items].
      * exists [x]. rewrite E. symmetry. apply Permutation_cons_append.
      * exists [x]. rewrite E. symmetry. apply Permutation_cons_append.
      * exists [top]. unfold MinHeap.heapifyDown.
        rewrite heapifyDown_loop_permutation. cbn [MinHeap.setItem app].
        apply perm_skip. symmetry. apply Permutation_cons_append.
  - exists []. cbn [fst MinHeap.items]. rewrite app_nil_r.
    unfold MinHeap.heapifyUp. rewrite heapifyUp_loop_permutation.
    symmetry. apply Permutation_cons_append.
Qed.

Lemma push_incl (h : MinHeap.t T) (x k : T) :
  In k (MinHeap.items (fst (MinHeap.push cmp h x))) ->
  k = x \/ In k (MinHeap.items h).
Proof.
  intros Hk. destruct (push_permutation h x) as [out Hperm].
  assert (H : In k (x :: MinHeap.items h)).
  { apply (Permutation_in _ Hperm), in_or_app. left. exact Hk. }
  destruct H as [<-|H]; auto.
Qed.

Lemma pop_permutation (h : MinHeap.t T) :
  match MinHeap.pop cmp h with
  | (h', Some m) => Permutation (m :: MinHeap.items h') (MinHeap.items h)
  | (_, None) => MinHeap.items h = []
  end.
Proof.
  unfold MinHeap.pop.
  destruct (MinHeap.items h) as [|min [|b rest]] eqn:E;
    [reflexivity|reflexivity|].
  cbn [MinHeap.items]. rewrite pop_array. unfold MinHeap.heapifyDown.
  rewrite heapifyDown_loop_permutation.
  apply perm_skip, pop_array_permutation.
Qed.

Lemma extractAll_loop_permutation fuel (h : MinHeap.t T) :
  length (MinHeap.items h) = fuel ->
  Permutation (MinHeap.extractAll_loop cmp fuel h) (MinHeap.items h).
Proof.
  revert h; induction fuel as [|fuel IH]; intros h Hlen.
  - apply length_zero_iff_nil in Hlen. rewrite Hlen. constructor.
  - cbn [MinHeap.extractAll_loop].
    pose proof (pop_permutation h) as Hpop.
    destruct (MinHeap.pop cmp h) as [h' [m|]].
    + rewrite <- Hpop. apply perm_skip, IH.
      apply Permutation_length in Hpop. cbn [length] in Hpop. lia.
    + rewrite Hpop in Hlen. discriminate.
Qed.

Lemma extractAll_permutation (h : MinHeap.t T) :
  Permutation (MinHeap.extractAll cmp h) (MinHeap.items h).
Proof.
  unfold MinHeap.extractAll. apply extractAll_loop_permutation. reflexivity.
Qed.

End HeapContent.

(** ** What the stream yields *)

Lemma firstn_In (A : Type) (n : nat) (l : list A) (x : A) :
  In x (firstn n l) -> In x l.
Proof.
  intros H. rewrite <- (firstn_skipn n l). apply in_or_app. left. exact H.
Qed.

Lemma NoDup_firstn (A : Type) (n : nat) (l : list A) :
  NoDup l -> NoDup (firstn n l).
Proof.
  intros H. rewrite <- (firstn_skipn n l) in H.
  apply NoDup_app_remove_r in H. exact H.
Qed.

Section SetFacts.
Import Provider.

Lemma set_has_In (s : list jsstring) (x : jsstring) :
  set_has s x = true <-> In x s.
Proof.
  unfold set_has. rewrite existsb_exists. split.
  - intros (y & Hy & E). apply jseqb_eq in E. subst. exact Hy.
  - intros H. exists x. split; [exact H|apply jseqb_refl].
Qed.

Lemma set_has_not_In (s : list jsstring) (x : jsstring) :
  set_has s x = false <-> ~ In x s.
Proof.
  rewrite <- set_has_In. destruct (set_has s x); split; intros H;
    try reflexivity; try discriminate; try (intros E; discriminate).
  contradiction H; reflexivity.
Qed.

Lemma set_add_In (s : list jsstring) (x y : jsstring) :
  In y (set_add s x) <-> In y s \/ y = x.
Proof.
  unfold set_add. destruct (set_has s x) eqn:E.
  - apply set_has_In in E. split; [auto|]. intros [H | ->]; assumption.
  - rewrite in_app_iff. cbn [In]. intuition.
Qed.

Lemma set_add_NoDup (s : list jsstring) (x : jsstring) :
  NoDup s -> NoDup (set_add s x).
Proof.
  intros H. unfold set_add. destruct (set_has s x) eqn:E; [exact H|].
  apply set_has_not_In in E.
  apply NoDup_app; [exact H|repeat constructor; intros []|].
  intros y Hy [<-|[]]. contradiction.
Qed.

Lemma set_delete_In (s : list jsstring) (x y : jsstring) :
  In y (set_delete s x) <-> In y s /\ y <> x.
Proof.
  unfold set_delete. rewrite filter_In, negb_true_iff, jseqb_neq. reflexivity.
Qed.

Lemma set_delete_NoDup (s : list jsstring) (x : jsstring) :
  NoDup s -> NoDup (set_delete s x).
Proof. apply NoDup_filter. Qed.

Lemma fold_set_add_In (l s : list jsstring) (y : jsstring) :
  In y (fold_left set_add l s) <-> In y s \/ In y l.
Proof.
  revert s; induction l as [|x l IH]; intros s; cbn [fold_left In].
  - intuition.
  - rewrite IH, set_add_In. intuition (subst; auto).
Qed.

Lemma fold_set_add_NoDup (l s : list jsstring) :
  NoDup s -> NoDup (fold_left set_add l s).
Proof.
  revert s; induction l as [|x l IH]; intros s H; cbn [fold_left];
    [exact H|]. apply IH, set_add_NoDup, H.
Qed.

End SetFacts.

Section Results.
Context {U : Unicode} {NUM : JSNumber} {CLK : Clock} {RX : RegExpEngine}.
Import Provider Spec ResultSpec.

(** *** Sorting and emitting keep to what they are given *)

Lemma insertByScore_permutation (x : SearchResult) (l : list SearchResult) :
  Permutation (insertByScore x l) (x :: l).
Proof.
  induction l as [|y l IH]; cbn [insertByScore]; [reflexivity|].
  destruct (nltb (sr_score x) (sr_score y)); [|reflexivity].
  rewrite IH. apply perm_swap.
Qed.

Lemma sortByScoreDesc_permutation (l : list SearchResult) :
  Permutation (sortByScoreDesc l) l.
Proof.
  induction l as [|x l IH]; cbn [sortByScoreDesc fold_right]; [reflexivity|].
  rewrite insertByScore_permutation. apply perm_skip, IH.
Qed.

Lemma emit_spec (top : list SearchResult) :
  forall yieldedIds : list jsstring,
    (forall r, In r (fst (emit top yieldedIds)) -> In r top)
    /\ (forall x, In x (snd (emit top yieldedIds))
                  <-> In x yieldedIds \/ In x (ids (fst (emit top yieldedIds))))
    /\ NoDup (ids (fst (emit top yieldedIds)))
    /\ (forall x, In x (ids (fst (emit top yieldedIds))) -> ~ In x yieldedIds).
Proof.
  induction top as [|r top IH]; intros yieldedIds; cbn [emit].
  - cbn. repeat split; try tauto; try constructor.
  - destruct (set_has yieldedIds (sr_id r)) eqn:E; cbn [negb].
    + destruct (IH yieldedIds) as (H1 & H2 & H3 & H4).
      repeat split; try assumption; try apply H2.
      intros r0 Hr0. right. apply H1, Hr0.
    + destruct (IH (set_add yieldedIds (sr_id r))) as (H1 & H2 & H3 & H4).
      destruct (emit top (set_add yieldedIds (sr_id r))) as [out ids1].
      cbn [fst snd] in *. apply set_has_not_In in E.
      split; [intros r0 [<-|Hr0]; [left; reflexivity|right; apply H1, Hr0]|].
      split.
      { intros x. rewrite H2, set_add_In. cbn [ids map In]. fold (ids out).
        intuition. }
      split.
      { cbn [ids map]. fold (ids out). constructor; [|exact H3].
        intros Hin. apply (H4 _ Hin). apply set_add_In. right. reflexivity. }
      intros x. cbn [ids map In]. fold (ids out). intros [<-|Hx]; [exact E|].
      intros Hy. apply (H4 _ Hx). apply set_add_In. left. exact Hy.
Qed.

(** *** One round of the scoring loop *)

(** The heap after a candidate: the result made for it, if any, is
    pushed. *)
Lemma scoreCandidate_shape (p : t) (q : ParsedQuery) (limit : nat)
    (st : StreamState) (docId : jsstring) :
  exists top : list SearchResult,
    (forall r, In r top ->
               In r (MinHeap.items (ss_heap (scoreCandidate p q limit st docId))))
    /\ ss_heap (scoreCandidate p q limit st docId)
       = HeapSpec.pushAll compareScore (ss_heap st) (pushedFor p q docId)
    /\ ss_yielded (scoreCandidate p q limit st docId)
       = ss_yielded st ++ fst (emit top (ss_yieldedIds st))
    /\ ss_yieldedIds (scoreCandidate p q limit st docId)
       = snd (emit top (ss_yieldedIds st)).
Proof.
  unfold scoreCandidate, pushedFor.
  destruct (map_get (docs p) docId) as [docMetadata|].
  2:{ exists []. cbn [emit fst snd HeapSpec.pushAll fold_left].
      rewrite app_nil_r. repeat split. intros r []. }
  match goal with
  | |- context [0 <? MinHeap.size ?h] => set (heap1 := h)
  end.
  assert (Hheap : heap1 = HeapSpec.pushAll compareScore (ss_heap st)
            match Scorer.createScorer (scorerConfig (options p))
                    (dm_doc docMetadata) q with
            | Some scored =>
                if nltb (of_Z 0) (Scorer.sd_score scored)
                then [{| sr_id := docId; sr_score := Scorer.sd_score scored;
                         sr_matchSpans := Scorer.sd_matchSpans scored |}]
                else []
            | None => []
            end).
  { unfold heap1.
    destruct (Scorer.createScorer (scorerConfig (options p)) (dm_doc docMetadata) q)
      as [scored|]; [|reflexivity].
    destruct (nltb (of_Z 0) (Scorer.sd_score scored)); reflexivity. }
  rewrite <- Hheap. clearbody heap1.
  destruct ((S (ss_processedCount st) mod 100 =? 0) && (0 <? MinHeap.size heap1)).
  - exists (firstn (Nat.min 5 (limit / 2))
              (sortByScoreDesc (MinHeap.toArray heap1))).
    destruct (emit _ _) as [out ids1]. cbn [ss_heap ss_yielded ss_yieldedIds fst snd].
    split; [|repeat split].
    intros r Hr. apply firstn_In in Hr.
    apply (Permutation_in _ (sortByScoreDesc_permutation _)) in Hr. exact Hr.
  - exists []. cbn [emit fst snd ss_heap ss_yielded ss_yieldedIds].
    rewrite app_nil_r. repeat split. intros r [].
Qed.

Lemma pushAll_app (h : ResultHeap) (a b : list SearchResult) :
  HeapSpec.pushAll compareScore h (a ++ b)
  = HeapSpec.pushAll compareScore (HeapSpec.pushAll compareScore h a) b.
Proof. unfold HeapSpec.pushAll. apply fold_left_app. Qed.

Lemma fold_scoreCandidate_heap (p : t) (q : ParsedQuery) (limit : nat)
    (cs : list jsstring) :
  forall st,
    ss_heap (fold_left (scoreCandidate p q limit) cs st)
    = HeapSpec.pushAll compareScore (ss_heap st) (flat_map (pushedFor p q) cs).
Proof.
  induction cs as [|c cs IH]; intros st; cbn [fold_left flat_map];
    [reflexivity|].
  rewrite IH, pushAll_app.
  destruct (scoreCandidate_shape p q limit st c) as (top & _ & -> & _).
  reflexivity.
Qed.

(** The heap of the scoring loop is the heap of the given capacity with
    the results of the candidates pushed in their order. *)
Lemma scoringLoop_heap (p : t) (q : ParsedQuery) (limit : nat) :
  ss_heap (scoringLoop p q limit)
  = HeapSpec.pushAll compareScore (MinHeap.create SearchResult limit)
      (pushed p q).
Proof. unfold scoringLoop, pushed. apply fold_scoreCandidate_heap. Qed.

(** *** Every result is an accepted one *)

Lemma pushedFor_accepted (p : t) (q : ParsedQuery) (docId : jsstring)
    (r : SearchResult) :
  In docId (gatherCandidates p q) -> In r (pushedFor p q docId) ->
  accepted p q r.
Proof.
  unfold pushedFor, Scorer.createScorer. intros Hc.
  destruct (map_get (docs p) docId) as [docMetadata|] eqn:Hd; [|intros []].
  destruct (Scorer.scoreDoc (dm_doc docMetadata) q (scorerConfig (options p)))
    as [scored|] eqn:Hs; [|intros []].
  destruct (nltb (of_Z 0) (Scorer.sd_score scored)) eqn:Hpos; [|intros []].
  intros [<-|[]]. split; [exact Hc|].
  exists docMetadata, scored. cbn [sr_id sr_score sr_matchSpans].
  repeat split; try assumption.
  exists []. rewrite app_nil_r. reflexivity.
Qed.

Lemma pushedFor_id (p : t) (q : ParsedQuery) (docId : jsstring)
    (r : SearchResult) :
  In r (pushedFor p q docId) -> sr_id r = docId.
Proof.
  unfold pushedFor.
  destruct (map_get (docs p) docId) as [docMetadata|]; [|intros []].
  destruct (Scorer.createScorer _ _ _) as [scored|]; [|intros []].
  destruct (nltb (of_Z 0) (Scorer.sd_score scored)); [|intros []].
  intros [<-|[]]. reflexivity.
Qed.

Lemma pushAll_incl (h : ResultHeap) (xs : list SearchResult) (k : SearchResult) :
  In k (MinHeap.items (HeapSpec.pushAll compareScore h xs)) ->
  In k xs \/ In k (MinHeap.items h).
Proof.
  revert h; induction xs as [|x xs IH]; intros h; cbn [HeapSpec.pushAll fold_left].
  - auto.
  - intros Hk. apply IH in Hk as [Hk|Hk]; [left; right; exact Hk|].
    apply push_incl in Hk as [->|Hk]; [left; left; reflexivity|right; exact Hk].
Qed.

(** A result with the id and the score of an accepted one, and its spans
    extended, is accepted. *)
Lemma accepted_extended (p : t) (q : ParsedQuery) (r0 r : SearchResult) :
  accepted p q r0 -> sr_id r = sr_id r0 -> sr_score r = sr_score r0 ->
  (exists extra, sr_matchSpans r = sr_matchSpans r0 ++ extra) ->
  accepted p q r.
Proof.
  intros (Hc & docMetadata & scored & Hd & Hs & Hscore & Hpos & extra0 & Hsp)
         Hid Hsc (extra & Hext).
  unfold accepted. rewrite Hid, Hsc. split; [exact Hc|].
  exists docMetadata, scored. repeat split; try assumption.
  exists (extra0 ++ extra). rewrite Hext, Hsp, app_assoc. reflexivity.
Qed.

Lemma fold_scoreCandidate_accepted (p : t) (q : ParsedQuery) (limit : nat)
    (cs : list jsstring) :
  forall st,
    incl cs (gatherCandidates p q) ->
    Forall (accepted p q) (MinHeap.items (ss_heap st)) ->
    Forall (accepted p q) (ss_yielded st) ->
    Forall (accepted p q)
      (MinHeap.items (ss_heap (fold_left (scoreCandidate p q limit) cs st)))
    /\ Forall (accepted p q)
         (ss_yielded (fold_left (scoreCandidate p q limit) cs st)).
Proof.
  induction cs as [|c cs IH]; intros st Hincl Hheap Hy; cbn [fold_left];
    [split; assumption|].
  destruct (scoreCandidate_shape p q limit st c) as (top & Htop & Hh & Hyd & _).
  assert (Hheap1 : Forall (accepted p q)
            (MinHeap.items (ss_heap (scoreCandidate p q limit st c)))).
  { apply Forall_forall. intros r Hr. rewrite Hh in Hr.
    apply pushAll_incl in Hr as [Hr|Hr].
    - apply (pushedFor_accepted p q c); [apply Hincl; left; reflexivity|exact Hr].
    - rewrite Forall_forall in Hheap. apply Hheap, Hr. }
  apply IH.
  - intros x Hx. apply Hincl. right. exact Hx.
  - exact Hheap1.
  - rewrite Hyd. apply Forall_app. split; [exact Hy|].
    apply Forall_forall. intros r Hr.
    rewrite Forall_forall in Hheap1. apply Hheap1, Htop.
    apply (proj1 (emit_spec top (ss_yieldedIds st))), Hr.
Qed.

Lemma scoringLoop_accepted (p : t) (q : ParsedQuery) (limit : nat) :
  Forall (accepted p q) (finalResults (scoringLoop p q limit))
  /\ Forall (accepted p q) (ss_yielded (scoringLoop p q limit)).
Proof.
  destruct (fold_scoreCandidate_accepted p q limit (gatherCandidates p q)
              {| ss_heap := MinHeap.create SearchResult limit;
                 ss_yieldedIds := []; ss_processedCount := 0;
                 ss_yielded := [] |})
    as [Hh Hy]; [apply incl_refl|constructor|constructor|].
  split; [|exact Hy].
  unfold finalResults. apply Forall_forall. intros r Hr.
  apply in_rev in Hr.
  apply (Permutation_in _ (extractAll_permutation _ compareScore _)) in Hr.
  rewrite Forall_forall in Hh. apply Hh, Hr.
Qed.

(** What the regex filter keeps: results it was given, with spans
    appended. *)
Lemma regexFilter_loop_spec (p : t) (rx : RegExp) (unicode : bool)
    (topK : list SearchResult) :
  forall (lastIndex : nat) (r : SearchResult),
    In r (regexFilter_loop p rx unicode topK lastIndex) ->
    exists r0, In r0 topK /\ sr_id r = sr_id r0 /\ sr_score r = sr_score r0
               /\ exists extra, sr_matchSpans r = sr_matchSpans r0 ++ extra.
Proof.
  induction topK as [|result rest IH]; intros lastIndex r;
    cbn [regexFilter_loop]; [intros []|].
  assert (Hrest : forall li,
            In r (regexFilter_loop p rx unicode rest li) ->
            exists r0, In r0 (result :: rest) /\ sr_id r = sr_id r0
                       /\ sr_score r = sr_score r0
                       /\ exists extra, sr_matchSpans r = sr_matchSpans r0 ++ extra).
  { intros li H. destruct (IH li r H) as (r0 & H0 & H1).
    exists r0. split; [right; exact H0|exact H1]. }
  destruct (map_get (docs p) (sr_id result)) as [docMetadata|]; [|apply Hrest].
  destruct (regexTest rx (title (dm_doc docMetadata)) lastIndex)
    as [inTitle lastIndex1].
  destruct (if inTitle then (true, lastIndex1)
            else regexTest rx (body (dm_doc docMetadata)) lastIndex1)
    as [matched lastIndex2].
  destruct matched; [|apply Hrest].
  intros [<-|H]; [|apply (Hrest _ H)].
  exists result. cbn. split; [left; reflexivity|]. repeat split. eauto.
Qed.

Lemma regexFiltered_spec (p : t) (results filtered : list SearchResult)
    (regexSpec : RegexSpec) (r : SearchResult) :
  regexFiltered p results regexSpec = Some filtered -> In r filtered ->
  exists r0, In r0 results /\ sr_id r = sr_id r0 /\ sr_score r = sr_score r0
             /\ exists extra, sr_matchSpans r = sr_matchSpans r0 ++ extra.
Proof.
  unfold regexFiltered.
  destruct (RegExp_new _ _) as [rx|]; [|discriminate].
  intros E Hr. injection E as <-.
  apply regexFilter_loop_spec in Hr as (r0 & H0 & H1).
  exists r0. split; [apply (firstn_In _ _ _ _ H0)|exact H1].
Qed.

Lemma applyRegexFilter_spec (p : t) (results : list SearchResult)
    (regexSpec : RegexSpec) (limit : nat) (r : SearchResult) :
  In r (applyRegexFilter p results regexSpec limit) ->
  exists r0, In r0 results /\ sr_id r = sr_id r0 /\ sr_score r = sr_score r0
             /\ exists extra, sr_matchSpans r = sr_matchSpans r0 ++ extra.
Proof.
  unfold applyRegexFilter.
  destruct (regexFiltered p results regexSpec) as [filtered|] eqn:E;
    intros Hr; apply firstn_In in Hr.
  - apply (regexFiltered_spec p results filtered regexSpec r E Hr).
  - exists r. split; [exact Hr|]. repeat split. exists []. symmetry.
    apply app_nil_r.
Qed.

Lemma accepted_through (p : t) (q : ParsedQuery)
    (results : list SearchResult) (r : SearchResult) :
  Forall (accepted p q) results ->
  (exists r0, In r0 results /\ sr_id r = sr_id r0 /\ sr_score r = sr_score r0
              /\ exists extra, sr_matchSpans r = sr_matchSpans r0 ++ extra) ->
  accepted p q r.
Proof.
  intros Hall (r0 & Hin & Hid & Hsc & Hext).
  rewrite Forall_forall in Hall.
  apply (accepted_extended p q r0 r (Hall _ Hin) Hid Hsc Hext).
Qed.

Lemma result_accepted
    (p : t) (q : ParsedQuery) (opts : option nat) (r : SearchResult) :
  isEmpty q = false ->
  In r (queryStream p q opts) \/ In r (query p q opts) ->
  accepted p q r.
Proof.
  intros Hne Hr.
  destruct (scoringLoop_accepted p q (limitOf opts)) as [Hfinal Hy].
  assert (Hfiltered : forall regexSpec r1,
            In r1 (applyRegexFilter p
                     (finalResults (scoringLoop p q (limitOf opts)))
                     regexSpec (limitOf opts)) ->
            accepted p q r1).
  { intros regexSpec r1 H1. apply (accepted_through p q _ r1 Hfinal).
    apply (applyRegexFilter_spec _ _ _ _ _ H1). }
  rewrite Forall_forall in Hfinal, Hy.
  destruct Hr as [Hr|Hr].
  - unfold queryStream in Hr. rewrite Hne in Hr.
    apply in_app_or in Hr as [Hr|Hr]; [apply Hy, Hr|].
    unfold notYielded in Hr. apply filter_In in Hr as [Hr _].
    destruct (regex q) as [regexSpec|];
      [apply (Hfiltered regexSpec), Hr|apply Hfinal, Hr].
  - unfold query in Hr. rewrite Hne in Hr.
    destruct (Nat.max 1 (limitOf opts)
              <=? length (ss_yielded (scoringLoop p q (limitOf opts)))).
    { apply firstn_In in Hr. apply Hy, Hr. }
    destruct (regex q) as [regexSpec|]; apply firstn_In in Hr;
      apply in_app_or in Hr as [Hr|Hr].
    + apply in_map_iff in Hr as (r1 & <- & Hr1).
      unfold refresh.
      destruct (find _ _) as [m|] eqn:Ef; [|apply Hy, Hr1].
      apply find_some in Ef as [Hm _].
      destruct (regexFiltered p _ regexSpec) as [filtered|] eqn:Ex;
        [|destruct Hm].
      apply (accepted_through p q
               (finalResults (scoringLoop p q (limitOf opts))) m).
      * apply Forall_forall, Hfinal.
      * apply (regexFiltered_spec _ _ _ _ _ Ex Hm).
    + unfold notYielded in Hr. apply filter_In in Hr as [Hr _].
      apply (Hfiltered regexSpec), Hr.
    + apply Hy, Hr.
    + unfold notYielded in Hr. apply filter_In in Hr as [Hr _].
      apply Hfinal, Hr.
Qed.

(** X7 (built-in-provider.ts, queryStream and query): for a query that
    is not empty, every result the stream yields and every result query
    returns was made by the scoring loop: its id is a candidate of the
    query and the id of a stored document, the scorer did not exclude that
    document and gave it the score of the result, and that score is above
    zero.  So documents with an excluded term and documents that score
    zero are never returned. *)
Theorem results_are_accepted_documents
    (p : t) (q : ParsedQuery) (opts : option nat) :
  isEmpty q = false ->
  Forall (accepted p q) (queryStream p q opts)
  /\ Forall (accepted p q) (query p q opts).
Proof.
  intros Hne. split; apply Forall_forall; intros r Hr;
    apply (result_accepted p q opts r Hne); [left|right]; exact Hr.
Qed.

End Results.

Lemma results_are_accepted_documents_witness :
  Forall (ResultSpec.accepted Examples.threeNotes Examples.projectQuery)
    (Provider.queryStream Examples.threeNotes Examples.projectQuery (Some 10))
  /\ Forall (ResultSpec.accepted Examples.threeNotes Examples.projectQuery)
       (Provider.query Examples.threeNotes Examples.projectQuery (Some 10)).
Proof.
  apply results_are_accepted_documents. reflexivity.
Defined.

(** *** No id twice *)

Section Distinct.
Context {U : Unicode} {NUM : JSNumber} {CLK : Clock} {RX : RegExpEngine}.
Import Provider Spec ResultSpec.

(** One pass of [intersectAll] over a snapshot of the candidates. *)
Lemma intersect_pass_In (other l c : list jsstring) (x : jsstring) :
  In x (fold_left
          (fun c docId =>
             if negb (set_has other docId) then set_delete c docId else c)
          l c)
  <-> In x c /\ (In x l -> In x other).
Proof.
  revert c; induction l as [|d l IH]; intros c; cbn [fold_left In].
  - tauto.
  - rewrite IH. destruct (set_has other d) eqn:E; cbn [negb].
    + apply set_has_In in E. intuition (subst; auto).
    + apply set_has_not_In in E. rewrite set_delete_In.
      split.
      * intros [[Hc Hne] Hl]. split; [exact Hc|].
        intros [->|H]; [contradiction Hne; reflexivity|auto].
      * intros [Hc Hl]. split; [|auto]. split; [exact Hc|].
        intros ->. apply E, Hl. left; reflexivity.
Qed.

Lemma intersect_pass_NoDup (other l c : list jsstring) :
  NoDup c ->
  NoDup (fold_left
           (fun c docId =>
              if negb (set_has other docId) then set_delete c docId else c)
           l c).
Proof.
  revert c; induction l as [|d l IH]; intros c H; cbn [fold_left];
    [exact H|].
  apply IH. destruct (negb (set_has other d)); [apply set_delete_NoDup|];
    exact H.
Qed.

Lemma intersect_fold_In (others : list (list jsstring)) :
  forall (c : list jsstring) (x : jsstring),
    In x (fold_left
            (fun candidates other =>
               fold_left
                 (fun c docId =>
                    if negb (set_has other docId) then set_delete c docId else c)
                 candidates candidates)
            others c)
    <-> In x c /\ forall other, In other others -> In x other.
Proof.
  induction others as [|o others IH]; intros c x; cbn [fold_left].
  - split; [intros H; split; [exact H|intros other []]|tauto].
  - rewrite IH, intersect_pass_In. split.
    + intros [[Hc Ho] Hall]. split; [exact Hc|].
      intros other [<-|H]; auto.
    + intros [Hc Hall]. split; [split; [exact Hc|]|].
      * intros _. apply Hall. left; reflexivity.
      * intros other H. apply Hall. right; exact H.
Qed.

Lemma intersect_fold_NoDup (others : list (list jsstring)) :
  forall c : list jsstring,
    NoDup c ->
    NoDup (fold_left
             (fun candidates other =>
                fold_left
                  (fun c docId =>
                     if negb (set_has other docId) then set_delete c docId else c)
                  candidates candidates)
             others c).
Proof.
  induction others as [|o others IH]; intros c H; cbn [fold_left];
    [exact H|]. apply IH, intersect_pass_NoDup, H.
Qed.

(** [intersectAll]: what is in every set. *)
Lemma intersectAll_In (sets : list (list jsstring)) (x : jsstring) :
  In x (intersectAll sets)
  <-> sets <> [] /\ forall s, In s sets -> In x s.
Proof.
  destruct sets as [|first others]; cbn [intersectAll].
  - split; [intros []|intros [H _]; contradiction H; reflexivity].
  - rewrite intersect_fold_In, fold_set_add_In. cbn [In]. split.
    + intros [[[]|Hf] Hall]. split; [discriminate|].
      intros s [<-|H]; auto.
    + intros [_ Hall]. split; [right; apply Hall; left; reflexivity|].
      intros other H. apply Hall. right; exact H.
Qed.

Lemma intersectAll_NoDup (sets : list (list jsstring)) :
  NoDup (intersectAll sets).
Proof.
  destruct sets as [|first others]; cbn [intersectAll]; [constructor|].
  apply intersect_fold_NoDup, fold_set_add_NoDup. constructor.
Qed.

Lemma gatherCandidates_NoDup (p : t) (q : ParsedQuery) :
  NoDup (gatherCandidates p q).
Proof.
  assert (H0 : NoDup (termCandidates p q)).
  { unfold termCandidates. destruct (0 <? length (orGroups q));
      apply intersectAll_NoDup. }
  unfold gatherCandidates.
  set (c0 := termCandidates p q) in *.
  set (c1 := if (length c0 =? 0) && (0 <? length (phrases q))
             then addAllDocs p c0 else c0).
  assert (H1 : NoDup c1).
  { unfold c1. destruct ((length c0 =? 0) && (0 <? length (phrases q)));
      [apply fold_set_add_NoDup|]; exact H0. }
  destruct ((length c1 =? 0) && _); [apply fold_set_add_NoDup|]; exact H1.
Qed.

Lemma ids_In (l : list SearchResult) (x : jsstring) :
  In x (ids l) <-> exists r, In r l /\ sr_id r = x.
Proof.
  unfold ids. rewrite in_map_iff. split; intros (r & H1 & H2); eauto.
Qed.

Lemma ids_permutation (a b : list SearchResult) :
  Permutation a b -> Permutation (ids a) (ids b).
Proof. apply Permutation_map. Qed.

Lemma ids_filter_NoDup (f : SearchResult -> bool) (l : list SearchResult) :
  NoDup (ids l) -> NoDup (ids (filter f l)).
Proof.
  induction l as [|r l IH]; cbn [filter ids map]; [trivial|].
  fold (ids l). intros H. inversion H as [|? ? Hr Hl]; subst.
  destruct (f r); [|exact (IH Hl)].
  cbn [ids map]. fold (ids (filter f l)). constructor; [|exact (IH Hl)].
  intros Hin. apply Hr. apply ids_In in Hin as (r0 & H0 & E).
  apply ids_In. exists r0. apply filter_In in H0 as [H0 _]. auto.
Qed.

Lemma pushAll_ids_NoDup (xs : list SearchResult) :
  forall h : ResultHeap,
    NoDup (ids (xs ++ MinHeap.items h)) ->
    NoDup (ids (MinHeap.items (HeapSpec.pushAll compareScore h xs))).
Proof.
  induction xs as [|x xs IH]; intros h H; cbn [HeapSpec.pushAll fold_left];
    [exact H|].
  apply IH.
  destruct (push_permutation _ compareScore h x) as [out Hperm].
  assert (Hp : Permutation
            ((xs ++ MinHeap.items (fst (MinHeap.push compareScore h x))) ++ out)
            ((x :: xs) ++ MinHeap.items h)).
  { rewrite <- app_assoc, Hperm. cbn [app]. symmetry.
    apply Permutation_middle. }
  apply ids_permutation in Hp.
  apply (Permutation_NoDup (Permutation_sym Hp)) in H.
  unfold ids in H. rewrite map_app in H.
  apply NoDup_app_remove_r in H. exact H.
Qed.

Lemma regexFilter_loop_NoDup (p : t) (rx : RegExp) (unicode : bool)
    (topK : list SearchResult) :
  forall lastIndex : nat,
    NoDup (ids topK) ->
    NoDup (ids (regexFilter_loop p rx unicode topK lastIndex)).
Proof.
  induction topK as [|result rest IH]; intros lastIndex H;
    cbn [regexFilter_loop]; [constructor|].
  cbn [ids map] in H. fold (ids rest) in H.
  inversion H as [|? ? Hr Hl]; subst.
  destruct (map_get (docs p) (sr_id result)) as [docMetadata|]; [|apply IH, Hl].
  destruct (regexTest rx (title (dm_doc docMetadata)) lastIndex)
    as [inTitle lastIndex1].
  destruct (if inTitle then (true, lastIndex1)
            else regexTest rx (body (dm_doc docMetadata)) lastIndex1)
    as [matched lastIndex2].
  destruct matched; [|apply IH, Hl].
  cbn [ids map sr_id]. constructor; [|apply IH, Hl].
  intros Hin. apply Hr. apply ids_In in Hin as (r & Hin & E).
  apply regexFilter_loop_spec in Hin as (r0 & H0 & Hid & _).
  apply ids_In. exists r0. split; [exact H0|congruence].
Qed.

Lemma applyRegexFilter_NoDup (p : t) (results : list SearchResult)
    (regexSpec : RegexSpec) (limit : nat) :
  NoDup (ids results) ->
  NoDup (ids (applyRegexFilter p results regexSpec limit)).
Proof.
  intros H. unfold applyRegexFilter, regexFiltered.
  destruct (RegExp_new _ _) as [rx|]; rewrite ids_firstn; apply NoDup_firstn;
    [|exact H].
  apply regexFilter_loop_NoDup. rewrite ids_firstn. apply NoDup_firstn, H.
Qed.

Lemma fold_scoreCandidate_distinct (p : t) (q : ParsedQuery) (limit : nat)
    (cs : list jsstring) :
  forall st,
    NoDup cs ->
    (forall r, In r (MinHeap.items (ss_heap st)) -> ~ In (sr_id r) cs) ->
    NoDup (ids (MinHeap.items (ss_heap st))) ->
    NoDup (ids (ss_yielded st)) ->
    (forall x, In x (ss_yieldedIds st) <-> In x (ids (ss_yielded st))) ->
    NoDup (ids (MinHeap.items
                  (ss_heap (fold_left (scoreCandidate p q limit) cs st))))
    /\ NoDup (ids (ss_yielded (fold_left (scoreCandidate p q limit) cs st)))
    /\ (forall x,
          In x (ss_yieldedIds (fold_left (scoreCandidate p q limit) cs st))
          <-> In x (ids (ss_yielded
                           (fold_left (scoreCandidate p q limit) cs st)))).
Proof.
  induction cs as [|c cs IH]; intros st Hcs Hfresh Hheap Hy Hids;
    cbn [fold_left]; [auto|].
  inversion Hcs as [|? ? Hc Hcs']; subst.
  destruct (scoreCandidate_shape p q limit st c) as (top & _ & Hh & Hyd & Hyi).
  destruct (emit_spec top (ss_yieldedIds st)) as (_ & E2 & E3 & E4).
  apply IH.
  - exact Hcs'.
  - intros r Hr Hin. rewrite Hh in Hr.
    apply pushAll_incl in Hr as [Hr|Hr].
    + apply pushedFor_id in Hr. rewrite Hr in Hin. contradiction.
    + apply (Hfresh r Hr). right. exact Hin.
  - rewrite Hh. apply pushAll_ids_NoDup.
    unfold ids. rewrite map_app. apply NoDup_app; [|exact Hheap|].
    + assert (Hp : forall r, In r (pushedFor p q c) -> pushedFor p q c = [r]).
      { unfold pushedFor. intros r.
        destruct (map_get (docs p) c); [|intros []].
        destruct (Scorer.createScorer _ _ _); [|intros []].
        destruct (nltb _ _); [|intros []].
        intros [<-|[]]. reflexivity. }
      destruct (pushedFor p q c) as [|r l]; [constructor|].
      specialize (Hp r (or_introl eq_refl)). injection Hp as ->.
      repeat constructor. intros [].
    + intros x Hx Hx'. apply ids_In in Hx as (r & Hr & <-).
      apply pushedFor_id in Hr. apply ids_In in Hx' as (r' & Hr' & E).
      apply (Hfresh r' Hr'). left. congruence.
  - rewrite Hyd. unfold ids. rewrite map_app. apply NoDup_app; [exact Hy|exact E3|].
    intros x Hx Hx'. apply (E4 x Hx'). apply Hids. exact Hx.
  - intros x. rewrite Hyi, Hyd, E2, Hids. unfold ids. rewrite map_app, in_app_iff.
    reflexivity.
Qed.

Lemma scoringLoop_distinct (p : t) (q : ParsedQuery) (limit : nat) :
  NoDup (ids (finalResults (scoringLoop p q limit)))
  /\ NoDup (ids (ss_yielded (scoringLoop p q limit)))
  /\ (forall x,
        In x (ss_yieldedIds (scoringLoop p q limit))
        <-> In x (ids (ss_yielded (scoringLoop p q limit)))).
Proof.
  destruct (fold_scoreCandidate_distinct p q limit (gatherCandidates p q)
              {| ss_heap := MinHeap.create SearchResult limit;
                 ss_yieldedIds := []; ss_processedCount := 0;
                 ss_yielded := [] |})
    as (H1 & H2 & H3).
  - apply gatherCandidates_NoDup.
  - intros r [].
  - constructor.
  - constructor.
  - intros x. reflexivity.
  - split; [|split; assumption].
    unfold finalResults.
    apply (Permutation_NoDup (l := ids (MinHeap.items (ss_heap (scoringLoop p q limit)))));
      [|exact H1].
    apply ids_permutation. rewrite <- Permutation_rev. symmetry.
    apply extractAll_permutation.
Qed.

Lemma getRecentDocuments_ids (p : t) (limit : nat) :
  exists l, Permutation l (map fst (docs p))
            /\ ids (getRecentDocuments p limit) = firstn limit l.
Proof.
  unfold getRecentDocuments.
  match goal with
  | |- context [sortByScoreDesc ?l] => set (results := l)
  end.
  exists (ids (sortByScoreDesc results)). split.
  - rewrite (ids_permutation _ _ (sortByScoreDesc_permutation results)).
    unfold results, ids. rewrite map_map. cbn [sr_id]. reflexivity.
  - rewrite ids_firstn. f_equal.
    generalize (length (sortByScoreDesc results)) as n.
    generalize 0 as i.
    induction (sortByScoreDesc results) as [|r l IH]; intros i n;
      cbn [renumber ids map sr_id]; [reflexivity|].
    f_equal. apply IH.
Qed.

(** X8 (built-in-provider.ts, queryStream and query): when every
    document is stored under one key, as it is after any sequence of
    operations, no id comes twice among the results the stream yields,
    nor in the list query returns, whatever the query, the limit and the
    number of intermediate emissions. *)
Theorem results_have_distinct_ids
    (p : t) (q : ParsedQuery) (opts : option nat) :
  uniqueKeys (docs p) ->
  NoDup (ids (queryStream p q opts)) /\ NoDup (ids (query p q opts)).
Proof.
  intros Hu.
  assert (Hs : NoDup (ids (queryStream p q opts))).
  { unfold queryStream. destruct (isEmpty q).
    - destruct (getRecentDocuments_ids p (limitOf opts)) as (l & Hl & ->).
      apply NoDup_firstn. apply (Permutation_NoDup (Permutation_sym Hl)), Hu.
    - destruct (scoringLoop_distinct p q (limitOf opts)) as (Hf & Hy & Hids).
      set (st := scoringLoop p q (limitOf opts)) in *.
      unfold ids. rewrite map_app. apply NoDup_app; [exact Hy| |].
      + unfold notYielded. apply ids_filter_NoDup.
        destruct (regex q); [apply applyRegexFilter_NoDup|]; exact Hf.
      + intros x Hx Hx'. apply ids_In in Hx' as (r & Hr & <-).
        unfold notYielded in Hr. apply filter_In in Hr as [_ Hr].
        apply negb_true_iff, set_has_not_In in Hr. apply Hr, Hids, Hx. }
  split; [exact Hs|].
  rewrite query_ids_prefix_of_stream. apply NoDup_firstn, Hs.
Qed.

End Distinct.

Lemma results_have_distinct_ids_witness :
  NoDup (Spec.ids (Provider.queryStream Examples.manyNotes Examples.noteQuery
                     (Some 2)))
  /\ NoDup (Spec.ids (Provider.query Examples.manyNotes Examples.noteQuery
                        (Some 2))).
Proof.
  apply results_have_distinct_ids.
  unfold Provider.docs, Spec.uniqueKeys.
  destruct (run_invariant [Spec.OpIndexAll Examples.hundredAndTwo]
              (Provider.create (Examples.optionsWith Examples.noRecencyConfig)))
    as [(_ & Hu & _) _].
  - cbn. lia.
  - apply create_invariant. cbn. lia.
  - exact Hu.
Defined.

(** *** The best results, best first *)

Lemma StronglySorted_snoc (A : Type) (R : A -> A -> Prop) (l : list A) (a : A) :
  StronglySorted R l -> Forall (fun x => R x a) l ->
  StronglySorted R (l ++ [a]).
Proof.
  induction 1 as [|x l Hs IH Hx]; intros Ha; cbn [app].
  - repeat constructor.
  - inversion Ha as [|? ? Hxa Hla]; subst.
    constructor; [apply IH, Hla|].
    apply Forall_app. split; [exact Hx|repeat constructor; exact Hxa].
Qed.

Lemma StronglySorted_rev (A : Type) (R : A -> A -> Prop) (l : list A) :
  StronglySorted R l -> StronglySorted (fun a b => R b a) (rev l).
Proof.
  induction 1 as [|x l Hs IH Hx]; cbn [rev]; [constructor|].
  apply StronglySorted_snoc; [exact IH|].
  apply Forall_rev. exact Hx.
Qed.

Lemma StronglySorted_filter (A : Type) (R : A -> A -> Prop)
    (f : A -> bool) (l : list A) :
  StronglySorted R l -> StronglySorted R (filter f l).
Proof.
  induction 1 as [|x l Hs IH Hx]; cbn [filter]; [constructor|].
  destruct (f x); [|exact IH].
  constructor; [exact IH|].
  rewrite Forall_forall in *. intros y Hy.
  apply filter_In in Hy as [Hy _]. apply Hx, Hy.
Qed.

Lemma StronglySorted_firstn (A : Type) (R : A -> A -> Prop)
    (n : nat) (l : list A) :
  StronglySorted R l -> StronglySorted R (firstn n l).
Proof.
  intros H; revert n; induction H as [|x l Hs IH Hx]; intros [|n];
    cbn [firstn]; try constructor.
  - apply IH.
  - rewrite Forall_forall in *. intros y Hy. apply Hx.
    apply (firstn_In _ _ _ _ Hy).
Qed.

Section Best.
Context {U : Unicode} {NUM : JSNumber} {CLK : Clock} {RX : RegExpEngine}.
Import Provider Spec ResultSpec.

(** The comparison of two numbers is the opposite when they are
    exchanged, and transitive: as it is for all numbers but NaN. *)
Hypothesis Hscore : HeapSpec.consistent compareScore.

Lemma finalResults_best (p : t) (q : ParsedQuery) (limit : nat) :
  0 < limit ->
  exists dropped : list SearchResult,
    Permutation (finalResults (scoringLoop p q limit) ++ dropped) (pushed p q)
    /\ length (finalResults (scoringLoop p q limit))
       = Nat.min limit (length (pushed p q))
    /\ StronglySorted scoreGe (finalResults (scoringLoop p q limit))
    /\ (forall d k : SearchResult,
          In d dropped -> In k (finalResults (scoringLoop p q limit)) ->
          scoreGe k d).
Proof.
  intros Hlimit. unfold finalResults. rewrite scoringLoop_heap.
  destruct (pushAll_largest _ compareScore Hscore limit (pushed p q)
              Hlimit) as (dropped & Hperm & Hsize & Hord & Hle).
  destruct (extractAll_sorted _ compareScore Hscore _ Hord)
    as [Hsorted Hext].
  exists dropped. split; [|split; [|split]].
  - rewrite <- Permutation_rev, Hext. exact Hperm.
  - rewrite length_rev, extractAll_length. exact Hsize.
  - apply (StronglySorted_rev _ _ _ Hsorted).
  - intros d k Hd Hk. apply Hle; [exact Hd|].
    apply (Permutation_in _ Hext), in_rev, Hk.
Qed.

(** X9 (built-in-provider.ts, queryStream; min-heap.ts): with a limit
    above zero, the final results of the scoring loop are the best of the
    results made for the candidates: they and the results dropped are
    together the results made, there are as many as the limit allows,
    they come highest score first, and no result dropped has a higher
    score than one that was kept. *)
Theorem final_results_are_the_best (p : t) (q : ParsedQuery) (limit : nat) :
  0 < limit ->
  exists dropped : list SearchResult,
    Permutation (finalResults (scoringLoop p q limit) ++ dropped) (pushed p q)
    /\ length (finalResults (scoringLoop p q limit))
       = Nat.min limit (length (pushed p q))
    /\ StronglySorted scoreGe (finalResults (scoringLoop p q limit))
    /\ (forall d k : SearchResult,
          In d dropped -> In k (finalResults (scoringLoop p q limit)) ->
          scoreGe k d).
Proof. exact (finalResults_best p q limit). Qed.

Lemma regexFilter_loop_sorted (p : t) (rx : RegExp) (unicode : bool)
    (topK : list SearchResult) :
  forall lastIndex : nat,
    StronglySorted scoreGe topK ->
    StronglySorted scoreGe (regexFilter_loop p rx unicode topK lastIndex).
Proof.
  induction topK as [|result rest IH]; intros lastIndex H;
    cbn [regexFilter_loop]; [constructor|].
  inversion H as [|? ? Hs Hr]; subst.
  destruct (map_get (docs p) (sr_id result)) as [docMetadata|]; [|apply IH, Hs].
  destruct (regexTest rx (title (dm_doc docMetadata)) lastIndex)
    as [inTitle lastIndex1].
  destruct (if inTitle then (true, lastIndex1)
            else regexTest rx (body (dm_doc docMetadata)) lastIndex1)
    as [matched lastIndex2].
  destruct matched; [|apply IH, Hs].
  constructor; [apply IH, Hs|].
  apply Forall_forall. intros r Hin.
  apply regexFilter_loop_spec in Hin as (r0 & H0 & _ & Hsc & _).
  rewrite Forall_forall in Hr. specialize (Hr r0 H0).
  unfold scoreGe, HeapSpec.le, compareScore in *. cbn [sr_score].
  rewrite Hsc. exact Hr.
Qed.

Lemma applyRegexFilter_sorted (p : t) (results : list SearchResult)
    (regexSpec : RegexSpec) (limit : nat) :
  StronglySorted scoreGe results ->
  StronglySorted scoreGe (applyRegexFilter p results regexSpec limit).
Proof.
  intros H. unfold applyRegexFilter, regexFiltered.
  destruct (RegExp_new _ _) as [rx|]; apply StronglySorted_firstn; [|exact H].
  apply regexFilter_loop_sorted, StronglySorted_firstn, H.
Qed.

(** Below one hundred candidates the stream is the final results, those
    the regex filter keeps when the query has a regex. *)
Lemma stream_below_hundred (p : t) (q : ParsedQuery) (limit : nat) :
  length (gatherCandidates p q) < 100 -> isEmpty q = false ->
  queryStream p q (Some limit)
  = match regex q with
    | Some regexSpec =>
        applyRegexFilter p (finalResults (scoringLoop p q limit)) regexSpec limit
    | None => finalResults (scoringLoop p q limit)
    end.
Proof.
  intros Hfew Hne. unfold queryStream. cbn [limitOf]. rewrite Hne.
  destruct (scoringLoop_invariant p q limit) as (_ & _ & _ & Hquiet).
  destruct (Hquiet Hfew) as [Hy Hids].
  unfold notYielded. rewrite Hy, Hids. cbn [app set_has existsb negb].
  apply forallb_filter_id. apply forallb_forall. reflexivity.
Qed.

(** X10 (built-in-provider.ts, query and queryStream): with a limit
    above zero and fewer than one hundred candidates, the list query
    returns for a query that is not empty comes highest score first, and
    without a regex it is the list of the best results of the scoring
    loop. *)
Theorem query_sorted_below_hundred (p : t) (q : ParsedQuery) (limit : nat) :
  0 < limit -> length (gatherCandidates p q) < 100 -> isEmpty q = false ->
  StronglySorted scoreGe (query p q (Some limit))
  /\ (regex q = None ->
      query p q (Some limit) = finalResults (scoringLoop p q limit)).
Proof.
  intros Hlimit Hfew Hne.
  rewrite (query_is_stream_below_hundred p q limit Hlimit Hfew).
  rewrite (stream_below_hundred p q limit Hfew Hne).
  destruct (finalResults_best p q limit Hlimit)
    as (dropped & _ & _ & Hsorted & _).
  split.
  - destruct (regex q); [apply applyRegexFilter_sorted|]; exact Hsorted.
  - intros ->. reflexivity.
Qed.

End Best.

Section InvalidRegex.
Context {U : Unicode} {NUM : JSNumber} {CLK : Clock} {RX : RegExpEngine}.
Import Provider Spec ResultSpec.

Lemma scoringLoop_withoutRegex (p : t) (q : ParsedQuery) (limit : nat) :
  scoringLoop p (withoutRegex q) limit = scoringLoop p q limit.
Proof. reflexivity. Qed.

Lemma finalResults_length (p : t) (q : ParsedQuery) (limit : nat) :
  0 < limit -> length (finalResults (scoringLoop p q limit)) <= limit.
Proof.
  intros Hlimit. unfold finalResults. rewrite length_rev, extractAll_length.
  destruct (scoringLoop_invariant p q limit) as (_ & Hsize & _).
  apply Hsize, Hlimit.
Qed.

Lemma refresh_nil (l : list SearchResult) : map (refresh []) l = l.
Proof. induction l as [|r l IH]; cbn; [|rewrite IH]; reflexivity. Qed.

(** X11 (built-in-provider.ts, applyRegexFilter): a regex the
    constructor refuses is ignored.  With a limit above zero, a query
    with such a regex and some term, phrase or or-group gets the results
    of the same query without the regex, from the stream and from
    query. *)
Theorem invalid_regex_is_ignored
    (p : t) (q : ParsedQuery) (regexSpec : RegexSpec) (limit : nat) :
  regex q = Some regexSpec ->
  RegExp_new (rx_source regexSpec) (regexFlags regexSpec) = None ->
  0 < limit -> isEmpty (withoutRegex q) = false ->
  queryStream p q (Some limit) = queryStream p (withoutRegex q) (Some limit)
  /\ query p q (Some limit) = query p (withoutRegex q) (Some limit).
Proof.
  intros Hrx Hnew Hlimit Hne.
  assert (Hne' : isEmpty q = false).
  { unfold isEmpty. rewrite Hrx. apply andb_false_r. }
  assert (Hfilter : applyRegexFilter p (finalResults (scoringLoop p q limit))
                      regexSpec limit
                    = finalResults (scoringLoop p q limit)).
  { unfold applyRegexFilter, regexFiltered. rewrite Hnew.
    apply firstn_all2, finalResults_length, Hlimit. }
  split.
  - unfold queryStream. rewrite Hne, Hne', Hrx. cbn [limitOf withoutRegex regex].
    rewrite scoringLoop_withoutRegex, Hfilter. reflexivity.
  - unfold query. rewrite Hne, Hne', Hrx. cbn [limitOf withoutRegex regex].
    rewrite scoringLoop_withoutRegex, Hfilter.
    unfold regexFiltered. rewrite Hnew, refresh_nil. reflexivity.
Qed.

End InvalidRegex.

Lemma Q_compareScore_consistent :
  HeapSpec.consistent (Provider.compareScore (NUM := Q_JSNumber)).
Proof.
  split.
  - intros a b. unfold Provider.compareScore. cbn [ncompare Q_JSNumber].
    symmetry. apply Qcompare_antisym.
  - unfold HeapSpec.le, Provider.compareScore. cbn [ncompare Q_JSNumber].
    intros a b c. rewrite <- !Qle_alt. apply Qle_trans.
Qed.

Lemma final_results_are_the_best_witness :
  exists dropped : list Provider.SearchResult,
    Permutation
      (Provider.finalResults
         (Provider.scoringLoop Examples.manyNotes Examples.noteQuery 2)
       ++ dropped)
      (ResultSpec.pushed Examples.manyNotes Examples.noteQuery)
    /\ length (Provider.finalResults
                 (Provider.scoringLoop Examples.manyNotes Examples.noteQuery 2))
       = Nat.min 2 (length (ResultSpec.pushed Examples.manyNotes
                              Examples.noteQuery)).
Proof.
  destruct (final_results_are_the_best Q_compareScore_consistent
              Examples.manyNotes Examples.noteQuery 2)
    as (dropped & H1 & H2 & _); [lia|].
  exists dropped. split; assumption.
Defined.

Lemma query_sorted_below_hundred_witness :
  StronglySorted ResultSpec.scoreGe
    (Provider.query Examples.threeNotes Examples.projectQuery (Some 10)).
Proof.
  apply (query_sorted_below_hundred Q_compareScore_consistent
           Examples.threeNotes Examples.projectQuery 10).
  - lia.
  - apply Nat.ltb_lt. vm_compute. reflexivity.
  - reflexivity.
Defined.

Lemma invalid_regex_is_ignored_witness :
  let q := Examples.mkQuery [js "project"] [] noFilters
             (Some {| rx_source := js "("; rx_flags := [] |}) in
  Provider.queryStream Examples.threeNotes q (Some 10)
  = Provider.queryStream Examples.threeNotes (ResultSpec.withoutRegex q) (Some 10)
  /\ Provider.query Examples.threeNotes q (Some 10)
     = Provider.query Examples.threeNotes (ResultSpec.withoutRegex q) (Some 10).
Proof.
  apply (invalid_regex_is_ignored Examples.threeNotes _
           {| rx_source := js "("; rx_flags := [] |} 10).
  - reflexivity.
  - reflexivity.
  - lia.
  - reflexivity.
Defined.

(** ** The candidates of a query *)

Section Candidates.
Context {U : Unicode} {NUM : JSNumber} {CLK : Clock} {RX : RegExpEngine}.
Import Provider Spec ResultSpec.

Lemma addPostingIds_In (l : PostingList) :
  forall (s : list jsstring) (x : jsstring),
    In x (addPostingIds s l)
    <-> In x s \/ exists entry, In entry l /\ pe_docId entry = x.
Proof.
  unfold addPostingIds.
  induction l as [|e l IH]; intros s x; cbn [fold_left].
  - split; [auto|]. intros [H|(entry & [] & _)]. exact H.
  - rewrite IH, set_add_In. split.
    + intros [[H | ->]|(entry & H & E)]; [auto| |].
      * right. exists e. split; [left|]; reflexivity.
      * right. exists entry. split; [right|]; assumption.
    + intros [H|(entry & [<-|H] & E)]; [auto| |].
      * left. right. symmetry. exact E.
      * right. exists entry. auto.
Qed.

(** The set built for an or-group. *)
Lemma groupSet_In (p : t) (orGroup : list jsstring) :
  forall (s : list jsstring) (x : jsstring),
    In x (fold_left
            (fun s term =>
               match map_get (index p) (normalizeTerm p term) with
               | Some postingList => addPostingIds s postingList
               | None => s
               end)
            orGroup s)
    <-> In x s \/ postedInGroup p orGroup x.
Proof.
  induction orGroup as [|term g IH]; intros s x; cbn [fold_left].
  - split; [auto|]. intros [H|(term & [] & _)]. exact H.
  - rewrite IH. split.
    + intros [H|(term' & Hin & Hp)].
      * destruct (map_get (index p) (normalizeTerm p term)) as [l|] eqn:E;
          [|auto].
        apply addPostingIds_In in H as [H|(entry & He & Hid)]; [auto|].
        right. exists term. split; [left; reflexivity|].
        exists l, entry. auto.
      * right. exists term'. split; [right|]; assumption.
    + intros [H|(term' & [<-|Hin] & Hp)].
      * left. destruct (map_get (index p) (normalizeTerm p term)); [|exact H].
        apply addPostingIds_In. auto.
      * left. destruct Hp as (l & entry & E & He & Hid). rewrite E.
        apply addPostingIds_In. right. eauto.
      * right. exists term'. auto.
Qed.

(** X12 (built-in-provider.ts, gatherCandidates, the terms): without
    or-groups, the candidates the terms give are the documents that have
    an entry in the posting list of every term the index knows; a term
    without a posting list is left out of the intersection instead of
    emptying it, and when the index knows none of the terms there is no
    candidate. *)
Theorem term_candidates_are_an_intersection
    (p : t) (q : ParsedQuery) (docId : jsstring) :
  orGroups q = [] ->
  (In docId (termCandidates p q)
   <-> (exists term, In term (terms q) /\ indexed p term)
       /\ (forall term, In term (terms q) -> indexed p term ->
                        posted p term docId)).
Proof.
  intros Hor. unfold termCandidates. rewrite Hor. cbn [length Nat.ltb Nat.leb].
  rewrite intersectAll_In. unfold indexed, posted. split.
  - intros [Hne Hall]. split.
    + destruct (flat_map _ (terms q)) as [|s0 sets] eqn:E;
        [contradiction Hne; reflexivity|].
      assert (Hs : In s0 (flat_map
                  (fun term =>
                     match map_get (index p) (normalizeTerm p term) with
                     | Some postingList => [addPostingIds [] postingList]
                     | None => []
                     end) (terms q))) by (rewrite E; left; reflexivity).
      apply in_flat_map in Hs as (term & Ht & Hs).
      exists term. split; [exact Ht|].
      destruct (map_get (index p) (normalizeTerm p term)); [discriminate|].
      destruct Hs.
    + intros term Ht Hi.
      destruct (map_get (index p) (normalizeTerm p term)) as [l|] eqn:E;
        [|contradiction Hi; reflexivity].
      assert (Hs : In docId (addPostingIds [] l)).
      { apply Hall. apply in_flat_map. exists term. split; [exact Ht|].
        rewrite E. left; reflexivity. }
      apply addPostingIds_In in Hs as [[]|(entry & He & Hid)].
      exists l, entry. auto.
  - intros [(term & Ht & Hi) Hall]. split.
    + intros Hnil.
      assert (Hs : forall s, ~ In s (flat_map
                  (fun term =>
                     match map_get (index p) (normalizeTerm p term) with
                     | Some postingList => [addPostingIds [] postingList]
                     | None => []
                     end) (terms q))) by (rewrite Hnil; intros s []).
      destruct (map_get (index p) (normalizeTerm p term)) as [l|] eqn:E;
        [|contradiction Hi; reflexivity].
      apply (Hs (addPostingIds [] l)). apply in_flat_map.
      exists term. split; [exact Ht|]. rewrite E. left; reflexivity.
    + intros s Hs. apply in_flat_map in Hs as (term' & Ht' & Hs).
      destruct (map_get (index p) (normalizeTerm p term')) as [l|] eqn:E;
        [|destruct Hs].
      destruct Hs as [<-|[]].
      destruct (Hall term' Ht') as (l' & entry & E' & He & Hid);
        [rewrite E; discriminate|].
      assert (l' = l) by congruence. subst l'.
      apply addPostingIds_In. right. eauto.
Qed.

(** X13 (built-in-provider.ts, gatherCandidates, the or-groups): with
    or-groups, the candidates are the documents that have an entry for
    some term of every or-group whose terms have entries at all; groups
    without any entry are left out, the terms of the query are not looked
    at, and when no group has an entry there is no candidate. *)
Theorem group_candidates_are_an_intersection_of_unions
    (p : t) (q : ParsedQuery) (docId : jsstring) :
  orGroups q <> [] ->
  (In docId (termCandidates p q)
   <-> (exists orGroup other,
           In orGroup (orGroups q) /\ postedInGroup p orGroup other)
       /\ (forall orGroup,
             In orGroup (orGroups q) ->
             (exists other, postedInGroup p orGroup other) ->
             postedInGroup p orGroup docId)).
Proof.
  intros Hor. unfold termCandidates.
  destruct (orGroups q) as [|g0 gs] eqn:Eg; [contradiction Hor; reflexivity|].
  cbn [length Nat.ltb Nat.leb]. rewrite <- Eg. clear Hor Eg g0 gs.
  set (groupSet := fun orGroup : list jsstring =>
         fold_left
           (fun s term =>
              match map_get (index p) (normalizeTerm p term) with
              | Some postingList => addPostingIds s postingList
              | None => s
              end)
           orGroup []).
  assert (Hset : forall g x, In x (groupSet g) <-> postedInGroup p g x).
  { intros g x. unfold groupSet. rewrite groupSet_In. cbn [In]. tauto. }
  match goal with
  | |- In _ (intersectAll ?l) <-> _ => set (groupCandidates := l)
  end.
  assert (Hin : forall s,
            In s groupCandidates
            <-> exists g, In g (orGroups q) /\ s = groupSet g /\ s <> []).
  { intros s. unfold groupCandidates. rewrite in_flat_map. split.
    - intros (g & Hg & Hs). exists g. split; [exact Hg|].
      fold (groupSet g) in Hs.
      destruct (groupSet g) as [|x l] eqn:E; [destruct Hs|].
      destruct Hs as [<-|[]]. split; [reflexivity|discriminate].
    - intros (g & Hg & -> & Hne). exists g. split; [exact Hg|].
      fold (groupSet g).
      destruct (groupSet g) as [|x l]; [contradiction Hne; reflexivity|].
      left; reflexivity. }
  clearbody groupCandidates.
  rewrite intersectAll_In. split.
  - intros [Hne Hall]. split.
    + destruct groupCandidates as [|s0 sets];
        [contradiction Hne; reflexivity|].
      destruct (proj1 (Hin s0) (or_introl eq_refl)) as (g & Hg & Hs & Hne0).
      destruct s0 as [|x l]; [contradiction Hne0; reflexivity|].
      exists g, x. split; [exact Hg|]. apply Hset. rewrite <- Hs.
      left; reflexivity.
    + intros g Hg (other & Ho). apply Hset. apply Hall. apply Hin.
      exists g. split; [exact Hg|]. split; [reflexivity|].
      apply Hset in Ho. intros E. rewrite E in Ho. destruct Ho.
  - intros [(g & other & Hg & Ho) Hall]. split.
    + intros Hnil.
      assert (Hs : In (groupSet g) groupCandidates).
      { apply Hin. exists g. split; [exact Hg|]. split; [reflexivity|].
        apply Hset in Ho. intros E. rewrite E in Ho. destruct Ho. }
      rewrite Hnil in Hs. destruct Hs.
    + intros s Hs. apply Hin in Hs as (g' & Hg' & -> & Hne).
      apply Hset. apply Hall; [exact Hg'|].
      destruct (groupSet g') as [|x l] eqn:E; [contradiction Hne; reflexivity|].
      exists x. apply Hset. rewrite E. left; reflexivity.
Qed.

End Candidates.

Lemma term_candidates_are_an_intersection_witness :
  In (js "note1.md")
     (Provider.termCandidates Examples.threeNotes Examples.projectQuery)
  <-> (exists term,
          In term (terms Examples.projectQuery)
          /\ ResultSpec.indexed Examples.threeNotes term)
      /\ (forall term,
            In term (terms Examples.projectQuery) ->
            ResultSpec.indexed Examples.threeNotes term ->
            ResultSpec.posted Examples.threeNotes term (js "note1.md")).
Proof.
  apply (term_candidates_are_an_intersection Examples.threeNotes
           Examples.projectQuery (js "note1.md")).
  reflexivity.
Defined.

Lemma group_candidates_are_an_intersection_of_unions_witness :
  let q := {| raw := []; mode := files; terms := []; phrases := [];
              excludes := [];
              orGroups := [[js "project"; js "meeting"]];
              filters := noFilters; regex := None |} in
  In (js "note2.md") (Provider.termCandidates Examples.threeNotes q)
  <-> (exists orGroup other,
          In orGroup (orGroups q)
          /\ ResultSpec.postedInGroup Examples.threeNotes orGroup other)
      /\ (forall orGroup,
            In orGroup (orGroups q) ->
            (exists other,
                ResultSpec.postedInGroup Examples.threeNotes orGroup other) ->
            ResultSpec.postedInGroup Examples.threeNotes orGroup (js "note2.md")).
Proof.
  apply (group_candidates_are_an_intersection_of_unions Examples.threeNotes
           _ (js "note2.md")).
  discriminate.
Defined.

(** ** The inverted index *)

Section MapLookups.
Variable V : Type.
Implicit Types (m : Provider.JSMap V) (k : jsstring).
Import Provider.

Lemma jseqb_sym (a b : jsstring) : jseqb a b = jseqb b a.
Proof.
  destruct (jseqb a b) eqn:E.
  - apply jseqb_eq in E. subst. symmetry. apply jseqb_refl.
  - apply jseqb_neq in E. symmetry. apply jseqb_neq. auto.
Qed.

Lemma map_get_set m k (v : V) k' :
  map_get (map_set m k v) k' = if jseqb k k' then Some v else map_get m k'.
Proof.
  induction m as [|[k0 v0] m IH]; cbn [map_set map_get]; [reflexivity|].
  destruct (jseqb k0 k) eqn:E; cbn [map_get].
  - apply jseqb_eq in E. subst k0. destruct (jseqb k k'); reflexivity.
  - rewrite IH. destruct (jseqb k0 k') eqn:E'; [|reflexivity].
    apply jseqb_eq in E'. subst k0. rewrite jseqb_sym, E. reflexivity.
Qed.

Lemma map_get_set_other m k (v : V) k' :
  k <> k' -> map_get (map_set m k v) k' = map_get m k'.
Proof.
  intros H. rewrite map_get_set. apply jseqb_neq in H. rewrite H. reflexivity.
Qed.

Lemma map_get_delete m k k' :
  map_get (map_delete m k) k' = if jseqb k k' then None else map_get m k'.
Proof.
  unfold map_delete.
  induction m as [|[k0 v0] m IH]; cbn [filter map_get fst].
  - destruct (jseqb k k'); reflexivity.
  - destruct (jseqb k0 k) eqn:E; cbn [negb map_get].
    + apply jseqb_eq in E. subst k0. rewrite IH.
      destruct (jseqb k k'); reflexivity.
    + rewrite IH. destruct (jseqb k0 k') eqn:E'; [|reflexivity].
      apply jseqb_eq in E'. subst k0. rewrite jseqb_sym, E. reflexivity.
Qed.

Lemma map_get_delete_other m k k' :
  k <> k' -> map_get (map_delete m k) k' = map_get m k'.
Proof.
  intros H. rewrite map_get_delete. apply jseqb_neq in H. rewrite H.
  reflexivity.
Qed.

Lemma map_get_delete_same m k : map_get (map_delete m k) k = None.
Proof. rewrite map_get_delete, jseqb_refl. reflexivity. Qed.

Lemma map_set_keys m k (v : V) x :
  In x (map fst (map_set m k v)) <-> x = k \/ In x (map fst m).
Proof.
  induction m as [|[k0 v0] m IH]; cbn [map_set map fst In].
  - intuition.
  - destruct (jseqb k0 k) eqn:E; cbn [map fst In].
    + apply jseqb_eq in E. subst k0. intuition.
    + rewrite IH. intuition.
Qed.

Lemma map_set_unique m k (v : V) :
  Spec.uniqueKeys m -> Spec.uniqueKeys (map_set m k v).
Proof.
  unfold Spec.uniqueKeys.
  induction m as [|[k0 v0] m IH]; cbn [map_set map fst]; intros H.
  - repeat constructor. intros [].
  - inversion H as [|? ? Hn Hm]; subst.
    destruct (jseqb k0 k) eqn:E; cbn [map fst]; [constructor; assumption|].
    constructor; [|apply IH, Hm].
    intros Hin. apply map_set_keys in Hin as [->|Hin]; [|contradiction].
    rewrite jseqb_refl in E. discriminate.
Qed.

Lemma map_get_None m k : map_get m k = None <-> ~ In k (map fst m).
Proof.
  rewrite <- map_has_false. unfold map_has.
  destruct (map_get m k); split; intros; congruence.
Qed.

Lemma map_get_In m k (v : V) : map_get m k = Some v -> In (k, v) m.
Proof.
  induction m as [|[k0 v0] m IH]; cbn [map_get]; [discriminate|].
  destruct (jseqb k0 k) eqn:E.
  - apply jseqb_eq in E. subst k0. intros H. injection H as ->.
    left; reflexivity.
  - intros H. right. apply IH, H.
Qed.

Lemma map_delete_set_absent m k (v : V) :
  ~ In k (map fst m) -> map_delete (map_set m k v) k = m.
Proof.
  intros H. rewrite (map_set_absent _ m k v H).
  unfold map_delete. rewrite filter_app. cbn [filter fst].
  rewrite jseqb_refl. cbn [negb]. rewrite app_nil_r.
  apply (map_delete_absent _ m k H).
Qed.

End MapLookups.

Section Tables.
Context {U : Unicode}.
Import Provider IndexSpec.

Lemma postingsOf_get (ix : JSMap PostingList) (term : jsstring) (l : PostingList) :
  map_get ix term = Some l -> postingsOf ix term = l.
Proof. unfold postingsOf. intros ->. reflexivity. Qed.

(** When the tables fit, the lookups are told by the posting lists. *)
Lemma tablesOk_get (ix : JSMap PostingList) (d : JSMap nat) (term : jsstring) :
  tablesOk ix d ->
  map_get ix term
  = match postingsOf ix term with [] => None | l => Some l end
  /\ map_get d term
     = match postingsOf ix term with [] => None | l => Some (length l) end.
Proof.
  intros (_ & Hb & Hc). unfold postingsOf.
  destruct (map_get ix term) as [l|] eqn:E.
  - destruct (Hb term l E) as [Hne Hd].
    destruct l as [|e l]; [contradiction Hne; reflexivity|]. auto.
  - split; [reflexivity|apply Hc, E].
Qed.

(** *** Adding postings *)

Lemma grows_refl (docId : jsstring) (ix : JSMap PostingList) : grows docId ix ix.
Proof. intros term. exists []. rewrite app_nil_r. split; constructor. Qed.

Lemma grows_trans (docId : jsstring) (a b c : JSMap PostingList) :
  grows docId a b -> grows docId b c -> grows docId a c.
Proof.
  intros Hab Hbc term.
  destruct (Hab term) as (es1 & E1 & F1). destruct (Hbc term) as (es2 & E2 & F2).
  exists (es1 ++ es2). rewrite E2, E1, app_assoc. split; [reflexivity|].
  apply Forall_app. auto.
Qed.

Lemma addPosting_spec (docId : jsstring) (field : SearchableField)
    (ix : JSMap PostingList) (d : JSMap nat) (term : jsstring)
    (termPositions : list nat) :
  tablesOk ix d ->
  let st' := addPosting docId field (ix, d) (term, termPositions) in
  tablesOk (fst st') (snd st')
  /\ grows docId ix (fst st')
  /\ exists e, In e (postingsOf (fst st') term)
               /\ pe_docId e = docId /\ pe_field e = field.
Proof.
  intros (Hu & Hb & Hc).
  set (entry := {| pe_docId := docId; pe_field := field;
                   pe_tf := length termPositions;
                   pe_positions := termPositions |}).
  assert (Hshape : exists l,
            postingsOf ix term = l
            /\ addPosting docId field (ix, d) (term, termPositions)
               = (map_set (match map_get ix term with
                           | Some _ => ix
                           | None => map_set ix term []
                           end) term (l ++ [entry]),
                  map_set (match map_get ix term with
                           | Some _ => d
                           | None => map_set d term 0
                           end) term (length l + 1))).
  { unfold addPosting, postingsOf. cbn [fst snd]. fold entry.
    destruct (map_get ix term) as [l|] eqn:E.
    - exists l. split; [reflexivity|].
      destruct (Hb term l E) as [_ ->]. reflexivity.
    - exists []. split; [reflexivity|].
      rewrite map_get_set_same. reflexivity. }
  destruct Hshape as (l & Hl & ->). cbn [fst snd].
  assert (Hget : forall t,
            map_get (map_set (match map_get ix term with
                              | Some _ => ix
                              | None => map_set ix term []
                              end) term (l ++ [entry])) t
            = if jseqb term t then Some (l ++ [entry]) else map_get ix t).
  { intros t. rewrite map_get_set. destruct (jseqb term t) eqn:E; [reflexivity|].
    destruct (map_get ix term); [reflexivity|].
    rewrite map_get_set, E. reflexivity. }
  assert (Hgetd : forall t,
            map_get (map_set (match map_get ix term with
                              | Some _ => d
                              | None => map_set d term 0
                              end) term (length l + 1)) t
            = if jseqb term t then Some (length l + 1) else map_get d t).
  { intros t. rewrite map_get_set. destruct (jseqb term t) eqn:E; [reflexivity|].
    destruct (map_get ix term); [reflexivity|].
    rewrite map_get_set, E. reflexivity. }
  split; [split; [|split]| split].
  - apply map_set_unique. destruct (map_get ix term); [exact Hu|].
    apply map_set_unique, Hu.
  - intros t l' Ht. rewrite Hget in Ht. rewrite Hgetd.
    destruct (jseqb term t); [|apply Hb, Ht].
    injection Ht as <-. split; [destruct l; discriminate|].
    rewrite length_app. reflexivity.
  - intros t Ht. rewrite Hget in Ht. rewrite Hgetd.
    destruct (jseqb term t); [discriminate|apply Hc, Ht].
  - intros t. unfold postingsOf at 1. rewrite Hget.
    destruct (jseqb term t) eqn:E.
    + apply jseqb_eq in E. subst t. exists [entry]. rewrite Hl.
      split; [reflexivity|]. repeat constructor.
    + exists []. rewrite app_nil_r. split; [reflexivity|constructor].
  - exists entry. unfold postingsOf. rewrite Hget, jseqb_refl.
    split; [apply in_or_app; right; left; reflexivity|]. split; reflexivity.
Qed.

Lemma grows_keeps (docId : jsstring) (ix ix' : JSMap PostingList)
    (term : jsstring) (P : PostingEntry -> Prop) :
  grows docId ix ix' ->
  (exists e, In e (postingsOf ix term) /\ P e) ->
  exists e, In e (postingsOf ix' term) /\ P e.
Proof.
  intros Hg (e & He & HP). destruct (Hg term) as (es & -> & _).
  exists e. split; [apply in_or_app; left; exact He|exact HP].
Qed.

Lemma fold_addPosting_spec (docId : jsstring) (field : SearchableField)
    (entries : JSMap (list nat)) :
  forall (ix : JSMap PostingList) (d : JSMap nat),
    tablesOk ix d ->
    let st' := fold_left (addPosting docId field) entries (ix, d) in
    tablesOk (fst st') (snd st')
    /\ grows docId ix (fst st')
    /\ forall term, In term (map fst entries) ->
         exists e, In e (postingsOf (fst st') term)
                   /\ pe_docId e = docId /\ pe_field e = field.
Proof.
  induction entries as [|[term termPositions] entries IH]; intros ix d Hok;
    cbn [fold_left].
  - split; [exact Hok|]. split; [apply grows_refl|intros term []].
  - destruct (addPosting_spec docId field ix d term termPositions Hok)
      as (Hok1 & Hg1 & He1).
    destruct (addPosting docId field (ix, d) (term, termPositions))
      as [ix1 d1] eqn:E1. cbn [fst snd] in *.
    destruct (IH ix1 d1 Hok1) as (Hok2 & Hg2 & He2).
    split; [exact Hok2|]. split; [apply (grows_trans _ _ _ _ Hg1 Hg2)|].
    intros t [<-|Ht]; [|apply He2, Ht].
    apply (grows_keeps docId ix1 _ _ _ Hg2 He1).
Qed.

Lemma fold_fields_spec (docId : jsstring) (diacritics : bool)
    (fieldTokens : list (SearchableField * list jsstring)) :
  forall (ix : JSMap PostingList) (d : JSMap nat),
    tablesOk ix d ->
    let st' :=
      fold_left
        (fun st ft =>
           fold_left (addPosting docId (fst ft))
             (tokenPositions diacritics (snd ft)) st)
        fieldTokens (ix, d) in
    tablesOk (fst st') (snd st')
    /\ grows docId ix (fst st')
    /\ forall ft term,
         In ft fieldTokens ->
         In term (map fst (tokenPositions diacritics (snd ft))) ->
         exists e, In e (postingsOf (fst st') term)
                   /\ pe_docId e = docId /\ pe_field e = fst ft.
Proof.
  induction fieldTokens as [|ft0 fieldTokens IH]; intros ix d Hok;
    cbn [fold_left].
  - split; [exact Hok|]. split; [apply grows_refl|intros ft term []].
  - destruct (fold_addPosting_spec docId (fst ft0)
                (tokenPositions diacritics (snd ft0)) ix d Hok)
      as (Hok1 & Hg1 & He1).
    destruct (fold_left (addPosting docId (fst ft0))
                (tokenPositions diacritics (snd ft0)) (ix, d))
      as [ix1 d1] eqn:E1. cbn [fst snd] in *.
    destruct (IH ix1 d1 Hok1) as (Hok2 & Hg2 & He2).
    split; [exact Hok2|]. split; [apply (grows_trans _ _ _ _ Hg1 Hg2)|].
    intros ft term [<-|Hft] Ht; [|apply (He2 ft term Hft Ht)].
    apply (grows_keeps docId ix1 _ _ _ Hg2 (He1 term Ht)).
Qed.

(** Every token has its positions under its normalised form. *)
Lemma tokenPositions_keys (diacritics : bool) (tokens : list jsstring)
    (token : jsstring) :
  In token tokens ->
  In (Normalize.normalizeText token diacritics)
     (map fst (tokenPositions diacritics tokens)).
Proof.
  unfold tokenPositions.
  assert (H : forall (st : JSMap (list nat) * nat) k,
            In k (map fst (fst st))
            \/ (exists token, In token tokens
                              /\ Normalize.normalizeText token diacritics = k) ->
            In k (map fst (fst (fold_left
                    (fun (st : JSMap (list nat) * nat) (token : jsstring) =>
                       let normalized := Normalize.normalizeText token diacritics in
                       let positions := fst st in
                       let old := match map_get positions normalized with
                                  | Some l => l
                                  | None => []
                                  end in
                       (map_set positions normalized (old ++ [snd st]), S (snd st)))
                    tokens st)))).
  { induction tokens as [|t0 tokens IH]; intros st k; cbn [fold_left].
    - intros [H|(t & [] & _)]. exact H.
    - intros Hk. apply IH. cbn [fst].
      destruct Hk as [Hk|(t & [<-|Ht] & E)].
      + left. apply map_set_keys. right. exact Hk.
      + left. apply map_set_keys. left. symmetry. exact E.
      + right. exists t. auto. }
  intros Hin. apply H. right. exists token. auto.
Qed.

(** *** Removing postings *)

Lemma filter_same_length (A : Type) (f : A -> bool) (l : list A) :
  length (filter f l) = length l -> filter f l = l.
Proof.
  induction l as [|x l IH]; cbn [filter length]; [reflexivity|].
  destruct (f x); cbn [length]; intros H.
  - f_equal. apply IH. lia.
  - pose proof (filter_length_le f l). lia.
Qed.

Lemma removeFromTerm_get (docId : jsstring) (st : JSMap PostingList * JSMap nat)
    (term : jsstring) (postingList : PostingList) (t : jsstring) :
  let st' := removeFromTerm docId st (term, postingList) in
  map_get (fst st') t
  = (if jseqb term t then removedList docId postingList (map_get (fst st) t)
     else map_get (fst st) t)
  /\ map_get (snd st') t
     = (if jseqb term t then removedCount docId postingList (map_get (snd st) t)
        else map_get (snd st) t).
Proof.
  unfold removeFromTerm, removedList, removedCount.
  change (fun entry : PostingEntry => negb (jseqb (pe_docId entry) docId))
    with (notOf docId).
  destruct (negb (length (filter (notOf docId) postingList) =? length postingList)).
  - destruct (filter (notOf docId) postingList) as [|e l]; cbn [fst snd].
    + rewrite !map_get_delete. split; reflexivity.
    + rewrite !map_get_set. split; reflexivity.
  - destruct (jseqb term t); split; reflexivity.
Qed.

Lemma removeFromTerm_unique (docId : jsstring)
    (st : JSMap PostingList * JSMap nat) (e : jsstring * PostingList) :
  Spec.uniqueKeys (fst st) ->
  Spec.uniqueKeys (fst (removeFromTerm docId st e)).
Proof.
  intros Hu. destruct e as [term postingList]. unfold removeFromTerm.
  destruct (negb _); [|exact Hu].
  destruct (filter _ postingList); cbn [fst];
    [apply map_delete_unique|apply map_set_unique]; exact Hu.
Qed.

Lemma fold_removeFromTerm_get (docId : jsstring)
    (snapshot : JSMap PostingList) :
  Spec.uniqueKeys snapshot ->
  forall (st : JSMap PostingList * JSMap nat) (t : jsstring),
    let st' := fold_left (removeFromTerm docId) snapshot st in
    map_get (fst st') t
    = match map_get snapshot t with
      | Some postingList => removedList docId postingList (map_get (fst st) t)
      | None => map_get (fst st) t
      end
    /\ map_get (snd st') t
       = match map_get snapshot t with
         | Some postingList => removedCount docId postingList (map_get (snd st) t)
         | None => map_get (snd st) t
         end.
Proof.
  unfold Spec.uniqueKeys.
  induction snapshot as [|[term postingList] snapshot IH]; intros Hu st t;
    cbn [fold_left map_get].
  - split; reflexivity.
  - cbn [map fst] in Hu. inversion Hu as [|? ? Hn Hu']; subst.
    destruct (IH Hu' (removeFromTerm docId st (term, postingList)) t)
      as [H1 H2].
    destruct (removeFromTerm_get docId st term postingList t) as [G1 G2].
    cbv zeta in H1, H2, G1, G2. rewrite H1, H2, G1, G2.
    destruct (jseqb term t) eqn:E.
    + apply jseqb_eq in E. subst t.
      apply map_get_None in Hn. rewrite Hn. split; reflexivity.
    + destruct (map_get snapshot t); split; reflexivity.
Qed.

Lemma fold_removeFromTerm_unique (docId : jsstring)
    (snapshot : JSMap PostingList) :
  forall st : JSMap PostingList * JSMap nat,
    Spec.uniqueKeys (fst st) ->
    Spec.uniqueKeys (fst (fold_left (removeFromTerm docId) snapshot st)).
Proof.
  induction snapshot as [|e snapshot IH]; intros st Hu; cbn [fold_left];
    [exact Hu|]. apply IH, removeFromTerm_unique, Hu.
Qed.

(** The tables once [remove] went through the index: every posting list
    without the entries of the document. *)
Lemma removed_tables (docId : jsstring) (ix : JSMap PostingList) (d : JSMap nat) :
  tablesOk ix d ->
  let st' := fold_left (removeFromTerm docId) ix (ix, d) in
  tablesOk (fst st') (snd st')
  /\ forall term,
       postingsOf (fst st') term = filter (notOf docId) (postingsOf ix term).
Proof.
  intros Hok. pose proof Hok as (Hu & Hb & Hc). cbv zeta.
  assert (Hget : forall t,
            map_get (fst (fold_left (removeFromTerm docId) ix (ix, d))) t
            = match filter (notOf docId) (postingsOf ix t) with
              | [] => None
              | l => Some l
              end
            /\ map_get (snd (fold_left (removeFromTerm docId) ix (ix, d))) t
               = match filter (notOf docId) (postingsOf ix t) with
                 | [] => None
                 | l => Some (length l)
                 end).
  { intros t.
    destruct (fold_removeFromTerm_get docId ix Hu (ix, d) t) as [H1 H2].
    cbv zeta in H1, H2. rewrite H1, H2. cbn [fst snd].
    unfold postingsOf, removedList, removedCount.
    destruct (map_get ix t) as [l|] eqn:E.
    - destruct (Hb t l E) as [Hne Hd]. rewrite Hd.
      destruct (Nat.eqb_spec (length (filter (notOf docId) l)) (length l))
        as [Hlen|Hlen]; cbn [negb].
      + apply filter_same_length in Hlen. rewrite Hlen.
        destruct l; [contradiction Hne; reflexivity|]. split; reflexivity.
      + destruct (filter (notOf docId) l); split; reflexivity.
    - cbn [filter]. split; [reflexivity|apply Hc, E]. }
  split; [split; [|split]|].
  - apply (fold_removeFromTerm_unique docId ix (ix, d)). exact Hu.
  - intros t l Ht. destruct (Hget t) as [G1 G2]. rewrite G1 in Ht. rewrite G2.
    destruct (filter (notOf docId) (postingsOf ix t)); [discriminate|].
    injection Ht as <-. split; [discriminate|reflexivity].
  - intros t Ht. destruct (Hget t) as [G1 G2]. rewrite G1 in Ht. rewrite G2.
    destruct (filter (notOf docId) (postingsOf ix t)); [reflexivity|discriminate].
  - intros t. unfold postingsOf at 1. destruct (Hget t) as [-> _].
    destruct (filter (notOf docId) (postingsOf ix t)); reflexivity.
Qed.

End Tables.

Section IndexInvariant.
Context {U : Unicode} {NUM : JSNumber} {CLK : Clock} {RX : RegExpEngine}.
Import Provider Spec IndexSpec.

Lemma filter_notOf_stored (p : t) (i : jsstring) (term : jsstring) :
  wellFormed p -> map_has (docs p) i = false ->
  filter (notOf i) (postingsOf (index p) term) = postingsOf (index p) term.
Proof.
  intros (_ & _ & Hd) Hi. apply forallb_filter_id, forallb_forall.
  intros e He. unfold postingsOf in He.
  destruct (map_get (index p) term) as [l|] eqn:E; [|destruct He].
  specialize (Hd term l e E He). unfold notOf.
  apply negb_true_iff, jseqb_neq. intros Heq. congruence.
Qed.

Lemma map_has_delete_other (V : Type) (m : JSMap V) (k k' : jsstring) :
  k <> k' -> map_has (map_delete m k) k' = map_has m k'.
Proof.
  intros H. unfold map_has. rewrite map_get_delete_other by exact H.
  reflexivity.
Qed.

Lemma map_has_set (V : Type) (m : JSMap V) (k k' : jsstring) (v : V) :
  map_has (map_set m k v) k' = jseqb k k' || map_has m k'.
Proof.
  unfold map_has. rewrite map_get_set. destruct (jseqb k k'); reflexivity.
Qed.

(** [remove] keeps the index well formed and takes the entries of the
    document out of every posting list. *)
Lemma remove_wellFormed (p : t) (i : jsstring) :
  wellFormed p ->
  wellFormed (remove p i)
  /\ forall term,
       postingsOf (index (remove p i)) term
       = filter (notOf i) (postingsOf (index p) term).
Proof.
  intros Hwf. pose proof Hwf as (Hok & Hu & Hd).
  unfold remove. destruct (map_get (docs p) i) as [meta|] eqn:E.
  - destruct (removed_tables i (index p) (df p) Hok) as [Hok' Hpost].
    cbv zeta in Hok', Hpost.
    destruct (fold_left (removeFromTerm i) (index p) (index p, df p))
      as [ix' d']. cbn [fst snd] in Hok', Hpost.
    split; [|exact Hpost].
    split; [exact Hok'|]. cbn [index df docs].
    split; [apply map_delete_unique, Hu|].
    intros term l e Hl He.
    apply postingsOf_get in Hl. rewrite Hpost in Hl. subst l.
    apply filter_In in He as [He Hne].
    unfold notOf in Hne. apply negb_true_iff, jseqb_neq in Hne.
    rewrite map_has_delete_other by auto.
    unfold postingsOf in He.
    destruct (map_get (index p) term) as [l0|] eqn:E0; [|destruct He].
    apply (Hd term l0 e E0 He).
  - split; [exact Hwf|]. intros term. symmetry.
    apply filter_notOf_stored; [exact Hwf|].
    unfold map_has. rewrite E. reflexivity.
Qed.

Lemma withoutOld_wellFormed (p : t) (d : Doc) :
  wellFormed p ->
  wellFormed (withoutOld p d)
  /\ map_has (docs (withoutOld p d)) (id d) = false
  /\ forall term,
       postingsOf (index (withoutOld p d)) term
       = filter (notOf (id d)) (postingsOf (index p) term).
Proof.
  intros Hwf. pose proof (withoutOld_absent p d) as Habs.
  apply map_has_false in Habs. split; [|split; [exact Habs|]].
  - unfold withoutOld. destruct (map_has (docs p) (id d)); [|exact Hwf].
    apply remove_wellFormed, Hwf.
  - unfold withoutOld in *. destruct (map_has (docs p) (id d)) eqn:E.
    + apply remove_wellFormed, Hwf.
    + intros term. symmetry. apply filter_notOf_stored; assumption.
Qed.

Lemma upsert_shape (p : t) (d : Doc) :
  let p1 := withoutOld p d in
  upsert p d = (p1, MaximumDocumentLimitReached)
  \/ (snd (upsert p d) = Done
      /\ options (fst (upsert p d)) = options p1
      /\ totalDocs (fst (upsert p d)) = (totalDocs p1 + 1)%Z
      /\ (exists meta,
             docs (fst (upsert p d)) = map_set (docs p1) (id d) meta)
      /\ (index (fst (upsert p d)), df (fst (upsert p d)))
         = fold_left
             (fun st ft =>
                fold_left (addPosting (id d) (fst ft))
                  (tokenPositions (Scorer.diacritics (scorerConfig (options p1)))
                     (snd ft)) st)
             (fieldTokensOf p1 d) (index p1, df p1)).
Proof.
  intros p1. unfold upsert. fold (withoutOld p d). fold p1.
  destruct (maxDocs (options p1) <=? totalDocs p1)%Z; [left; reflexivity|].
  right. unfold fieldTokensOf.
  match goal with
  | |- context [fold_left ?f ?l ?a] => destruct (fold_left f l a) as [i' d']
  end.
  cbn [fst snd options totalDocs docs index df].
  repeat split. eexists. reflexivity.
Qed.

Lemma upsert_wellFormed (p : t) (d : Doc) :
  wellFormed p -> wellFormed (fst (upsert p d)).
Proof.
  intros Hwf.
  destruct (withoutOld_wellFormed p d Hwf) as (Hwf1 & Habs & _).
  destruct (upsert_shape p d) as [E|(_ & _ & _ & (meta & Hdocs) & Htab)];
    cbv zeta in *.
  - rewrite E. exact Hwf1.
  - destruct Hwf1 as (Hok1 & Hu1 & Hd1).
    destruct (fold_fields_spec (id d)
                (Scorer.diacritics (scorerConfig (options (withoutOld p d))))
                (fieldTokensOf (withoutOld p d) d)
                (index (withoutOld p d)) (df (withoutOld p d)) Hok1)
      as (Hok2 & Hg & _).
    cbv zeta in Hok2, Hg. rewrite <- Htab in Hok2, Hg. cbn [fst snd] in Hok2, Hg.
    split; [exact Hok2|]. rewrite Hdocs.
    split; [apply map_set_unique, Hu1|].
    intros term l e Hl He. rewrite map_has_set.
    apply postingsOf_get in Hl. destruct (Hg term) as (es & Hes & Hall).
    rewrite Hes in Hl. subst l. apply in_app_or in He as [He|He].
    + unfold postingsOf in He.
      destruct (map_get (index (withoutOld p d)) term) as [l0|] eqn:E0;
        [|destruct He].
      rewrite (Hd1 term l0 e E0 He). apply orb_true_r.
    + rewrite Forall_forall in Hall. rewrite (Hall e He), jseqb_refl.
      reflexivity.
Qed.

Lemma create_wellFormed (o : Options) : wellFormed (create o).
Proof.
  unfold wellFormed, tablesOk, uniqueKeys, create. cbn.
  repeat split; try constructor; try discriminate.
Qed.

Lemma clear_wellFormed (p : t) : wellFormed (clear p).
Proof. apply (create_wellFormed (options p)). Qed.

Lemma upsertAll_wellFormed (l : list Doc) :
  forall p, wellFormed p -> wellFormed (fst (upsertAll p l)).
Proof.
  induction l as [|d l IH]; intros p Hwf; cbn [upsertAll]; [exact Hwf|].
  pose proof (upsert_wellFormed p d Hwf) as Hwf1.
  destruct (upsert p d) as [p' o]. cbn [fst] in Hwf1.
  destruct o; [apply IH, Hwf1|exact Hwf1].
Qed.

Lemma apply_wellFormed (p : t) (o : Op) :
  wellFormed p -> wellFormed (apply p o).
Proof.
  intros Hwf. destruct o as [d|i| |l]; cbn [apply].
  - apply upsert_wellFormed, Hwf.
  - apply remove_wellFormed, Hwf.
  - apply clear_wellFormed.
  - unfold indexAll. apply upsertAll_wellFormed, clear_wellFormed.
Qed.

Lemma run_wellFormed (o : Options) (ops : list Op) :
  wellFormed (run (create o) ops).
Proof.
  unfold run.
  assert (H : forall p, wellFormed p -> wellFormed (fold_left apply ops p)).
  { induction ops as [|op ops IH]; intros p Hwf; cbn [fold_left];
      [exact Hwf|]. apply IH, apply_wellFormed, Hwf. }
  apply H, create_wellFormed.
Qed.

(** X14 (built-in-provider.ts, upsert, remove, clear and indexAll): after
    any sequence of operations on a new provider the index is well
    formed: every term and every document is stored once, no posting
    list is empty, the document frequency kept for a term is the length
    of its posting list, no frequency is kept for a term without one, and
    every entry of a posting list is of a stored document. *)
Theorem index_stays_well_formed (o : Options) (ops : list Op) :
  wellFormed (run (create o) ops).
Proof. exact (run_wellFormed o ops). Qed.

(** X15 (built-in-provider.ts, remove): on a well-formed index, remove
    takes the document out of the store and its entries out of every
    posting list, and leaves the entries of the other documents and the
    other documents as they are; removing an id that is not stored
    changes nothing. *)
Theorem remove_erases_the_document (p : t) (i : jsstring) :
  wellFormed p ->
  map_has (docs (remove p i)) i = false
  /\ (forall j, j <> i -> map_get (docs (remove p i)) j = map_get (docs p) j)
  /\ (forall term,
        postingsOf (index (remove p i)) term
        = filter (notOf i) (postingsOf (index p) term))
  /\ (map_has (docs p) i = false -> remove p i = p).
Proof.
  intros Hwf. destruct (remove_facts p i) as (_ & Hdocs & _).
  split; [|split; [|split]].
  - rewrite Hdocs. apply map_has_false, map_delete_not_in.
  - intros j Hj. rewrite Hdocs. apply map_get_delete_other. auto.
  - apply remove_wellFormed, Hwf.
  - unfold remove, map_has. destruct (map_get (docs p) i); [discriminate|].
    reflexivity.
Qed.

Lemma upsert_postings (p : t) (d : Doc) :
  wellFormed p -> snd (upsert p d) = Done ->
  (forall field token,
      In (field, token) (indexedTokens p d) ->
      exists entry,
        In entry (postingsOf (index (fst (upsert p d)))
                    (Normalize.normalizeText token
                       (Scorer.diacritics (scorerConfig (options p)))))
        /\ pe_docId entry = id d /\ pe_field entry = field)
  /\ (forall term,
        filter (notOf (id d)) (postingsOf (index (fst (upsert p d))) term)
        = filter (notOf (id d)) (postingsOf (index p) term)).
Proof.
  intros Hwf Hdone.
  destruct (withoutOld_wellFormed p d Hwf) as ((Hok1 & _) & _ & Hpost1).
  pose proof (withoutOld_options p d) as Hopt.
  destruct (upsert_shape p d) as [E|(_ & _ & _ & _ & Htab)]; cbv zeta in *;
    [rewrite E in Hdone; discriminate|].
  destruct (fold_fields_spec (id d)
              (Scorer.diacritics (scorerConfig (options (withoutOld p d))))
              (fieldTokensOf (withoutOld p d) d)
              (index (withoutOld p d)) (df (withoutOld p d)) Hok1)
    as (_ & Hg & He).
  cbv zeta in Hg, He. rewrite <- Htab in Hg, He. cbn [fst snd] in Hg, He.
  unfold fieldTokensOf in He. rewrite Hopt in He.
  split.
  - intros field token Hin. unfold indexedTokens in Hin.
    apply in_flat_map in Hin as (fc & Hfc & Hin).
    apply in_map_iff in Hin as (token' & Heq & Htok).
    injection Heq as <- <-.
    apply (He (fst fc,
               Normalize.tokenizeWords (snd fc)
                 (Scorer.diacritics (scorerConfig (options p))))).
    + apply in_map_iff. exists fc. split; [reflexivity|exact Hfc].
    + cbn [snd]. apply tokenPositions_keys, Htok.
  - intros term. destruct (Hg term) as (es & -> & Hall).
    rewrite filter_app, Hpost1.
    assert (Hes : filter (notOf (id d)) es = []).
    { clear -Hall. induction Hall as [|e es He _ IH]; [reflexivity|].
      cbn [filter]. unfold notOf at 1. rewrite He, jseqb_refl. exact IH. }
    rewrite Hes, app_nil_r.
    clear. induction (postingsOf (index p) term) as [|e l IH]; [reflexivity|].
    cbn [filter]. destruct (notOf (id d) e) eqn:E; cbn [filter];
      rewrite ?E, IH; reflexivity.
Qed.

(** X16 (built-in-provider.ts, upsert): an upsert that succeeds on a
    well-formed index files the document under every token of every
    field: the posting list of the normalised token has an entry of the
    document for that field.  The entries of the other documents stay as
    they are, in their order. *)
Theorem upsert_posts_every_token (p : t) (d : Doc) :
  wellFormed p -> snd (upsert p d) = Done ->
  (forall field token,
      In (field, token) (indexedTokens p d) ->
      exists entry,
        In entry (postingsOf (index (fst (upsert p d)))
                    (Normalize.normalizeText token
                       (Scorer.diacritics (scorerConfig (options p)))))
        /\ pe_docId entry = id d /\ pe_field entry = field)
  /\ (forall term,
        filter (notOf (id d)) (postingsOf (index (fst (upsert p d))) term)
        = filter (notOf (id d)) (postingsOf (index p) term)).
Proof. exact (upsert_postings p d). Qed.

(** X17 (built-in-provider.ts, upsert and remove): on a well-formed
    index, removing a document that an upsert has just added under a new
    id gives back a provider with the same options, documents and
    counter, and with the same posting list and document frequency for
    every term. *)
Theorem upsert_then_remove_restores (p : t) (d : Doc) :
  wellFormed p -> map_has (docs p) (id d) = false ->
  snd (upsert p d) = Done ->
  sameContent (remove (fst (upsert p d)) (id d)) p.
Proof.
  intros Hwf Hnew Hdone.
  pose proof (upsert_wellFormed p d Hwf) as Hwf1.
  destruct (remove_wellFormed (fst (upsert p d)) (id d) Hwf1)
    as [(Hok2 & _) Hpost2].
  destruct (upsert_postings p d Hwf Hdone) as [_ Hframe].
  destruct (remove_facts (fst (upsert p d)) (id d)) as (Ho & Hd & Ht).
  assert (Hold : withoutOld p d = p).
  { unfold withoutOld. rewrite Hnew. reflexivity. }
  destruct (upsert_shape p d) as [E|(_ & Ho1 & Ht1 & (meta & Hd1) & _)];
    cbv zeta in *; [rewrite E in Hdone; discriminate|].
  rewrite Hold in *.
  assert (Hpost : forall term,
            postingsOf (index (remove (fst (upsert p d)) (id d))) term
            = postingsOf (index p) term).
  { intros term. rewrite Hpost2, Hframe.
    apply filter_notOf_stored; assumption. }
  destruct Hwf as (Hok & _).
  split; [congruence|]. split; [|split; [|split]].
  - rewrite Hd, Hd1. apply map_delete_set_absent.
    apply map_has_false, Hnew.
  - rewrite Ht, Hd1, map_has_set, jseqb_refl, Ht1. cbn [orb]. lia.
  - intros term.
    destruct (tablesOk_get _ _ term Hok2) as [-> _].
    destruct (tablesOk_get _ _ term Hok) as [-> _].
    rewrite Hpost. reflexivity.
  - intros term.
    destruct (tablesOk_get _ _ term Hok2) as [_ ->].
    destruct (tablesOk_get _ _ term Hok) as [_ ->].
    rewrite Hpost. reflexivity.
Qed.

End IndexInvariant.

Lemma threeNotes_wellFormed : IndexSpec.wellFormed Examples.threeNotes.
Proof.
  unfold Examples.threeNotes, Provider.indexAll.
  apply upsertAll_wellFormed, clear_wellFormed.
Qed.

Lemma remove_erases_the_document_witness :
  Provider.map_has
    (Provider.docs (Provider.remove Examples.threeNotes (js "note1.md")))
    (js "note1.md") = false
  /\ (forall term,
        IndexSpec.postingsOf
          (Provider.index (Provider.remove Examples.threeNotes (js "note1.md")))
          term
        = filter (IndexSpec.notOf (js "note1.md"))
            (IndexSpec.postingsOf (Provider.index Examples.threeNotes) term)).
Proof.
  destruct (remove_erases_the_document Examples.threeNotes (js "note1.md")
              threeNotes_wellFormed) as (H1 & _ & H3 & _).
  split; assumption.
Defined.

Lemma upsert_posts_every_token_witness :
  exists entry,
    In entry
       (IndexSpec.postingsOf
          (Provider.index (fst (Provider.upsert Examples.threeNotes
                                  Examples.accentedDoc)))
          (Normalize.normalizeText (js "accents") true))
    /\ Provider.pe_docId entry = js "e.md"
    /\ Provider.pe_field entry = f_title.
Proof.
  destruct (upsert_posts_every_token Examples.threeNotes Examples.accentedDoc)
    as [H _].
  - exact threeNotes_wellFormed.
  - vm_compute. reflexivity.
  - apply (H f_title (js "accents")). vm_compute. left. reflexivity.
Defined.

Lemma upsert_then_remove_restores_witness :
  IndexSpec.sameContent
    (Provider.remove
       (fst (Provider.upsert Examples.threeNotes Examples.accentedDoc))
       (js "e.md"))
    Examples.threeNotes.
Proof.
  apply (upsert_then_remove_restores Examples.threeNotes Examples.accentedDoc).
  - exact threeNotes_wellFormed.
  - vm_compute. reflexivity.
  - vm_compute. reflexivity.
Defined.

(** ** The shape of a parsed query *)

Section ParserShape.
Context {U : Unicode} {RX : RegExpEngine}.
Import QueryParser ParserSpec.

Lemma splitWhitespace_go_tokens (s : jsstring) :
  forall cur : jsstring,
    Forall (fun c => isWhiteSpace c = false) cur ->
    Forall isToken (splitWhitespace_go s cur).
Proof.
  assert (Hrev : forall c cur,
            Forall (fun c => isWhiteSpace c = false) (c :: cur) ->
            isToken (rev (c :: cur))).
  { intros c cur H. split.
    - cbn [rev]. intros E. apply app_eq_nil in E as [_ E]. discriminate.
    - apply Forall_rev, H. }
  induction s as [|c s IH]; intros cur Hcur; cbn [splitWhitespace_go].
  - destruct cur as [|x cur]; [constructor|].
    constructor; [apply Hrev, Hcur|constructor].
  - destruct (isWhiteSpace c) eqn:E.
    + destruct cur as [|x cur]; [apply IH; constructor|].
      constructor; [apply Hrev, Hcur|apply IH; constructor].
    + apply IH. constructor; assumption.
Qed.

Lemma splitWhitespace_tokens (s : jsstring) :
  Forall isToken (splitWhitespace s).
Proof. apply splitWhitespace_go_tokens. constructor. Qed.

Lemma isToken_skipn (n : nat) (token : jsstring) :
  isToken token -> skipn n token <> [] -> isToken (skipn n token).
Proof.
  intros [_ H] Hne. split; [exact Hne|].
  rewrite <- (firstn_skipn n token) in H. apply Forall_app in H. apply H.
Qed.

Lemma skipn_longer (A : Type) (n : nat) (l : list A) :
  n < length l -> skipn n l <> [].
Proof.
  intros H E. pose proof (length_skipn n l) as Hl. rewrite E in Hl.
  cbn [length] in Hl. lia.
Qed.

Lemma isNonEmpty_true (s : jsstring) : isNonEmpty s = true -> s <> [].
Proof. destruct s; [discriminate|intros _; discriminate]. Qed.

Lemma tokensIn_push (o : option (list jsstring)) (v : jsstring) :
  tokensIn o -> isToken v -> tokensIn (pushFilter o v).
Proof.
  destruct o as [l|]; cbn [tokensIn pushFilter]; intros Ho Hv.
  - apply Forall_app. split; [exact Ho|constructor; [exact Hv|constructor]].
  - constructor; [exact Hv|constructor].
Qed.

Lemma Forall_removelast (A : Type) (P : A -> Prop) (l : list A) :
  Forall P l -> Forall P (removelast l).
Proof.
  induction 1 as [|x l Hx Hl IH]; cbn [removelast]; [constructor|].
  destruct l; [constructor|]. constructor; assumption.
Qed.

Lemma Forall_last (A : Type) (P : A -> Prop) (l : list A) (d : A) :
  Forall P l -> l <> [] -> P (last l d).
Proof.
  induction 1 as [|x l Hx Hl IH]; intros Hne; [contradiction Hne; reflexivity|].
  cbn [last]. destruct l; [exact Hx|]. apply IH. discriminate.
Qed.

Lemma Forall_snoc (A : Type) (P : A -> Prop) (l : list A) (x : A) :
  Forall P l -> P x -> Forall P (l ++ [x]).
Proof.
  intros Hl Hx. apply Forall_app.
  split; [exact Hl|constructor; [exact Hx|constructor]].
Qed.

Lemma loopInvariant_make (ts es : list jsstring) (gs : list (list jsstring))
    (c : list jsstring) (i : bool) (pre : option FieldPrefix)
    (fs : QueryFilters) :
  Forall isToken ts -> Forall isToken es -> Forall isOrGroup gs ->
  Forall isToken c -> filtersOk fs ->
  loopInvariant {| ls_terms := ts; ls_excludes := es; ls_orGroups := gs;
                   ls_currentOrGroup := c; ls_inOrGroup := i;
                   ls_fieldPrefix := pre; ls_filters := fs |}.
Proof.
  intros H1 H2 H3 H4 H5. unfold loopInvariant.
  cbn [ls_terms ls_excludes ls_orGroups ls_currentOrGroup ls_filters].
  split; [exact H1|split; [exact H2|split; [exact H3|split; [exact H4|exact H5]]]].
Qed.

Lemma filtersOk_make (tag path inn : option (list jsstring))
    (field : option FieldPrefix) :
  tokensIn tag -> tokensIn path -> tokensIn inn ->
  filtersOk {| f_tag := tag; f_path := path; f_in := inn; f_field := field |}.
Proof. intros H1 H2 H3. split; [exact H1|split; [exact H2|exact H3]]. Qed.

(** One round of the token loop keeps the invariant. *)
Lemma stepToken_invariant (st : LoopState) (token : jsstring)
    (rest : list jsstring) :
  loopInvariant st -> isToken token ->
  loopInvariant (stepToken st token rest).
Proof.
  intros Hinv Htok. pose proof Hinv as (Ht & He & Hg & Hc & Hf).
  pose proof Hf as (Hf1 & Hf2 & Hf3).
  unfold stepToken.
  destruct (isOR token).
  { destruct (negb (ls_inOrGroup st) && (0 <? length (ls_terms st))) eqn:E;
      [|exact Hinv].
    apply andb_true_iff in E as [_ E]. apply Nat.ltb_lt in E.
    assert (Hne : ls_terms st <> []).
    { intros H. rewrite H in E. cbn in E. lia. }
    apply loopInvariant_make; try assumption.
    - apply Forall_removelast, Ht.
    - constructor; [|constructor]. apply (Forall_last _ _ _ _ Ht Hne). }
  destruct (startsWith token (js "-") && (1 <? length token)) eqn:Eminus.
  { apply andb_true_iff in Eminus as [_ E]. apply Nat.ltb_lt in E.
    apply loopInvariant_make; try assumption.
    apply Forall_snoc; [exact He|].
    apply isToken_skipn; [exact Htok|apply skipn_longer, E]. }
  destruct (jseqb token (js "#") || jseqb token (js "@")).
  { apply loopInvariant_make; assumption. }
  destruct (startsWith token (js "tag:")).
  { destruct (isNonEmpty (skipn 4 token)) eqn:E; [|exact Hinv].
    apply loopInvariant_make; try assumption.
    apply filtersOk_make; try assumption.
    apply tokensIn_push; [exact Hf1|].
    apply isToken_skipn; [exact Htok|apply isNonEmpty_true, E]. }
  destruct (startsWith token (js "#") && (1 <? length token)) eqn:Ehash.
  { apply andb_true_iff in Ehash as [_ E]. apply Nat.ltb_lt in E.
    apply loopInvariant_make; try assumption.
    apply filtersOk_make; try assumption.
    apply tokensIn_push; [exact Hf1|].
    apply isToken_skipn; [exact Htok|apply skipn_longer, E]. }
  destruct (startsWith token (js "path:")).
  { destruct (isNonEmpty (skipn 5 token)) eqn:E; [|exact Hinv].
    apply loopInvariant_make; try assumption.
    apply filtersOk_make; try assumption.
    apply tokensIn_push; [exact Hf2|].
    apply isToken_skipn; [exact Htok|apply isNonEmpty_true, E]. }
  destruct (startsWith token (js "in:")).
  { destruct (isNonEmpty (skipn 3 token)) eqn:E; [|exact Hinv].
    apply loopInvariant_make; try assumption.
    apply filtersOk_make; try assumption.
    apply tokensIn_push; [exact Hf3|].
    apply isToken_skipn; [exact Htok|apply isNonEmpty_true, E]. }
  assert (Hc1 : Forall isToken (ls_currentOrGroup st ++ [token]))
    by (apply Forall_snoc; assumption).
  assert (Ht1 : Forall isToken (ls_terms st ++ [token]))
    by (apply Forall_snoc; assumption).
  assert (H1 : Forall isToken [token]) by (constructor; [exact Htok|constructor]).
  destruct (ls_inOrGroup st); destruct (nextIsOR rest); cbn [andb negb].
  - apply loopInvariant_make; assumption.
  - destruct (Nat.leb_spec 2 (length (ls_currentOrGroup st ++ [token])))
      as [Hlen|Hlen].
    + apply loopInvariant_make; try assumption; [|constructor].
      apply Forall_snoc; [exact Hg|]. split; assumption.
    + destruct (ls_currentOrGroup st ++ [token]) as [|t [|t' l]] eqn:E;
        apply loopInvariant_make; try assumption; try constructor.
      apply Forall_snoc; [exact Ht|]. inversion Hc1; assumption.
  - apply loopInvariant_make; assumption.
  - apply loopInvariant_make; assumption.
Qed.

Lemma tokenLoop_invariant (tokens : list jsstring) :
  forall st, loopInvariant st -> Forall isToken tokens ->
             loopInvariant (tokenLoop st tokens).
Proof.
  induction tokens as [|token rest IH]; intros st Hst Htok; cbn [tokenLoop];
    [exact Hst|].
  inversion Htok; subst. apply IH; [|assumption].
  apply stepToken_invariant; assumption.
Qed.

Lemma closeOrGroup_invariant (st : LoopState) :
  loopInvariant st ->
  Forall isToken (fst (closeOrGroup st))
  /\ Forall isOrGroup (snd (closeOrGroup st)).
Proof.
  intros (Ht & _ & Hg & Hc & _). unfold closeOrGroup.
  destruct (ls_inOrGroup st); cbn [andb].
  - destruct (Nat.leb_spec 2 (length (ls_currentOrGroup st))) as [Hlen|Hlen];
      cbn [fst snd].
    + split; [exact Ht|]. apply Forall_snoc; [exact Hg|]. split; assumption.
    + destruct (ls_currentOrGroup st) as [|t [|t' l]]; cbn [fst snd];
        split; try assumption.
      apply Forall_snoc; [exact Ht|]. inversion Hc; assumption.
  - cbn [fst snd]. split; assumption.
Qed.

Lemma initial_invariant : loopInvariant initialLoopState.
Proof.
  apply loopInvariant_make; [constructor|constructor|constructor|constructor|].
  apply filtersOk_make; exact I.
Qed.

Lemma phraseMatches_phrases (s : jsstring) :
  forall inside : option jsstring,
    match inside with Some buf => ~ In quote buf | None => True end ->
    Forall isPhrase (phraseMatches s inside).
Proof.
  induction s as [|c s IH]; intros inside Hin; cbn [phraseMatches];
    [constructor|].
  destruct inside as [buf|].
  - destruct (N.eqb_spec c quote) as [->|Hc].
    + destruct buf as [|x buf]; [apply IH; intros []|].
      constructor; [|apply IH; exact I].
      split.
      * cbn [rev]. intros E. apply app_eq_nil in E as [_ E]. discriminate.
      * intros H. apply in_rev in H. apply Hin, H.
    + apply IH. intros [H|H]; [apply Hc; exact H|apply Hin, H].
  - destruct (N.eqb c quote); apply IH; [intros []|exact I].
Qed.

(** The query of a parse in files mode, from the state of the token
    loop. *)
Lemma parse_files_shape (input : jsstring) (settings : QueryParserSettings) :
  isCommandsQuery (trim input) settings = false ->
  exists (tokens : list jsstring) (regexSpec : option RegexSpec)
         (errors : list ParseError),
    let st := tokenLoop initialLoopState tokens in
    Forall isToken tokens
    /\ parseQueryWithErrors input settings
       = {| pr_query :=
              {| raw := input; mode := files;
                 terms := fst (closeOrGroup st);
                 phrases := phraseMatches (trim input) None;
                 excludes := ls_excludes st;
                 orGroups := snd (closeOrGroup st);
                 filters :=
                   match ls_fieldPrefix st with
                   | Some p => {| f_tag := f_tag (ls_filters st);
                                  f_path := f_path (ls_filters st);
                                  f_in := f_in (ls_filters st);
                                  f_field := Some p |}
                   | None => ls_filters st
                   end;
                 regex := regexSpec |};
            pr_errors := errors |}
    /\ (match regexSpec with
        | Some spec =>
            RegExp_new (rx_source spec) (rx_flags spec) <> None /\ errors = []
        | None => True
        end)
    /\ (errors = []
        \/ exists position,
             errors = [{| err_type := regex_error; err_position := position |}]
             /\ regexSpec = None).
Proof.
  intros Hcmd. unfold parseQueryWithErrors. rewrite Hcmd.
  set (remaining := trim (removePhrases (trim input) None)).
  destruct (regexMatch remaining 0) as [[[[i pattern] flags] rest]|].
  - destruct (RegExp_new pattern flags) as [rx|] eqn:Hnew.
    + exists (splitWhitespace (trim (firstn i remaining ++ rest))),
             (Some {| rx_source := pattern; rx_flags := flags |}), [].
      split; [apply splitWhitespace_tokens|]. split; [|split].
      * cbv zeta. destruct (closeOrGroup _) as [ts gs]. reflexivity.
      * cbn [rx_source rx_flags]. rewrite Hnew. split; [discriminate|reflexivity].
      * left. reflexivity.
    + exists (splitWhitespace (trim (firstn i remaining ++ rest))), None,
             [{| err_type := regex_error;
                 err_position :=
                   indexOf remaining ([slash] ++ pattern ++ [slash] ++ flags) |}].
      split; [apply splitWhitespace_tokens|]. split; [|split].
      * cbv zeta. destruct (closeOrGroup _) as [ts gs]. reflexivity.
      * exact I.
      * right. eexists. split; reflexivity.
  - exists (splitWhitespace remaining), None, [].
    split; [apply splitWhitespace_tokens|]. split; [|split].
    + cbv zeta. destruct (closeOrGroup _) as [ts gs]. reflexivity.
    + exact I.
    + left. reflexivity.
Qed.

Lemma parse_commands_shape (input : jsstring) (settings : QueryParserSettings) :
  isCommandsQuery (trim input) settings = true ->
  exists commandQuery : jsstring,
    parseQueryWithErrors input settings
    = {| pr_query :=
           {| raw := input; mode := commands;
              terms := if isNonEmpty commandQuery then [commandQuery] else [];
              phrases := []; excludes := []; orGroups := [];
              filters := noFilters; regex := None |};
         pr_errors := [] |}.
Proof.
  intros Hcmd. unfold parseQueryWithErrors. rewrite Hcmd. eexists. reflexivity.
Qed.

(** X18 (query-parser.ts, parseQueryWithErrors): whatever the input, no
    string of the parsed query is empty: every term, phrase, exclude,
    member of an or-group and value of a tag, path or in filter has a
    character.  Every or-group has two members or more.  Phrases hold no
    quote, and in files mode terms, excludes, members and filter values
    hold no white space. *)
Theorem parsed_query_has_no_empty_string
    (input : jsstring) (settings : QueryParserSettings) :
  let q := parseQuery input settings in
  Forall (fun term => term <> []) (terms q)
  /\ (mode q = files -> Forall isToken (terms q))
  /\ Forall isPhrase (phrases q)
  /\ Forall isToken (excludes q)
  /\ Forall isOrGroup (orGroups q)
  /\ filtersOk (filters q).
Proof.
  unfold parseQuery.
  destruct (isCommandsQuery (trim input) settings) eqn:Hcmd.
  - destruct (parse_commands_shape input settings Hcmd) as (c & ->).
    cbn [pr_query terms mode phrases excludes orGroups filters].
    split; [|split; [discriminate|repeat split; constructor]].
    destruct (isNonEmpty c) eqn:E; [|constructor].
    constructor; [apply isNonEmpty_true, E|constructor].
  - destruct (parse_files_shape input settings Hcmd)
      as (tokens & regexSpec & errors & Htok & -> & _).
    cbn [pr_query terms mode phrases excludes orGroups filters].
    pose proof (tokenLoop_invariant tokens _ initial_invariant Htok) as Hinv.
    destruct (closeOrGroup_invariant _ Hinv) as [Hterms Hgroups].
    destruct Hinv as (_ & Hex & _ & _ & Hf1 & Hf2 & Hf3).
    split; [|split; [intros _; exact Hterms|split; [|split; [exact Hex|split]]]].
    + apply (Forall_impl _ (fun a (H : isToken a) => proj1 H) Hterms).
    + apply phraseMatches_phrases. exact I.
    + exact Hgroups.
    + destruct (ls_fieldPrefix _); repeat split; assumption.
Qed.

(** X19 (query-parser.ts, parseQueryWithErrors): a regex kept in the
    parsed query is one the RegExp constructor accepts with the flags
    kept, and then no error is reported.  There is one error at most; it
    is a regex error, reported in files mode, and then the query has no
    regex.  The raw text of the query is always the input. *)
Theorem kept_regex_compiles
    (input : jsstring) (settings : QueryParserSettings) :
  let r := parseQueryWithErrors input settings in
  raw (pr_query r) = input
  /\ (forall spec,
        regex (pr_query r) = Some spec ->
        RegExp_new (rx_source spec) (rx_flags spec) <> None
        /\ pr_errors r = [])
  /\ (pr_errors r = []
      \/ exists position,
           pr_errors r = [{| err_type := regex_error;
                             err_position := position |}]
           /\ regex (pr_query r) = None /\ mode (pr_query r) = files).
Proof.
  cbv zeta.
  destruct (isCommandsQuery (trim input) settings) eqn:Hcmd.
  - destruct (parse_commands_shape input settings Hcmd) as (c & ->).
    cbn [pr_query pr_errors raw regex mode].
    split; [reflexivity|]. split; [discriminate|left; reflexivity].
  - destruct (parse_files_shape input settings Hcmd)
      as (tokens & regexSpec & errors & _ & -> & Hrx & Herr).
    cbn [pr_query pr_errors raw regex mode].
    split; [reflexivity|]. split.
    + intros spec ->. exact Hrx.
    + destruct Herr as [->|(position & -> & ->)]; [left; reflexivity|].
      right. exists position. repeat split.
Qed.

End ParserShape.

(** ** The tokenizer *)

Section Tokenizer.
Context {U : Unicode}.
Import Normalize TokenSpec.

Lemma fromCodePoints_app (a b : list codepoint) :
  fromCodePoints (a ++ b) = fromCodePoints a ++ fromCodePoints b.
Proof. unfold fromCodePoints. apply flat_map_app. Qed.

Lemma fromCodePoint_not_nil (c : codepoint) : fromCodePoint c <> [].
Proof. unfold fromCodePoint. destruct (c <? 65536)%N; discriminate. Qed.

Lemma fromCodePoints_not_nil (cps : list codepoint) :
  cps <> [] -> fromCodePoints cps <> [].
Proof.
  destruct cps as [|c cps]; [intros H; contradiction H; reflexivity|].
  intros _ E. rewrite fromCodePoints_cons in E.
  apply app_eq_nil in E as [E _]. apply (fromCodePoint_not_nil c E).
Qed.

Lemma wordRuns_words (cps : list codepoint) :
  forall cur : list codepoint,
    Forall (fun c => isLetterOrNumber c = true) cur ->
    Forall isWord (wordRuns cps cur)
    /\ concat (wordRuns cps cur)
       = fromCodePoints (rev cur)
         ++ fromCodePoints (filter isLetterOrNumber cps).
Proof.
  assert (Hword : forall x cur,
            Forall (fun c => isLetterOrNumber c = true) (x :: cur) ->
            isWord (fromCodePoints (rev (x :: cur)))).
  { intros x cur H. exists (rev (x :: cur)). split; [|split].
    - cbn [rev]. intros E. apply app_eq_nil in E as [_ E]. discriminate.
    - apply Forall_rev, H.
    - reflexivity. }
  induction cps as [|c cps IH]; intros cur Hcur; cbn [wordRuns filter].
  - destruct cur as [|x cur].
    + split; [constructor|reflexivity].
    + split; [constructor; [apply Hword, Hcur|constructor]|].
      cbn [concat]. rewrite !app_nil_r. reflexivity.
  - destruct (isLetterOrNumber c) eqn:E.
    + destruct (IH (c :: cur)) as [H1 H2]; [constructor; assumption|].
      split; [exact H1|]. rewrite H2. cbn [rev].
      rewrite fromCodePoints_app, <- app_assoc.
      rewrite (fromCodePoints_cons c (filter isLetterOrNumber cps)).
      unfold fromCodePoints at 2. cbn [flat_map]. rewrite app_nil_r.
      reflexivity.
    + destruct (IH []) as [H1 H2]; [constructor|].
      destruct cur as [|x cur].
      * split; [exact H1|]. rewrite H2. reflexivity.
      * split; [constructor; [apply Hword, Hcur|exact H1]|].
        cbn [concat]. rewrite H2. reflexivity.
Qed.

(** X20 (normalize.ts, tokenizeWords): every token is a word, the code
    units of one or more letters or numbers, so that no token is empty;
    and the tokens, one after the other, are the letters and numbers of
    the normalised input in their order: the tokenizer drops what is
    neither, and nothing else. *)
Theorem tokens_are_the_letters_and_numbers
    (input : jsstring) (diacritics : bool) :
  Forall isWord (tokenizeWords input diacritics)
  /\ Forall (fun token => token <> []) (tokenizeWords input diacritics)
  /\ concat (tokenizeWords input diacritics)
     = fromCodePoints
         (filter isLetterOrNumber
            (toCodePoints (normalizeText input diacritics))).
Proof.
  unfold tokenizeWords.
  destruct (wordRuns_words (toCodePoints (normalizeText input diacritics)) [])
    as [H1 H2]; [constructor|].
  split; [exact H1|]. split; [|exact H2].
  apply (Forall_impl _ (P := isWord)); [|exact H1].
  intros token (cps & Hne & _ & ->). apply fromCodePoints_not_nil, Hne.
Qed.

End Tokenizer.

(** ** The scorer over the real numbers *)

Section ScoreBounds.
Context {U : Unicode} {CLK : Clock}.
Import Spec.


Lemma of_nat_real (n : nat) : of_nat (NUM := R_JSNumber) n = INR n.
Proof. unfold of_nat. cbn [of_Z R_JSNumber]. symmetry. apply INR_IZR_INZ. Qed.

Lemma div_nonneg (a b : R) : (0 <= a)%R -> (0 < b)%R -> (0 <= a / b)%R.
Proof.
  intros Ha Hb. unfold Rdiv. apply Rmult_le_pos; [exact Ha|].
  left. apply Rinv_0_lt_compat, Hb.
Qed.

Lemma startsWith_nil (s : jsstring) : startsWith s [] = true.
Proof. destruct s; reflexivity. Qed.

(** The score of a token for a term is between 0 and 1. *)
Lemma scoreToken_bounds (query token : jsstring) :
  (0 <= (Scorer.scoreToken (NUM := R_JSNumber)) query token <= 1)%R.
Proof.
  unfold Scorer.scoreToken.
  destruct (startsWith token query) eqn:Es; [cbn; lra|].
  destruct (2 <? Scorer.damerauLevenshtein query token 2); [cbn; lra|].
  rewrite Math_max_real. cbn [of_Z nsub ndiv R_JSNumber].
  rewrite !of_nat_real.
  assert (Hq : 1 <= length query).
  { destruct query; [rewrite startsWith_nil in Es; discriminate|cbn; lia]. }
  assert (Hm : (1 <= INR (Nat.max (length query) (length token)))%R).
  { change 1%R with (INR 1). apply le_INR. lia. }
  pose proof (pos_INR (Scorer.damerauLevenshtein query token 2)) as Hd.
  assert (Hdiv : (0 <= INR (Scorer.damerauLevenshtein query token 2)
                       / INR (Nat.max (length query) (length token)))%R).
  { apply div_nonneg; lra. }
  unfold Rmax. destruct (Rle_dec _ _); lra.
Qed.

Lemma fold_left_invariant (A B : Type) (P : A -> Prop) (f : A -> B -> A)
    (l : list B) :
  (forall a b, P a -> P (f a b)) -> forall a, P a -> P (fold_left f l a).
Proof.
  intros Hf. induction l as [|b l IH]; intros a Ha; cbn [fold_left];
    [exact Ha|]. apply IH, Hf, Ha.
Qed.

Lemma bestToken_bounds (normalizedField normalizedTerm : jsstring)
    (fieldTokens : list jsstring) :
  (0 <= fst ((Scorer.bestToken (NUM := R_JSNumber)) normalizedField
               normalizedTerm fieldTokens) <= 1)%R.
Proof.
  unfold Scorer.bestToken.
  apply (fold_left_invariant _ _
           (fun best : R * option (nat * nat) => (0 <= fst best <= 1)%R)).
  - intros best token Hb. cbv zeta. destruct (nltb _ _); [|exact Hb].
    cbn [fst]. apply scoreToken_bounds.
  - cbn. lra.
Qed.

Lemma sum_bounds (l : list R) :
  Forall (fun x => (0 <= x <= 1)%R) l ->
  forall a : R,
    (a <= fold_left Rplus l a <= a + INR (length l))%R.
Proof.
  induction 1 as [|x l Hx Hl IH]; intros a; cbn [fold_left length].
  - cbn. lra.
  - specialize (IH (a + x)%R). rewrite S_INR. lra.
Qed.

Lemma scoreField_bounds
    (fieldValue : Scorer.FieldValue) (terms : list jsstring)
    (config : Scorer.ScorerConfig (NUM := R_JSNumber)) :
  (0 <= fst ((Scorer.scoreField (NUM := R_JSNumber)) fieldValue terms config) <= 1)%R.
Proof.
  unfold Scorer.scoreField.
  destruct terms as [|term terms]; [cbn; lra|].
  set (ts := term :: terms).
  destruct (Normalize.tokenizeWords _ _) as [|token tokens] eqn:Et;
    [cbn; lra|].
  cbn [fst]. rewrite map_map, length_map, of_nat_real.
  cbn [of_Z ndiv R_JSNumber].
  match goal with
  | |- (0 <= fold_left nadd ?l 0 / _ <= 1)%R =>
      pose proof (sum_bounds l) as Hs
  end.
  match type of Hs with
  | Forall _ ?l -> _ =>
      assert (Hall : Forall (fun x => (0 <= x <= 1)%R) l)
  end.
  { apply Forall_forall. intros x Hx. apply in_map_iff in Hx as (t & <- & _).
    apply bestToken_bounds. }
  specialize (Hs Hall 0%R). rewrite length_map in Hs.
  assert (Hn : (1 <= INR (length ts))%R).
  { change 1%R with (INR 1). apply le_INR. cbn. lia. }
  destruct Hs as [Hs1 Hs2]. rewrite Rplus_0_l in Hs2.
  split.
  - apply div_nonneg; [exact Hs1|lra].
  - apply Rmult_le_reg_r with (INR (length ts)); [lra|].
    unfold Rdiv. rewrite Rmult_assoc, Rinv_l by lra.
    rewrite Rmult_1_r, Rmult_1_l. exact Hs2.
Qed.

(** X21 (scorer.ts, scoreField with scoreToken): over the real numbers,
    the score of a field is between 0 and 1, whatever the field, the
    terms and the configuration: it is the mean over the terms of the
    best token score, and a token scores 1 as a prefix match, 0 beyond
    two edits, and between them otherwise. *)
Theorem field_score_is_between_0_and_1
    (fieldValue : Scorer.FieldValue) (terms : list jsstring)
    (config : Scorer.ScorerConfig (NUM := R_JSNumber)) :
  (0 <= fst ((Scorer.scoreField (NUM := R_JSNumber)) fieldValue terms config) <= 1)%R.
Proof. exact (scoreField_bounds fieldValue terms config). Qed.

End ScoreBounds.

(** ** The scorer and the order of the numbers *)

Section ScoreOrder.
Context {U : Unicode} {NUM : JSNumber} {CLK : Clock}.
Import Spec NumberSpec.
Hypothesis laws : monotone.

Lemma scoreToken_nonneg (query token : jsstring) :
  nle (of_Z 0) (Scorer.scoreToken query token).
Proof.
  unfold Scorer.scoreToken.
  destruct (startsWith token query); [apply (of_Z_mono laws); lia|].
  destruct (2 <? Scorer.damerauLevenshtein query token 2);
    [apply (nle_refl laws)|].
  unfold Math_max.
  match goal with
  | |- context [nltb ?a ?b] => destruct (nltb a b) eqn:E
  end.
  - apply nlt_nle, nltb_nlt, E.
  - apply (nle_refl laws).
Qed.

Lemma bestToken_nonneg (normalizedField normalizedTerm : jsstring)
    (fieldTokens : list jsstring) :
  nle (of_Z 0)
    (fst (Scorer.bestToken normalizedField normalizedTerm fieldTokens)).
Proof.
  unfold Scorer.bestToken.
  apply (fold_left_invariant _ _
           (fun best : num * option (nat * nat) => nle (of_Z 0) (fst best))).
  - intros best token Hb. cbv zeta. destruct (nltb _ _); [|exact Hb].
    cbn [fst]. apply scoreToken_nonneg.
  - cbn [fst]. apply (nle_refl laws).
Qed.

Lemma sum_nonneg (l : list num) :
  Forall (nle (of_Z 0)) l ->
  forall a : num, nle (of_Z 0) a -> nle (of_Z 0) (fold_left nadd l a).
Proof.
  induction 1 as [|x l Hx Hl IH]; intros a Ha; cbn [fold_left];
    [exact Ha|].
  apply IH, (nadd_nonneg laws); assumption.
Qed.

Lemma scoreField_nonneg
    (fieldValue : Scorer.FieldValue) (terms : list jsstring)
    (config : Scorer.ScorerConfig) :
  nle (of_Z 0) (fst (Scorer.scoreField fieldValue terms config)).
Proof.
  unfold Scorer.scoreField.
  destruct terms as [|term terms]; [apply (nle_refl laws)|].
  set (ts := term :: terms).
  destruct (Normalize.tokenizeWords _ _) as [|token tokens] eqn:Et;
    [apply (nle_refl laws)|].
  cbn [fst]. rewrite map_map, length_map.
  apply (ndiv_nonneg laws).
  - apply sum_nonneg; [|apply (nle_refl laws)].
    apply Forall_forall. intros x Hx.
    apply in_map_iff in Hx as (t & <- & _). apply bestToken_nonneg.
  - apply (of_nat_positive laws). cbn. lia.
Qed.

Lemma scorePhrases_nonneg (doc : Doc) (phrases : list jsstring)
    (config : Scorer.ScorerConfig) :
  nle (of_Z 0) (Scorer.scorePhrases doc phrases config).
Proof.
  unfold Scorer.scorePhrases.
  apply (fold_left_invariant _ _ (fun a : num => nle (of_Z 0) a)).
  - intros a phrase Ha. cbv zeta.
    apply (nadd_nonneg laws); [exact Ha|].
    apply (nmul_nonneg laws);
      [apply (of_nat_nonneg laws)|apply (fraction_nonneg laws); lia].
  - apply (nle_refl laws).
Qed.

(** X22 (scorer.ts, computeRecencyBonus): for a half-life above zero,
    the bonus is between 0 and one half, and of two modification times
    the later one gets the higher bonus, or the same. *)
Theorem recency_bonus_is_clamped_and_monotone (m1 m2 : Z) (h : num) :
  nlt (of_Z 0) h -> (m1 <= m2)%Z ->
  nle (of_Z 0) (Scorer.computeRecencyBonus m1 h)
  /\ nle (Scorer.computeRecencyBonus m1 h) (Scorer.computeRecencyBonus m2 h)
  /\ nle (Scorer.computeRecencyBonus m2 h) (of_Z 1 / of_Z 2)%num.
Proof.
  intros Hh Hm.
  split; [exact (proj1 (recency_bounds laws m1 h))|].
  split; [exact (recency_mono laws m1 m2 h Hh Hm)|].
  exact (proj2 (recency_bounds laws m2 h)).
Qed.

(** X23 (scorer.ts, scoreDoc): for a half-life above zero and weights of
    zero or more, the score of a document that is not excluded is zero
    or more. *)
Theorem score_is_never_negative
    (doc : Doc) (q : ParsedQuery) (config : Scorer.ScorerConfig)
    (r : Scorer.ScoredDoc) :
  let w := Scorer.weights config in
  nle (of_Z 0) (Scorer.w_title w) -> nle (of_Z 0) (Scorer.w_headings w) ->
  nle (of_Z 0) (Scorer.w_path w) -> nle (of_Z 0) (Scorer.w_tags w) ->
  nle (of_Z 0) (Scorer.w_symbols w) -> nle (of_Z 0) (Scorer.w_body w) ->
  nle (of_Z 0) (Scorer.w_recency w) ->
  nlt (of_Z 0) (Scorer.recencyHalfLife config) ->
  Scorer.scoreDoc doc q config = Some r ->
  nle (of_Z 0) (Scorer.sd_score r).
Proof.
  intros w H1 H2 H3 H4 H5 H6 H7 Hh Hs.
  unfold Scorer.scoreDoc in Hs.
  destruct (Scorer.isExcluded doc (excludes q) config); [discriminate|].
  injection Hs as <-. cbn [Scorer.sd_score]. fold w.
  repeat (apply (nadd_nonneg laws));
    try (apply (nmul_nonneg laws); [assumption|]);
    try apply scoreField_nonneg.
  - apply (nle_refl laws).
  - apply scorePhrases_nonneg.
  - exact (proj1 (recency_bounds laws (mtime doc)
                    (Scorer.recencyHalfLife config))).
Qed.

End ScoreOrder.

Lemma recency_bonus_is_clamped_and_monotone_witness :
  NumberSpec.nle (NUM := Q_JSNumber) (of_Z 0)
    (Scorer.computeRecencyBonus 1638662400000%Z (of_Z 30))
  /\ NumberSpec.nle (NUM := Q_JSNumber)
       (Scorer.computeRecencyBonus 1638662400000%Z (of_Z 30))
       (Scorer.computeRecencyBonus 1641254400000%Z (of_Z 30))
  /\ NumberSpec.nle (NUM := Q_JSNumber)
       (Scorer.computeRecencyBonus 1641254400000%Z (of_Z 30))
       (of_Z 1 / of_Z 2)%num.
Proof.
  apply (recency_bonus_is_clamped_and_monotone rational_numbers_monotone
           1638662400000%Z 1641254400000%Z (of_Z 30)).
  - reflexivity.
  - apply Z.leb_le. reflexivity.
Defined.

Lemma score_is_never_negative_witness :
  exists r : Scorer.ScoredDoc (NUM := Q_JSNumber),
    Scorer.scoreDoc (Examples.datedAhead (-2)) Examples.noteQuery
      Examples.defaultScorerConfig = Some r
    /\ NumberSpec.nle (of_Z 0) (Scorer.sd_score r).
Proof.
  eexists. split; [reflexivity|].
  apply (score_is_never_negative rational_numbers_monotone
           (Examples.datedAhead (-2)) Examples.noteQuery
           Examples.defaultScorerConfig);
    try (vm_compute; discriminate); reflexivity.
Defined.

(** ** The answer to the empty query *)

Section RecentDocuments.
Context {U : Unicode} {NUM : JSNumber} {CLK : Clock} {RX : RegExpEngine}.
Import Provider Spec ResultSpec.

(** Numbers compare integers as the integers compare: so it is for the
    modification times a number holds exactly. *)
Hypothesis Hexact :
  forall a b : Z, ncompare (of_Z a) (of_Z b) = Z.compare a b.

Lemma nltb_of_Z (a b : Z) : nltb (of_Z a) (of_Z b) = (a <? b)%Z.
Proof. unfold nltb, Z.ltb. rewrite Hexact. reflexivity. Qed.

Lemma sortByScoreDesc_by_mtime (l : list (jsstring * DocMetadata)) :
  sortByScoreDesc
    (map (fun e => {| sr_id := fst e;
                      sr_score := of_Z (mtime (dm_doc (snd e)));
                      sr_matchSpans := [] |}) l)
  = map (fun e => {| sr_id := fst e;
                     sr_score := of_Z (mtime (dm_doc (snd e)));
                     sr_matchSpans := [] |}) (sortByMtimeDesc l).
Proof.
  unfold sortByScoreDesc, sortByMtimeDesc.
  induction l as [|x l IH]; cbn [map fold_right]; [reflexivity|].
  rewrite IH. generalize (fold_right insertByMtime [] l) as sorted.
  induction sorted as [|y r IHr]; cbn [map insertByScore insertByMtime];
    [reflexivity|].
  cbn [sr_score]. rewrite nltb_of_Z.
  destruct (mtime (dm_doc (snd x)) <? mtime (dm_doc (snd y)))%Z;
    cbn [map]; [rewrite IHr|]; reflexivity.
Qed.

Lemma insertByMtime_permutation (x : jsstring * DocMetadata)
    (l : list (jsstring * DocMetadata)) :
  Permutation (insertByMtime x l) (x :: l).
Proof.
  induction l as [|y l IH]; cbn [insertByMtime]; [reflexivity|].
  destruct (_ <? _)%Z; [|reflexivity]. rewrite IH. apply perm_swap.
Qed.

Lemma insertByMtime_sorted (x : jsstring * DocMetadata)
    (l : list (jsstring * DocMetadata)) :
  StronglySorted notOlder l -> StronglySorted notOlder (insertByMtime x l).
Proof.
  induction 1 as [|y l Hs IH Hy]; cbn [insertByMtime].
  - constructor; constructor.
  - destruct (Z.ltb_spec (mtime (dm_doc (snd x))) (mtime (dm_doc (snd y))))
      as [Hlt|Hge].
    + constructor; [exact IH|].
      apply Forall_forall. intros z Hz.
      apply (Permutation_in _ (insertByMtime_permutation x l)) in Hz.
      destruct Hz as [<-|Hz]; [unfold notOlder; lia|].
      rewrite Forall_forall in Hy. apply Hy, Hz.
    + constructor; [constructor; assumption|].
      constructor; [exact Hge|].
      apply Forall_forall. intros z Hz. rewrite Forall_forall in Hy.
      specialize (Hy z Hz). unfold notOlder in *. lia.
Qed.

Lemma sortByMtimeDesc_spec (l : list (jsstring * DocMetadata)) :
  Permutation (sortByMtimeDesc l) l
  /\ StronglySorted notOlder (sortByMtimeDesc l).
Proof.
  unfold sortByMtimeDesc.
  induction l as [|x l [IH1 IH2]]; cbn [fold_right].
  - split; constructor.
  - split; [|apply insertByMtime_sorted, IH2].
    rewrite insertByMtime_permutation. apply perm_skip, IH1.
Qed.

Lemma renumber_spec (n : nat) (l : list SearchResult) :
  forall index : nat,
    ids (renumber n l index) = ids l
    /\ scores (renumber n l index)
       = map (fun i => of_nat (n - i)) (seq index (length l)).
Proof.
  induction l as [|r l IH]; intros index; cbn [renumber ids scores map length seq].
  - split; reflexivity.
  - destruct (IH (S index)) as [H1 H2]. unfold ids, scores in *.
    cbn [sr_id sr_score]. rewrite H1, H2. split; reflexivity.
Qed.

(** X24 (built-in-provider.ts, getRecentDocuments): when numbers
    compare the modification times as integers, the answer to the empty
    query lists the stored documents by modification time, the latest
    first, cut at the limit; and whatever the times are, the scores it
    gives are the number of documents, then one less, and so on down the
    list. *)
Theorem recent_documents_come_latest_first (p : t) (limit : nat) :
  exists entries : list (jsstring * DocMetadata),
    Permutation entries (docs p)
    /\ StronglySorted notOlder entries
    /\ ids (getRecentDocuments p limit) = firstn limit (map fst entries)
    /\ scores (getRecentDocuments p limit)
       = firstn limit
           (map (fun i => of_nat (length (docs p) - i))
              (seq 0 (length (docs p)))).
Proof.
  destruct (sortByMtimeDesc_spec (docs p)) as [Hperm Hsorted].
  exists (sortByMtimeDesc (docs p)).
  split; [exact Hperm|]. split; [exact Hsorted|].
  unfold getRecentDocuments. rewrite sortByScoreDesc_by_mtime.
  match goal with
  | |- context [renumber ?n ?l 0] =>
      destruct (renumber_spec n l 0) as [H1 H2]
  end.
  unfold ids, scores in *. rewrite <- !firstn_map, H1, H2.
  rewrite !length_map, map_map. cbn [sr_id].
  rewrite (Permutation_length Hperm). split; reflexivity.
Qed.

End RecentDocuments.

Lemma Q_compares_integers (a b : Z) :
  @ncompare Q_JSNumber (@of_Z Q_JSNumber a) (@of_Z Q_JSNumber b)
  = Z.compare a b.
Proof.
  cbn [ncompare of_Z Q_JSNumber]. unfold Qcompare. cbn [Qnum Qden inject_Z].
  rewrite !Z.mul_1_r. reflexivity.
Qed.

Lemma recent_documents_come_latest_first_witness :
  exists entries : list (jsstring * Provider.DocMetadata),
    Permutation entries (Provider.docs Examples.threeNotes)
    /\ StronglySorted ResultSpec.notOlder entries
    /\ Spec.ids (Provider.getRecentDocuments Examples.threeNotes 2)
       = firstn 2 (map fst entries).
Proof.
  destruct (recent_documents_come_latest_first Q_compares_integers
              Examples.threeNotes 2) as (entries & H1 & H2 & H3 & _).
  exists entries. split; [exact H1|]. split; assumption.
Defined.

(** ** The spans of the regex matches *)

Section RegexSpans.
Context {U : Unicode} {NUM : JSNumber} {CLK : Clock} {RX : RegExpEngine}.
Import Provider.

Variable rx : RegExp.

(** A match found from an index of the string on starts there or later
    and ends inside the string. *)
Hypothesis Hrx :
  forall (s : jsstring) (lastIndex i e : nat),
    lastIndex <= length s -> rx s lastIndex = Some (i, e) ->
    lastIndex <= i /\ i <= e /\ e <= length s.

Lemma advanceStringIndex_grows (s : jsstring) (i : nat) (unicode : bool) :
  i < advanceStringIndex s i unicode.
Proof.
  unfold advanceStringIndex. destruct (negb unicode); [lia|].
  destruct (length s <=? i + 1); [lia|].
  destruct (_ && _); lia.
Qed.

Lemma matchAll_loop_spans (unicode : bool) (s : jsstring) (fuel : nat) :
  forall lastIndex : nat,
    Forall (fun sp => lastIndex <= fst sp /\ fst sp < snd sp
                      /\ snd sp <= length s)
      (matchAll_loop fuel rx unicode s lastIndex)
    /\ StronglySorted (fun a b => snd a <= fst b)
         (matchAll_loop fuel rx unicode s lastIndex).
Proof.
  induction fuel as [|fuel IH]; intros lastIndex; cbn [matchAll_loop].
  - split; constructor.
  - destruct (Nat.ltb_spec (length s) lastIndex) as [|Hin];
      [split; constructor|].
    destruct (rx s lastIndex) as [[i e]|] eqn:E; [|split; constructor].
    destruct (Hrx s lastIndex i e Hin E) as (H1 & H2 & H3).
    destruct (Nat.eqb_spec e i) as [->|Hne].
    + destruct (IH (advanceStringIndex s i unicode)) as [F S].
      split; [|exact S].
      pose proof (advanceStringIndex_grows s i unicode) as Hadv.
      apply (Forall_impl _ (P := fun sp =>
               advanceStringIndex s i unicode <= fst sp
               /\ fst sp < snd sp /\ snd sp <= length s)); [|exact F].
      intros sp (A & B & C). repeat split; try assumption. lia.
    + destruct (IH e) as [F S]. split.
      * constructor; [cbn [fst snd]; lia|].
        apply (Forall_impl _ (P := fun sp =>
                 e <= fst sp /\ fst sp < snd sp /\ snd sp <= length s));
          [|exact F].
        intros sp (A & B & C). repeat split; try assumption. lia.
      * constructor; [exact S|].
        apply (Forall_impl _ (P := fun sp =>
                 e <= fst sp /\ fst sp < snd sp /\ snd sp <= length s));
          [|exact F].
        intros sp (A & _). exact A.
Qed.

(** The rounds [matchAll] is given are enough: more would find the same
    matches. *)
Lemma matchAll_loop_fuel (unicode : bool) (s : jsstring) (fuel : nat) :
  forall (lastIndex extra : nat),
    length s + 2 <= fuel + lastIndex ->
    matchAll_loop (fuel + extra) rx unicode s lastIndex
    = matchAll_loop fuel rx unicode s lastIndex.
Proof.
  induction fuel as [|fuel IH]; intros lastIndex extra Hfuel.
  - cbn [Nat.add]. destruct extra as [|extra]; [reflexivity|].
    cbn [matchAll_loop].
    destruct (Nat.ltb_spec (length s) lastIndex); [reflexivity|lia].
  - cbn [Nat.add matchAll_loop].
    destruct (Nat.ltb_spec (length s) lastIndex) as [|Hin]; [reflexivity|].
    destruct (rx s lastIndex) as [[i e]|] eqn:E; [|reflexivity].
    destruct (Hrx s lastIndex i e Hin E) as (H1 & H2 & H3).
    destruct (Nat.eqb_spec e i) as [->|Hne].
    + apply IH. pose proof (advanceStringIndex_grows s i unicode). lia.
    + f_equal. apply IH. lia.
Qed.

(** X25 (built-in-provider.ts, findRegexMatches): for a pattern whose
    matches lie where the search for them started or later and inside
    the text, the spans found in a text are not empty, lie inside the
    text from the start index on, come in order and do not overlap; and
    the iteration over the matches ends: the rounds it is given here are
    enough, more rounds find the same spans. *)
Theorem regex_spans_are_ordered
    (unicode : bool) (s : jsstring) (lastIndex : nat) :
  Forall (fun sp => lastIndex <= fst sp /\ fst sp < snd sp
                    /\ snd sp <= length s)
    (matchAll rx unicode s lastIndex)
  /\ StronglySorted (fun a b => snd a <= fst b)
       (matchAll rx unicode s lastIndex)
  /\ (forall extra,
        matchAll_loop (length s + 2 + extra) rx unicode s lastIndex
        = matchAll rx unicode s lastIndex).
Proof.
  unfold matchAll.
  destruct (matchAll_loop_spans unicode s (length s + 2) lastIndex) as [F S].
  split; [exact F|]. split; [exact S|].
  intros extra. apply matchAll_loop_fuel. lia.
Qed.

End RegexSpans.

Lemma startsWith_length (s p : jsstring) :
  startsWith s p = true -> length p <= length s.
Proof.
  revert s; induction p as [|c p IH]; intros s H; cbn [length]; [lia|].
  destruct s as [|d s]; [discriminate|]. cbn [startsWith] in H.
  apply andb_true_iff in H as [_ H]. apply IH in H. cbn [length]. lia.
Qed.

Lemma indexOf_from_bounds (p s : jsstring) :
  forall i0 i : nat,
    indexOf_from s p i0 = Some i -> i0 <= i /\ i - i0 + length p <= length s.
Proof.
  induction s as [|d s IH]; intros i0 i; cbn [indexOf_from].
  - destruct (startsWith [] p) eqn:E; [|discriminate].
    intros H. injection H as <-. apply startsWith_length in E. lia.
  - destruct (startsWith (d :: s) p) eqn:E.
    + intros H. injection H as <-. apply startsWith_length in E. lia.
    + intros H. apply IH in H. cbn [length]. lia.
Qed.

Lemma literal_search_inside (source : jsstring) (ignoreCase sticky : bool)
    (s : jsstring) (lastIndex i e : nat) :
  lastIndex <= length s ->
  LiteralEngine.search source ignoreCase sticky s lastIndex = Some (i, e) ->
  lastIndex <= i /\ i <= e /\ e <= length s.
Proof.
  intros Hin. unfold LiteralEngine.search.
  set (text := skipn lastIndex (map (LiteralEngine.fold ignoreCase) s)).
  assert (Htext : length text = length s - lastIndex).
  { unfold text. rewrite length_skipn, length_map. reflexivity. }
  destruct sticky.
  - destruct (startsWith text _) eqn:E; [|discriminate].
    intros H. injection H as <- <-. apply startsWith_length in E.
    rewrite length_map in E. lia.
  - destruct (indexOf_from text _ lastIndex) as [j|] eqn:E; [|discriminate].
    intros H. injection H as <- <-. apply indexOf_from_bounds in E.
    rewrite length_map in E. lia.
Qed.

Lemma regex_spans_are_ordered_witness :
  Forall (fun sp => 0 <= fst sp /\ fst sp < snd sp
                    /\ snd sp <= length (js "up and up"))
    (Provider.matchAll (LiteralEngine.search (js "up") false false) false
       (js "up and up") 0)
  /\ StronglySorted (fun a b => snd a <= fst b)
       (Provider.matchAll (LiteralEngine.search (js "up") false false) false
          (js "up and up") 0).
Proof.
  destruct (regex_spans_are_ordered
              (LiteralEngine.search (js "up") false false)
              (literal_search_inside (js "up") false false)
              false (js "up and up") 0) as (H1 & H2 & _).
  split; assumption.
Defined.

(** ** The document store *)

Section DocumentStore.
Context {U : Unicode} {NUM : JSNumber} {CLK : Clock} {RX : RegExpEngine}.
Import Provider Spec.

Lemma withoutOld_docs (p : t) (d : Doc) (j : jsstring) :
  j <> id d -> map_get (docs (withoutOld p d)) j = map_get (docs p) j.
Proof.
  intros Hj. unfold withoutOld.
  destruct (map_has (docs p) (id d)); [|reflexivity].
  destruct (remove_facts p (id d)) as (_ & -> & _).
  apply map_get_delete_other. auto.
Qed.

Lemma upsert_docs (p : t) (d : Doc) :
  snd (upsert p d) = Done ->
  (exists docMetadata,
      map_get (docs (fst (upsert p d))) (id d) = Some docMetadata
      /\ dm_doc docMetadata = processDoc (options p) d)
  /\ (forall j, j <> id d ->
        map_get (docs (fst (upsert p d))) j = map_get (docs p) j)
  /\ options (fst (upsert p d)) = options p.
Proof.
  intros Hdone.
  destruct (upsert_cases p d) as [[_ E]|(_ & _ & Ho & _ & meta & Hd & Hm)];
    cbv zeta in *; [rewrite E in Hdone; discriminate|].
  rewrite withoutOld_options in Ho, Hm.
  split; [|split; [|exact Ho]].
  - exists meta. rewrite Hd, map_get_set_same. split; [reflexivity|exact Hm].
  - intros j Hj. rewrite Hd, map_get_set_other by auto.
    apply withoutOld_docs, Hj.
Qed.

(** X27 (built-in-provider.ts, upsert): an upsert that succeeds stores
    the document, its body cut to the configured length, under its id,
    in place of what was stored under that id; the documents stored under
    other ids and the options stay as they are. *)
Theorem upsert_stores_the_document (p : t) (d : Doc) :
  snd (upsert p d) = Done ->
  (exists docMetadata,
      map_get (docs (fst (upsert p d))) (id d) = Some docMetadata
      /\ dm_doc docMetadata = processDoc (options p) d)
  /\ (forall j, j <> id d ->
        map_get (docs (fst (upsert p d))) j = map_get (docs p) j)
  /\ options (fst (upsert p d)) = options p.
Proof. exact (upsert_docs p d). Qed.

Lemma upsert_keys (p : t) (d : Doc) (i : jsstring) :
  map_has (docs (fst (upsert p d))) i = true ->
  map_has (docs p) i = true \/ i = id d.
Proof.
  intros H. destruct (list_eq_dec N.eq_dec i (id d)) as [E|E]; [auto|].
  left. unfold map_has in *.
  destruct (upsert_cases p d) as [[_ Eq]|(_ & Hdone & _)]; cbv zeta in *.
  - rewrite Eq in H. cbn [fst] in H. rewrite withoutOld_docs in H by exact E.
    exact H.
  - destruct (upsert_docs p d Hdone) as (_ & Hother & _).
    rewrite Hother in H by exact E. exact H.
Qed.

Lemma upsertAll_keys (l : list Doc) :
  forall (p : t) (i : jsstring),
    map_has (docs (fst (upsertAll p l))) i = true ->
    map_has (docs p) i = true \/ exists d, In d l /\ id d = i.
Proof.
  induction l as [|d l IH]; intros p i; cbn [upsertAll]; [auto|].
  pose proof (upsert_keys p d i) as Hk.
  destruct (upsert p d) as [p' o]. cbn [fst] in Hk.
  destruct o; cbn [fst].
  - intros H. apply IH in H as [H|(d' & Hd' & E)].
    + destruct (Hk H) as [H' | ->]; [auto|]. right. exists d. split; [left|];
        reflexivity.
    + right. exists d'. split; [right; exact Hd'|exact E].
  - intros H. destruct (Hk H) as [H' | ->]; [auto|].
    right. exists d. split; [left|]; reflexivity.
Qed.

Lemma upsertAll_stored (l : list Doc) :
  forall p : t,
    snd (upsertAll p l) = Done ->
    (forall i, map_has (docs p) i = true ->
               map_has (docs (fst (upsertAll p l))) i = true)
    /\ (forall d, In d l -> map_has (docs (fst (upsertAll p l))) (id d) = true).
Proof.
  induction l as [|d l IH]; intros p; cbn [upsertAll].
  - intros _. split; [auto|intros d []].
  - pose proof (upsert_docs p d) as Hu.
    destruct (upsert p d) as [p' o]. cbn [fst snd] in Hu.
    destruct o; [|discriminate].
    intros Hdone. destruct (IH p' Hdone) as [Hkeep Hall].
    destruct (Hu eq_refl) as ((meta & Hget & _) & Hother & _).
    split.
    + intros i Hi. apply Hkeep. unfold map_has in *.
      destruct (list_eq_dec N.eq_dec i (id d)) as [->|E];
        [rewrite Hget; reflexivity|].
      rewrite Hother by exact E. exact Hi.
    + intros d' [<-|Hd']; [|apply Hall, Hd'].
      apply Hkeep. unfold map_has. rewrite Hget. reflexivity.
Qed.

(** X28 (built-in-provider.ts, indexAll with clear and upsert): indexAll
    replaces the content of the provider: afterwards every stored
    document has the id of a document of the list, whatever was stored
    before and whether the call succeeded or not; and when it succeeds,
    every document of the list is stored under its id. *)
Theorem indexAll_replaces_the_documents (p : t) (l : list Doc) :
  (forall i, map_has (docs (fst (indexAll p l))) i = true ->
             exists d, In d l /\ id d = i)
  /\ (snd (indexAll p l) = Done ->
      forall d, In d l -> map_has (docs (fst (indexAll p l))) (id d) = true).
Proof.
  unfold indexAll. split.
  - intros i H. apply upsertAll_keys in H as [H|H]; [discriminate|exact H].
  - intros Hdone. apply (upsertAll_stored l (clear p) Hdone).
Qed.

End DocumentStore.

Lemma upsert_stores_the_document_witness :
  exists docMetadata,
    Provider.map_get
      (Provider.docs (fst (Provider.upsert Examples.smallBodies
                             Examples.accentedDoc)))
      (js "e.md") = Some docMetadata
    /\ Provider.dm_doc docMetadata
       = Provider.processDoc Examples.smallBodiesOptions Examples.accentedDoc.
Proof.
  destruct (upsert_stores_the_document Examples.smallBodies
              Examples.accentedDoc) as (H & _).
  - vm_compute. reflexivity.
  - exact H.
Defined.

(** ** What the stream yields on the way *)

Section Emissions.
Context {U : Unicode} {NUM : JSNumber} {CLK : Clock} {RX : RegExpEngine}.
Import Provider Spec.

Lemma emit_length (top : list SearchResult) :
  forall yieldedIds : list jsstring,
    length (fst (emit top yieldedIds)) <= length top.
Proof.
  induction top as [|r top IH]; intros yieldedIds; cbn [emit]; [cbn; lia|].
  destruct (negb (set_has yieldedIds (sr_id r))).
  - specialize (IH (set_add yieldedIds (sr_id r))).
    destruct (emit top (set_add yieldedIds (sr_id r))) as [out ids1].
    cbn [fst length] in *. lia.
  - specialize (IH yieldedIds). cbn [length]. lia.
Qed.

Lemma hundredth (n : nat) :
  S n mod 100 = 0 -> S n / 100 = S (n / 100).
Proof.
  intros H.
  pose proof (Nat.div_mod_eq (S n) 100) as H1.
  pose proof (Nat.div_mod_eq n 100) as H2.
  pose proof (Nat.mod_upper_bound n 100) as H3. lia.
Qed.

Lemma scoreCandidate_emissions (p : t) (q : ParsedQuery) (limit : nat)
    (st : StreamState) (docId : jsstring) :
  length (ss_yielded st)
  <= ss_processedCount st / 100 * Nat.min 5 (limit / 2) ->
  length (ss_yielded (scoreCandidate p q limit st docId))
  <= ss_processedCount (scoreCandidate p q limit st docId) / 100
     * Nat.min 5 (limit / 2).
Proof.
  intros Hst. unfold scoreCandidate.
  destruct (map_get (docs p) docId) as [docMetadata|]; [|exact Hst].
  match goal with
  | |- context [0 <? MinHeap.size ?h] => generalize h; intros heap1
  end.
  destruct ((S (ss_processedCount st) mod 100 =? 0) && (0 <? MinHeap.size heap1))
    eqn:E.
  - apply andb_true_iff in E as [E _]. apply Nat.eqb_eq in E.
    pose proof (emit_length
                  (firstn (Nat.min 5 (limit / 2))
                     (sortByScoreDesc (MinHeap.toArray heap1)))
                  (ss_yieldedIds st)) as Hout.
    destruct (emit _ _) as [out ids1].
    cbn [fst ss_yielded ss_processedCount] in *.
    rewrite length_app, (hundredth _ E).
    pose proof (firstn_le_length (Nat.min 5 (limit / 2))
                  (sortByScoreDesc (MinHeap.toArray heap1))) as Hf.
    rewrite length_firstn in Hout. cbn [Nat.mul]. lia.
  - cbn [ss_yielded ss_processedCount].
    pose proof (Nat.Div0.div_le_mono (ss_processedCount st)
                  (S (ss_processedCount st)) 100) as Hd.
    assert (Hm : ss_processedCount st / 100 * Nat.min 5 (limit / 2)
                 <= S (ss_processedCount st) / 100 * Nat.min 5 (limit / 2)).
    { apply Nat.mul_le_mono_r, Hd. lia. }
    lia.
Qed.

Lemma scoringLoop_emissions (p : t) (q : ParsedQuery) (limit : nat) :
  length (ss_yielded (scoringLoop p q limit))
  <= ss_processedCount (scoringLoop p q limit) / 100 * Nat.min 5 (limit / 2).
Proof.
  unfold scoringLoop.
  apply (fold_left_invariant _ _
           (fun st => length (ss_yielded st)
                      <= ss_processedCount st / 100 * Nat.min 5 (limit / 2))).
  - intros st docId. apply scoreCandidate_emissions.
  - cbn. lia.
Qed.

(** X29 (built-in-provider.ts, queryStream): the stream yields little
    before the final results: for every full hundred of candidates, the
    smaller of five and half the limit at most.  So nothing is yielded on
    the way for fewer than one hundred candidates, nor for a limit of 0
    or 1. *)
Theorem intermediate_emissions_are_bounded
    (p : t) (q : ParsedQuery) (limit : nat) :
  length (ss_yielded (scoringLoop p q limit))
  <= length (gatherCandidates p q) / 100 * Nat.min 5 (limit / 2).
Proof.
  pose proof (scoringLoop_emissions p q limit) as H.
  destruct (scoringLoop_invariant p q limit) as (_ & _ & Hcount & _).
  pose proof (Nat.Div0.div_le_mono _ _ 100 Hcount) as Hd.
  assert (Hm : ss_processedCount (scoringLoop p q limit) / 100
               * Nat.min 5 (limit / 2)
               <= length (gatherCandidates p q) / 100 * Nat.min 5 (limit / 2)).
  { apply Nat.mul_le_mono_r, Hd. }
  lia.
Qed.

(** X26 (built-in-provider.ts, query): the ids query returns are the
    first ids the stream yields, as many as the limit says and one for a
    limit of 0; query never returns more than that, and never more than
    the limit for the empty query. *)
Theorem query_returns_the_head_of_the_stream
    (p : t) (q : ParsedQuery) (opts : option nat) :
  ids (query p q opts)
  = firstn (Nat.max 1 (limitOf opts)) (ids (queryStream p q opts))
  /\ length (query p q opts) <= Nat.max 1 (limitOf opts)
  /\ (isEmpty q = true -> length (query p q opts) <= limitOf opts).
Proof.
  pose proof (query_ids_prefix_of_stream p q opts) as H.
  split; [exact H|]. split.
  - assert (E : length (query p q opts) = length (ids (query p q opts)))
      by (unfold ids; rewrite length_map; reflexivity).
    rewrite E, H, length_firstn. lia.
  - intros He. unfold query. rewrite He.
    rewrite getRecentDocuments_length. lia.
Qed.

End Emissions.
